(** * nengo_gui.netgraph: the reload pass, the command log and object creation

    A shallow embedding of [nengo_gui/netgraph.py]: the [NameFinder] lookups,
    [PageNetwork.execute], and the [NetGraph] methods [_reload],
    [_reload_update_item], [get_parents], [undo], [redo], [act_expand],
    [create_object], [get_extra_info] and [create_connection], together with
    the command handler bound to ["netgraph.action"].

    Python objects are values tagged with their identity ([oid]); dictionaries
    keyed by objects are keyed by that identity.  Methods are computations in
    a state-and-exception monad over the [NetGraph] record.  Everything the
    file imports from elsewhere (the nengo library, [exec]/[eval], the
    [user_action] classes, the page object) is an operation of the class
    [Externals]. *)

From Stdlib Require Import ZArith QArith Ascii String.
From stdpp Require Import base option list gmap strings fin_maps pretty.

Set Warnings "-register-all".

Local Open Scope Z_scope.
Local Open Scope string_scope.
Local Open Scope list_scope.

(** ** Python values *)

(** What the code observes of a Node's [output]: whether it is an
    [OverriddenOutput] (and then whether its [base_output] is None), whether
    it is callable, and whether it has the attribute [_nengo_html_]. *)
Inductive OutputKind :=
| PlainOutput
| OverriddenOutput (base_output_is_none : bool).

Record Output := mkOutput {
  output_kind : OutputKind;
  callable : bool;
  has_nengo_html : bool
}.

(** The objects a script can bind.  [oid] is the identity of the object
    (Python's [id]); attributes are the ones the code reads. *)
Inductive PyVal :=
| PyNone
| PyStr (s : string)
| Node (oid : nat) (label : option string) (output : option Output)
       (size_out : Z)
| Ensemble (oid : nat) (label : option string) (size_out n_neurons : Z)
| Neurons (oid : nat) (ensemble : PyVal)
| Connection (oid : nat) (label : option string)
             (pre_obj post_obj post : PyVal)
| LearningRule (oid : nat) (connection : PyVal)
| ObjView (oid : nat) (obj : PyVal)
| Network (oid : nat) (label : option string)
          (ensembles nodes networks connections : list PyVal)
| Opaque (oid : nat).

(** Hash key of a value used as a dictionary key: None and strings hash by
    value, every other object by identity. *)
Abbreviation Key := (option (string + nat)).

Definition py_key (v : PyVal) : Key :=
  match v with
  | PyNone => None
  | PyStr s => Some (inl s)
  | Node i _ _ _ | Ensemble i _ _ _ | Neurons i _ | Connection i _ _ _ _
  | LearningRule i _ | ObjView i _ | Network i _ _ _ _ _ | Opaque i =>
      Some (inr i)
  end.

Definition is_none (v : PyVal) : bool :=
  match v with PyNone => true | _ => false end.

(** The four classes of [NameFinder.CLASSES] and of the class test in
    [_reload]. *)
Inductive NengoClass := ClsEnsemble | ClsNode | ClsNetwork | ClsConnection.

Definition isinstance (v : PyVal) (c : NengoClass) : bool :=
  match v, c with
  | Ensemble _ _ _ _, ClsEnsemble => true
  | Node _ _ _ _, ClsNode => true
  | Network _ _ _ _ _ _, ClsNetwork => true
  | Connection _ _ _ _ _, ClsConnection => true
  | _, _ => false
  end.

(** ** Exceptions and the method monad *)

(** The exceptions the methods raise; [OtherError] is any other class,
    by its name. *)
Inductive Exn :=
| KeyError
| IndexError
| AttributeError
| IOError
| TypeError
| OtherError (name : string).

#[global] Instance Exn_eq_dec : EqDecision Exn.
Proof. solve_decision. Defined.

(** Outcome of running a method: it returns, it raises (the state mutated so
    far stays), or it loops forever. *)
Inductive Outcome (S A : Type) : Type :=
| Ok (a : A) (s : S)
| Raise (e : Exn) (s : S)
| Diverge.
Arguments Ok {S A} a s.
Arguments Raise {S A} e s.
Arguments Diverge {S A}.

(** ** Dictionaries of helper information *)

Inductive InfoVal :=
| IBool (b : bool)
| IInt (z : Z)
| IList (l : list string).

#[global] Instance InfoVal_eq_dec : EqDecision InfoVal.
Proof. solve_decision. Defined.

Abbreviation Info := (gmap string InfoVal).
Abbreviation NameTable := (gmap Key string).
Abbreviation Locals := (gmap string PyVal).

(** ** NameFinder *)

Record NameFinder := mkNameFinder {
  names : NameTable;
  autoprefix : string;
  autocount : nat
}.

(** [NameFinder.__getitem__]: [self.names[obj]]. *)
Definition NameFinder_getitem (nf : NameFinder) (obj : PyVal) : option string :=
  names nf !! py_key obj.

(** [label.rsplit('.', 1)[1]] when ['.' in label]. *)
Fixpoint after_last_dot (s : string) : option string :=
  match s with
  | EmptyString => None
  | String c s' =>
      match after_last_dot s' with
      | Some t => Some t
      | None => if Ascii.eqb c "."%char then Some s' else None
      end
  end.

(** The attribute [obj.label]; [None] when the object has no such
    attribute. *)
Definition get_label (v : PyVal) : option (option string) :=
  match v with
  | Node _ l _ _ | Ensemble _ l _ _ | Connection _ l _ _ _
  | Network _ l _ _ _ _ => Some l
  | _ => None
  end.

(** [NameFinder.label]: [inl] is the exception raised. *)
Definition NameFinder_label (nf : NameFinder) (obj : PyVal) : Exn + string :=
  match get_label obj with
  | None => inl AttributeError
  | Some (Some l) => inr l
  | Some None =>
      match names nf !! py_key obj with
      | None => inl KeyError
      | Some l =>
          match after_last_dot l with
          | Some t => inr t
          | None => inr l
          end
      end
  end.

(** [NameFinder(a, b)]: [__init__(self, autoprefix="_viz_")] takes one
    argument besides [self], so a call with two raises TypeError before
    the body runs. *)
Definition NameFinder_new2 {A B : Type} (a : A) (b : B) : Exn + NameFinder :=
  inl TypeError.

(** [name_finder.known_name]: neither [__init__] nor a method of the
    class sets such an attribute, so reading it raises AttributeError. *)
Definition NameFinder_known_name (nf : NameFinder) : Exn + NameTable :=
  inl AttributeError.

(** ** Events, client messages, configuration, actions *)

(** The dictionaries appended to [to_be_sent], by their ['type']. *)
Inductive Event :=
| EvRemove (uid : string)
| EvRename (uid : string) (name : string)
| EvReconnect (uid : string) (pres posts : list string)
| EvDeleteGraph (uid : nat) (notify_server : bool)
| EvJs (code : string).

(** The uid an event of the reload loop is about. *)
Definition event_uid (e : Event) : option string :=
  match e with
  | EvRemove u | EvRename u _ | EvReconnect u _ _ => Some u
  | EvDeleteGraph _ _ | EvJs _ => None
  end.

(** The dictionaries written to the client by [create_object] and
    [create_connection] (before [json.dumps]). *)
Inductive Message :=
| MsgObject (uid label : string) (pos : Q * Q) (type : string) (size : Q * Q)
            (parent : option string) (expanded : option bool) (extra : Info)
| MsgConnection (uid : string) (pre post : list string)
                (parent : option string).

(** One entry [config[obj]]; [cfg_size] is its attribute [size]. *)
Record ConfigEntry := mkConfigEntry {
  pos : option (Q * Q);
  cfg_size : option (Q * Q);
  expanded : bool;
  has_layout : bool
}.

(** The classes of [user_action] the command handler chooses from. *)
Inductive ActionClass :=
| ExpandCollapse (expand : bool)
| CreateGraph
| Pos
| Size
| PosSize
| FeedforwardLayout
| ConfigAction
| ActionBase.

(** An action object: its class and the keyword arguments it was built
    with. *)
Record Action := mkAction {
  action_class : ActionClass;
  action_kwargs : list (string * string)
}.

Abbreviation Group := (list Action).

(** Calls of the methods of an action, in the order they are made. *)
Inductive Call :=
| CallInit (a : Action)
| CallUndo (a : Action)
| CallApply (a : Action).

(** Python list objects holding the undo and redo stacks live in a store
    and are named by reference, so that two attributes may name one list. *)
Abbreviation Ref := nat.

(** ** The page and the NetGraph *)

(** The attributes of [self.page] that the methods read and write.  The
    page object itself is not part of the module: [execute],
    [last_good_locals], [code] and [locals] are those of [PageNetwork];
    [model] is the Network that [execute] stores (its attribute [obj]);
    [error] is the report last given to [_set_error], None after
    [_set_error(output=None, line=None)]; [page_names] is [page.names];
    [editor_code] is the text last given to [page.editor.update_code];
    [config_save_needed] is the flag that [modified_config] sets;
    [page_undo_stack] and [page_redo_stack] are the references of the
    lists [page.undo_stack] and [page.redo_stack]. *)
Record Page := mkPage {
  filename : option string;
  code : option string;
  locals : Locals;
  last_good_locals : option Locals;
  error : option (string * nat);
  model : PyVal;
  page_names : NameFinder;
  name_finder : option NameFinder;
  default_labels : NameTable;
  config : gmap Key ConfigEntry;
  uid_prefix_counter : gmap string nat;
  components : list PyVal;
  page_undo_stack : Ref;
  page_redo_stack : Ref;
  changed : bool;
  editor_code : option string;
  config_save_needed : bool
}.

(** The attributes of a [NetGraph], with the store of the list objects
    ([lists]), the calls made on action objects ([calls]), the messages
    written to the client ([written]) and the number of random values
    drawn so far ([random_draws]).  [undo_stack] and [redo_stack] are the
    references of the two lists that [__init__] creates. *)
Record NetGraph := mkNetGraph {
  layout : option PyVal;
  to_be_expanded : list PyVal;
  networks_to_search : list PyVal;
  undo_stack : Ref;
  redo_stack : Ref;
  uids : gmap string PyVal;
  parents : gmap string string;
  to_be_sent : list Event;
  page : Page;
  lists : gmap Ref (list Group);
  calls : list Call;
  written : list Message;
  random_draws : nat
}.

(** Field updates. *)
Definition set_code (v : option string) (p : Page) : Page :=
  mkPage (filename p) v (locals p) (last_good_locals p) (error p) (model p)
    (page_names p) (name_finder p) (default_labels p) (config p)
    (uid_prefix_counter p) (components p) (page_undo_stack p)
    (page_redo_stack p) (changed p) (editor_code p) (config_save_needed p).

Definition set_locals (v : Locals) (p : Page) : Page :=
  mkPage (filename p) (code p) v (last_good_locals p) (error p) (model p)
    (page_names p) (name_finder p) (default_labels p) (config p)
    (uid_prefix_counter p) (components p) (page_undo_stack p)
    (page_redo_stack p) (changed p) (editor_code p) (config_save_needed p).

Definition set_last_good_locals (v : option Locals) (p : Page) : Page :=
  mkPage (filename p) (code p) (locals p) v (error p) (model p)
    (page_names p) (name_finder p) (default_labels p) (config p)
    (uid_prefix_counter p) (components p) (page_undo_stack p)
    (page_redo_stack p) (changed p) (editor_code p) (config_save_needed p).

Definition set_error (v : option (string * nat)) (p : Page) : Page :=
  mkPage (filename p) (code p) (locals p) (last_good_locals p) v (model p)
    (page_names p) (name_finder p) (default_labels p) (config p)
    (uid_prefix_counter p) (components p) (page_undo_stack p)
    (page_redo_stack p) (changed p) (editor_code p) (config_save_needed p).

Definition set_model (v : PyVal) (p : Page) : Page :=
  mkPage (filename p) (code p) (locals p) (last_good_locals p) (error p) v
    (page_names p) (name_finder p) (default_labels p) (config p)
    (uid_prefix_counter p) (components p) (page_undo_stack p)
    (page_redo_stack p) (changed p) (editor_code p) (config_save_needed p).

Definition set_name_finder (v : option NameFinder) (p : Page) : Page :=
  mkPage (filename p) (code p) (locals p) (last_good_locals p) (error p)
    (model p) (page_names p) v (default_labels p) (config p)
    (uid_prefix_counter p) (components p) (page_undo_stack p)
    (page_redo_stack p) (changed p) (editor_code p) (config_save_needed p).

Definition set_default_labels (v : NameTable) (p : Page) : Page :=
  mkPage (filename p) (code p) (locals p) (last_good_locals p) (error p)
    (model p) (page_names p) (name_finder p) v (config p)
    (uid_prefix_counter p) (components p) (page_undo_stack p)
    (page_redo_stack p) (changed p) (editor_code p) (config_save_needed p).

Definition set_config (v : gmap Key ConfigEntry) (p : Page) : Page :=
  mkPage (filename p) (code p) (locals p) (last_good_locals p) (error p)
    (model p) (page_names p) (name_finder p) (default_labels p) v
    (uid_prefix_counter p) (components p) (page_undo_stack p)
    (page_redo_stack p) (changed p) (editor_code p) (config_save_needed p).

Definition set_uid_prefix_counter (v : gmap string nat) (p : Page) : Page :=
  mkPage (filename p) (code p) (locals p) (last_good_locals p) (error p)
    (model p) (page_names p) (name_finder p) (default_labels p) (config p)
    v (components p) (page_undo_stack p)
    (page_redo_stack p) (changed p) (editor_code p) (config_save_needed p).

Definition set_editor_code (v : option string) (p : Page) : Page :=
  mkPage (filename p) (code p) (locals p) (last_good_locals p) (error p)
    (model p) (page_names p) (name_finder p) (default_labels p) (config p)
    (uid_prefix_counter p) (components p) (page_undo_stack p)
    (page_redo_stack p) (changed p) v (config_save_needed p).

Definition set_config_save_needed (v : bool) (p : Page) : Page :=
  mkPage (filename p) (code p) (locals p) (last_good_locals p) (error p)
    (model p) (page_names p) (name_finder p) (default_labels p) (config p)
    (uid_prefix_counter p) (components p) (page_undo_stack p)
    (page_redo_stack p) (changed p) (editor_code p) v.

Definition set_layout (v : option PyVal) (g : NetGraph) : NetGraph :=
  mkNetGraph v (to_be_expanded g) (networks_to_search g) (undo_stack g)
    (redo_stack g) (uids g) (parents g) (to_be_sent g) (page g) (lists g)
    (calls g) (written g) (random_draws g).

Definition set_to_be_expanded (v : list PyVal) (g : NetGraph) : NetGraph :=
  mkNetGraph (layout g) v (networks_to_search g) (undo_stack g)
    (redo_stack g) (uids g) (parents g) (to_be_sent g) (page g) (lists g)
    (calls g) (written g) (random_draws g).

Definition set_networks_to_search (v : list PyVal) (g : NetGraph) : NetGraph :=
  mkNetGraph (layout g) (to_be_expanded g) v (undo_stack g)
    (redo_stack g) (uids g) (parents g) (to_be_sent g) (page g) (lists g)
    (calls g) (written g) (random_draws g).

Definition set_uids (v : gmap string PyVal) (g : NetGraph) : NetGraph :=
  mkNetGraph (layout g) (to_be_expanded g) (networks_to_search g)
    (undo_stack g) (redo_stack g) v (parents g) (to_be_sent g) (page g)
    (lists g) (calls g) (written g) (random_draws g).

Definition set_parents (v : gmap string string) (g : NetGraph) : NetGraph :=
  mkNetGraph (layout g) (to_be_expanded g) (networks_to_search g)
    (undo_stack g) (redo_stack g) (uids g) v (to_be_sent g) (page g)
    (lists g) (calls g) (written g) (random_draws g).

Definition set_to_be_sent (v : list Event) (g : NetGraph) : NetGraph :=
  mkNetGraph (layout g) (to_be_expanded g) (networks_to_search g)
    (undo_stack g) (redo_stack g) (uids g) (parents g) v (page g)
    (lists g) (calls g) (written g) (random_draws g).

Definition set_page (v : Page) (g : NetGraph) : NetGraph :=
  mkNetGraph (layout g) (to_be_expanded g) (networks_to_search g)
    (undo_stack g) (redo_stack g) (uids g) (parents g) (to_be_sent g) v
    (lists g) (calls g) (written g) (random_draws g).

Definition set_lists (v : gmap Ref (list Group)) (g : NetGraph) : NetGraph :=
  mkNetGraph (layout g) (to_be_expanded g) (networks_to_search g)
    (undo_stack g) (redo_stack g) (uids g) (parents g) (to_be_sent g)
    (page g) v (calls g) (written g) (random_draws g).

Definition set_calls (v : list Call) (g : NetGraph) : NetGraph :=
  mkNetGraph (layout g) (to_be_expanded g) (networks_to_search g)
    (undo_stack g) (redo_stack g) (uids g) (parents g) (to_be_sent g)
    (page g) (lists g) v (written g) (random_draws g).

Definition set_written (v : list Message) (g : NetGraph) : NetGraph :=
  mkNetGraph (layout g) (to_be_expanded g) (networks_to_search g)
    (undo_stack g) (redo_stack g) (uids g) (parents g) (to_be_sent g)
    (page g) (lists g) (calls g) v (random_draws g).

Definition set_random_draws (v : nat) (g : NetGraph) : NetGraph :=
  mkNetGraph (layout g) (to_be_expanded g) (networks_to_search g)
    (undo_stack g) (redo_stack g) (uids g) (parents g) (to_be_sent g)
    (page g) (lists g) (calls g) (written g) v.

(** Methods of [NetGraph]: computations over its state. *)
Definition M (A : Type) : Type := NetGraph → Outcome NetGraph A.

Definition ret {A} (a : A) : M A := fun g => Ok a g.

Definition bind {A B} (m : M A) (k : A → M B) : M B :=
  fun g =>
    match m g with
    | Ok a g' => k a g'
    | Raise e g' => Raise e g'
    | Diverge => Diverge
    end.

Definition raise {A} (e : Exn) : M A := fun g => Raise e g.
Definition get : M NetGraph := fun g => Ok g g.
Definition modify (f : NetGraph → NetGraph) : M unit := fun g => Ok tt (f g).

Notation "'do' x <- m ; k" := (bind m (fun x => k))
  (at level 10, x name, m at level 100, k at level 200,
   format "'[v' 'do'  x  <-  m ; '/' k ']'").
Notation "m ;;; k" := (bind m (fun _ => k))
  (at level 100, k at level 200, right associativity).

(** [for x in l: acc = body acc x], for loops that carry local variables. *)
Fixpoint fold_each {A B} (l : list A) (body : B → A → M B) (acc : B) : M B :=
  match l with
  | [] => ret acc
  | x :: l' => do acc' <- body acc x; fold_each l' body acc'
  end.

(** ** What the module takes from elsewhere *)

(** How a run of the script inside [ExecutionEnvironment] ends: without
    an exception, or with one of the three classes that [execute] catches.
    A run that ends with an exception outside [Exception] (SystemExit,
    KeyboardInterrupt), which [execute] lets through, has no case here:
    what is stated of [execute] is stated of the runs it catches. *)
Inductive ExecOutcome :=
| ExecDone
| StartedSimulatorException (line : nat)
| StartedGUIException (line : nat)
| ExecException (traceback : string) (line : nat).

Class Externals := {
  (** [compile] and [exec] of the script in the given dictionary: the
      dictionary afterwards, the captured stdout and how the run ended. *)
  py_exec : string → Locals → Locals * string * ExecOutcome;
  (** [eval(expr, locals)]; [None] when it raises. *)
  py_eval : string → Locals → option PyVal;
  (** [open(filename).read()]; [None] when it raises. *)
  read_file : option string → option string;
  (** The exception that [open(filename).read()] raises, for a file for
      which [read_file] is [None]: IOError for a file that cannot be
      opened, another class for one that cannot be decoded. *)
  read_raises : option string → Exn;
  (** [Value.default_output(obj)]. *)
  Value_default_output : PyVal → PyVal;
  (** [SpaPlot.applicable_targets(obj)]. *)
  SpaPlot_applicable_targets : PyVal → list string;
  (** [self.page.names.uid(obj)] and [self.page.names.uid(obj, names=t)]. *)
  page_names_uid : option NameTable → PyVal → string;
  (** [self.page.load_config()]. *)
  load_config : Page → gmap Key ConfigEntry;
  (** The entry [config[obj]] of an object the configuration has not seen. *)
  config_default : ConfigEntry;
  (** The n-th value drawn by [random.uniform(0, 1)]. *)
  random_uniform : nat → Q;
  (** Lines 594-703 of [_reload]: the pass over [self.page.components],
      given the locals of the pass ([old_locals], [old_default_labels],
      [removed_uids], [rebuilt_objects]).  It works through the methods of
      the components and of the page, which are not in the module. *)
  sync_components :
    option Locals → NameTable → gmap Key string → list string →
    NetGraph → Outcome NetGraph unit
}.

Section Methods.
Context `{Externals}.

(** [self.page.config[obj]]. *)
Definition config_get (p : Page) (obj : PyVal) : ConfigEntry :=
  default config_default (config p !! py_key obj).

(** ** get_extra_info *)

Definition passthrough_output (o : option Output) : bool :=
  match o with
  | None => true
  | Some out =>
      match output_kind out with
      | OverriddenOutput true => true
      | _ => false
      end
  end.

Definition html_output (o : option Output) : bool :=
  match o with
  | None => false
  | Some out => callable out && has_nengo_html out
  end.

Definition get_extra_info (obj : PyVal) : Info :=
  let info : Info :=
    match obj with
    | Node _ _ output size_out =>
        let info : Info := ∅ in
        let info := if passthrough_output output
                    then <["passthrough" := IBool true]> info else info in
        let info := if html_output output
                    then <["html" := IBool true]> info else info in
        <["dimensions" := IInt size_out]> info
    | Ensemble _ _ size_out n_neurons =>
        <["n_neurons" := IInt n_neurons]> (<["dimensions" := IInt size_out]> ∅)
    | _ =>
        if is_none (Value_default_output obj) then ∅
        else <["default_output" := IBool true]> ∅
    end in
  <["sp_targets" := IList (SpaPlot_applicable_targets obj)]> info.

(** ** PageNetwork.execute *)

Definition newline : string := String (ascii_of_nat 10) EmptyString.
Definition quote : string := String (ascii_of_nat 34) EmptyString.

(** [len(code.split('\n'))]. *)
Fixpoint count_lines (code : string) : nat :=
  match code with
  | EmptyString => 1
  | String c s => (if Ascii.eqb c (ascii_of_nat 10) then 1 else 0) + count_lines s
  end%nat.

Definition simulator_warning (line : nat) : string :=
  "Warning: Simulators cannot be manually run inside nengo_gui (line "
  +:+ pretty line +:+ ")" +:+ newline.

Definition gui_warning (line : nat) : string :=
  "Warning: nengo_gui cannot be run inside nengo_gui (line "
  +:+ pretty line +:+ ")" +:+ newline.

Definition missing_model : string :=
  "Must declare a nengo.Network called " +:+ quote +:+ "model" +:+ quote.

(** [self._set_error(output=..., line=...)], for the function that
    [attach] installs (the one [__init__] installs raises): the report
    that [page.error] then holds; [None] after
    [_set_error(output=None, line=None)]. *)
Definition _set_error (report : option (string * nat)) : M unit :=
  modify (fun g => set_page (set_error report (page g)) g).

(** The dictionary the script runs in: [{'__file__': self.filename}]. *)
Definition initial_locals (g : NetGraph) : Locals :=
  {["__file__" := match filename (page g) with
                  | Some f => PyStr f
                  | None => PyNone
                  end]}.

Definition execute (code : string) : M string :=
  modify (fun g => set_page (set_locals (initial_locals g) (page g)) g) ;;;
  modify (fun g => set_page (set_code (Some code) (page g)) g) ;;;
  _set_error None ;;;
  do g <- get;
  let '(locals', out, outcome) := py_exec code (locals (page g)) in
  modify (fun g => set_page (set_locals locals' (page g)) g) ;;;
  do r <-
    match outcome with
    | ExecDone => ret (out, false)
    | StartedSimulatorException line =>
        ret (out +:+ simulator_warning line, false)
    | StartedGUIException line => ret (out +:+ gui_warning line, false)
    | ExecException traceback line =>
        _set_error (Some (traceback, line)) ;;; ret (out, true)
    end;
  let '(stdout, errored) := r in
  let obj := default PyNone (locals' !! "model") in
  modify (fun g => set_page (set_model obj (page g)) g) ;;;
  do errored <-
    (if isinstance obj ClsNetwork then ret errored
     else
       (if errored then ret tt
        else _set_error (Some (missing_model, count_lines code))) ;;;
       modify (fun g => set_page (set_model PyNone (page g)) g) ;;;
       ret true);
  (if errored then ret tt
   else modify (fun g =>
          set_page (set_last_good_locals (Some (locals (page g))) (page g)) g))
  ;;;
  ret stdout.

(** ** get_parents *)

(** Number of networks in a network and below it; any other value counts
    for one entry of the queue. *)
Fixpoint net_size (v : PyVal) : nat :=
  match v with
  | Network _ _ _ _ nets _ =>
      S ((fix sizes (l : list PyVal) : nat :=
            match l with
            | [] => 0
            | x :: l' => net_size x + sizes l'
            end) nets)
  | _ => 1
  end%nat.

Fixpoint queue_size (q : list PyVal) : nat :=
  match q with
  | [] => 0
  | x :: q' => net_size x + queue_size q'
  end%nat.

(** [for n in members: self.parents[uid(n)] = net_uid]. *)
Definition record_parents (default_labels : option NameTable)
    (net_uid : string) (members : list PyVal) (ps : gmap string string) :
    gmap string string :=
  foldl (fun ps n => <[page_names_uid default_labels n := net_uid]> ps)
        ps members.

(** The first loop of [get_parents]: [while uid not in self.parents].
    Every turn pops one network and queues its sub-networks, so
    [queue_size] of the queue bounds the number of turns. *)
Fixpoint search_networks (fuel : nat) (uid : string)
    (default_labels : option NameTable) : M unit :=
  fun g =>
    match parents g !! uid with
    | Some _ => Ok tt g
    | None =>
        match networks_to_search g with
        | [] => Raise IndexError g
        | net :: rest =>
            match fuel with
            | O => Diverge
            | S fuel' =>
                let g := set_networks_to_search rest g in
                let net_uid := page_names_uid default_labels net in
                match net with
                | Network _ _ ensembles nodes networks _ =>
                    let ps := record_parents default_labels net_uid nodes
                                (parents g) in
                    let ps := record_parents default_labels net_uid ensembles
                                ps in
                    let ps := record_parents default_labels net_uid networks
                                ps in
                    search_networks fuel' uid default_labels
                      (set_networks_to_search
                         (networks_to_search g ++ networks)
                         (set_parents ps g))
                | _ => Raise AttributeError g
                end
            end
        end
    end.

(** The second loop: [while parents[-1] in self.parents]; the result is the
    list of the uids appended after [last].  The walk visits keys of the
    dictionary, so more turns than it has keys means that it cycles. *)
Fixpoint ancestors (fuel : nat) (ps : gmap string string) (last : string) :
    option (list string) :=
  match ps !! last with
  | None => Some []
  | Some parent =>
      match fuel with
      | O => None
      | S fuel' => cons parent <$> ancestors fuel' ps parent
      end
  end.

Definition get_parents (uid : string) (default_labels : option NameTable) :
    M (list string) :=
  do g <- get;
  search_networks (queue_size (networks_to_search g)) uid default_labels ;;;
  do g <- get;
  match ancestors (size (parents g)) (parents g) uid with
  | Some l => ret (uid :: l)
  | None => fun _ => Diverge
  end.

(** ** _reload_update_item *)

Definition attr_pre_obj (v : PyVal) : option PyVal :=
  match v with Connection _ _ pre _ _ => Some pre | _ => None end.

Definition attr_post_obj (v : PyVal) : option PyVal :=
  match v with Connection _ _ _ post _ => Some post | _ => None end.

Definition attr_post (v : PyVal) : option PyVal :=
  match v with Connection _ _ _ _ post => Some post | _ => None end.

(** [if isinstance(x, Neurons): x = x.ensemble]. *)
Definition neurons_to_ensemble (v : PyVal) : PyVal :=
  match v with Neurons _ e => e | _ => v end.

(** [if isinstance(x, LearningRule): x = x.connection.post_obj]; [None]
    when the attribute is missing. *)
Definition rule_to_post_obj (v : PyVal) : option PyVal :=
  match v with LearningRule _ c => attr_post_obj c | _ => Some v end.

(** The endpoints of a connection as [_reload_update_item] compares them. *)
Definition normalized_pre (conn : PyVal) : option PyVal :=
  neurons_to_ensemble <$> attr_pre_obj conn.

Definition normalized_post (conn : PyVal) : option PyVal :=
  post ← attr_post_obj conn;
  neurons_to_ensemble <$> rule_to_post_obj post.

Definition lift_exn {A} (r : Exn + A) : M A :=
  match r with inl e => raise e | inr a => ret a end.

Definition lift_attr {A} (r : option A) : M A :=
  match r with None => raise AttributeError | Some a => ret a end.

Definition send (e : Event) : M unit :=
  modify (fun g => set_to_be_sent (to_be_sent g ++ [e]) g).

Definition is_node_ens_net (v : PyVal) : bool :=
  isinstance v ClsNode || isinstance v ClsEnsemble || isinstance v ClsNetwork.

Definition _reload_update_item (uid : string) (old_item new_item : PyVal)
    (new_name_finder : NameFinder) : M bool :=
  if is_node_ens_net old_item then
    do g <- get;
    do old_label <- lift_exn (NameFinder_label (page_names (page g)) old_item);
    do new_label <- lift_exn (NameFinder_label new_name_finder new_item);
    do changed <-
      (if decide (old_label ≠ new_label)
       then send (EvRename uid new_label) ;;; ret true
       else ret false);
    if isinstance old_item ClsNetwork then
      if expanded (config_get (page g) old_item)
      then modify (fun g =>
             set_to_be_expanded (to_be_expanded g ++ [new_item]) g) ;;;
           ret true
      else ret changed
    else ret changed
  else if isinstance old_item ClsConnection then
    do old_pre <- lift_attr (attr_pre_obj old_item);
    do old_post <- lift_attr (attr_post_obj old_item);
    do new_pre <- lift_attr (attr_pre_obj new_item);
    do new_post <- lift_attr (attr_post_obj new_item);
    let old_pre := neurons_to_ensemble old_pre in
    do old_post <- lift_attr (rule_to_post_obj old_post);
    let old_post := neurons_to_ensemble old_post in
    let new_pre := neurons_to_ensemble new_pre in
    do new_post <- lift_attr (rule_to_post_obj new_post);
    let new_post := neurons_to_ensemble new_post in
    let old_pre := page_names_uid None old_pre in
    let old_post := page_names_uid None old_post in
    let new_pre := page_names_uid (Some (names new_name_finder)) new_pre in
    let new_post := page_names_uid (Some (names new_name_finder)) new_post in
    if decide (new_pre ≠ old_pre ∨ new_post ≠ old_post) then
      do labels <- lift_exn (NameFinder_known_name new_name_finder);
      do pres <- get_parents new_pre (Some labels);
      do labels <- lift_exn (NameFinder_known_name new_name_finder);
      do posts <- get_parents new_post (Some labels);
      send (EvReconnect uid (removelast pres) (removelast posts)) ;;;
      ret true
    else ret false
  else ret false.

(** ** The reconciliation loop of _reload (lines 534-583) *)

(** The local variables of [_reload] that the loop updates. *)
Record ReloadLocals := mkReloadLocals {
  removed_uids : gmap Key string;
  rebuilt_objects : list string
}.

(** The loop over the four classes that sets [same_class]. *)
Definition same_class (new_item old_item : PyVal) : bool :=
  existsb (fun cls => isinstance new_item cls && isinstance old_item cls)
          [ClsEnsemble; ClsNode; ClsNetwork; ClsConnection].

(** [new_item] after the [eval] and the check of its uid; the lookup
    [name_finder[new_item]] raises KeyError for an item without a name. *)
Definition resolve_item (name_finder : NameFinder) (uid : string)
    (new_locals : Locals) : option PyVal :=
  let new_item := default PyNone (py_eval uid new_locals) in
  new_uid ← NameFinder_getitem name_finder new_item;
  Some (if decide (new_uid ≠ uid) then PyNone else new_item).

Definition keep_object (new_item old_item : PyVal) : bool :=
  if is_none new_item then false
  else if negb (same_class new_item old_item) then false
  else if decide (get_extra_info new_item ≠ get_extra_info old_item)
       then false
  else true.

Definition del_uid (uid : string) : M unit :=
  fun g =>
    match uids g !! uid with
    | None => Raise KeyError g
    | Some _ => Ok tt (set_uids (delete uid (uids g)) g)
    end.

Definition reload_item (name_finder : NameFinder) (vars : ReloadLocals)
    (item : string * PyVal) : M ReloadLocals :=
  let '(uid, old_item) := item in
  do g <- get;
  match resolve_item name_finder uid (locals (page g)) with
  | None => raise KeyError
  | Some new_item =>
      if negb (keep_object new_item old_item) then
        send (EvRemove uid) ;;;
        del_uid uid ;;;
        ret (mkReloadLocals (<[py_key old_item := uid]> (removed_uids vars))
                            (rebuilt_objects vars ++ [uid]))
      else
        do changed <- _reload_update_item uid old_item new_item name_finder;
        let vars := if changed : bool
                    then mkReloadLocals (removed_uids vars)
                                        (rebuilt_objects vars ++ [uid])
                    else vars in
        modify (fun g => set_uids (<[uid := new_item]> (uids g)) g) ;;;
        ret vars
  end.

(** [for uid, old_item in iteritems(dict(self.uids))]: the loop runs over
    a copy of the dictionary taken before the first turn. *)
Definition reload_loop (name_finder : NameFinder) (items : list (string * PyVal))
    : M ReloadLocals :=
  fold_each items (reload_item name_finder) (mkReloadLocals ∅ []).

(** ** _reload *)

(** Lines 519-703: what [_reload] does once the script has run.  The
    call of the constructor at line 522 raises, so that the lines below
    it are not reached; they are embedded as they are written. *)
Definition reconcile (text : string) (old_locals : option Locals)
    (old_default_labels : NameTable) : M unit :=
  do g <- get;
  match error (page g) with
  | Some _ => ret tt
  | None =>
      do name_finder <-
        lift_exn (NameFinder_new2 (locals (page g)) (model (page g)));
      modify (set_networks_to_search [model (page g)]) ;;;
      modify (set_parents ∅) ;;;
      do vars <- reload_loop name_finder (map_to_list (uids g));
      modify (fun g =>
        set_to_be_expanded (to_be_expanded g ++ [model (page g)]) g) ;;;
      modify (fun g =>
        set_page (set_name_finder (Some name_finder) (page g)) g) ;;;
      do labels <- lift_exn (NameFinder_known_name name_finder);
      modify (fun g => set_page (set_default_labels labels (page g)) g) ;;;
      modify (fun g =>
        set_page (set_config (load_config (page g)) (page g)) g) ;;;
      modify (fun g => set_page (set_uid_prefix_counter ∅ (page g)) g) ;;;
      modify (fun g => set_layout (Some (model (page g))) g) ;;;
      modify (fun g => set_page (set_code (Some text) (page g)) g) ;;;
      sync_components old_locals old_default_labels
        (removed_uids vars) (rebuilt_objects vars)
  end.

Definition _reload (code_arg : option string) : M unit :=
  do g <- get;
  let old_locals := last_good_locals (page g) in
  let old_default_labels := default_labels (page g) in
  do text <-
    match code_arg with
    | None =>
        match read_file (filename (page g)) with
        | None => raise (read_raises (filename (page g)))
        | Some text =>
            if decide (code (page g) = Some text) then ret None
            else
              modify (fun g =>
                set_page (set_editor_code (Some text) (page g)) g) ;;;
              ret (Some text)
        end
    | Some text => ret (Some text)
    end;
  match text with
  | None => ret tt
  | Some text =>
      execute text ;;;
      reconcile text old_locals old_default_labels
  end.

(** ** The command log *)

(** The list object behind a reference. *)
Definition list_at (g : NetGraph) (r : Ref) : list Group := lists g !!! r.

(** [l.append(x)]. *)
Definition list_append (r : Ref) (x : Group) : M unit :=
  modify (fun g => set_lists (<[r := list_at g r ++ [x]]> (lists g)) g).

(** [del l[:]]. *)
Definition list_clear (r : Ref) : M unit :=
  modify (fun g => set_lists (<[r := []]> (lists g)) g).

(** [l.pop()]: removes and returns the last element. *)
Definition list_pop (r : Ref) : M Group :=
  fun g =>
    match rev (list_at g r) with
    | [] => Raise IndexError g
    | x :: l => Ok x (set_lists (<[r := rev l]> (lists g)) g)
    end.

(** A call of a method of an action object; the [user_action] classes are
    not part of this module, the call is recorded. *)
Definition call (c : Call) : M unit :=
  modify (fun g => set_calls (calls g ++ [c]) g).

(** The chain of tests on the command's [action] string. *)
Definition action_class_of (action : string) : ActionClass :=
  if String.eqb action "expand" then ExpandCollapse true
  else if String.eqb action "collapse" then ExpandCollapse false
  else if String.eqb action "create_graph" then CreateGraph
  else if String.eqb action "pos" then Pos
  else if String.eqb action "size" then Size
  else if String.eqb action "pos_size" then PosSize
  else if String.eqb action "feedforward_layout" then FeedforwardLayout
  else if String.eqb action "config" then ConfigAction
  else ActionBase.

(** The handler bound to ["netgraph.action"]. *)
Definition action (action : string) (kwargs : list (string * string)) :
    M unit :=
  let act := mkAction (action_class_of action) kwargs in
  call (CallInit act) ;;;
  do g <- get;
  list_append (undo_stack g) [act] ;;;
  list_clear (redo_stack g).

Definition undo : M unit :=
  do g <- get;
  match list_at g (page_undo_stack (page g)) with
  | [] => ret tt
  | _ :: _ =>
      do action <- list_pop (page_undo_stack (page g));
      do re <- fold_each action
                 (fun re act => call (CallUndo act) ;;; ret (act :: re)) [];
      list_append (page_redo_stack (page g)) re
  end.

Definition redo : M unit :=
  do g <- get;
  match list_at g (page_redo_stack (page g)) with
  | [] => ret tt
  | _ :: _ =>
      do action <- list_pop (page_redo_stack (page g));
      do un <- fold_each action
                 (fun un act => call (CallApply act) ;;; ret (act :: un)) [];
      list_append (page_undo_stack (page g)) un
  end.

(** The handler bound to ["netgraph.undo"]. *)
Definition undo_command (flag : string) : M unit :=
  if String.eqb flag "1" then undo else redo.

(** ** act_expand *)

Definition set_expanded (b : bool) (c : ConfigEntry) : ConfigEntry :=
  mkConfigEntry (pos c) (cfg_size c) b (has_layout c).

Definition set_pos (v : Q * Q) (c : ConfigEntry) : ConfigEntry :=
  mkConfigEntry (Some v) (cfg_size c) (expanded c) (has_layout c).

Definition set_cfg_size (v : Q * Q) (c : ConfigEntry) : ConfigEntry :=
  mkConfigEntry (pos c) (Some v) (expanded c) (has_layout c).

(** [self.page.config[obj].attr = value]. *)
Definition config_update (obj : PyVal) (f : ConfigEntry → ConfigEntry) :
    M unit :=
  modify (fun g =>
    set_page (set_config (<[py_key obj := f (config_get (page g) obj)]>
                            (config (page g))) (page g)) g).

(** [self.modified_config()]: the page flags its configuration as to be
    saved. *)
Definition modified_config : M unit :=
  modify (fun g => set_page (set_config_save_needed true (page g)) g).

Definition act_expand (uid : string) : M unit :=
  do g <- get;
  match uids g !! uid with
  | None => raise KeyError
  | Some net =>
      modify (fun g => set_to_be_expanded (to_be_expanded g ++ [net]) g) ;;;
      config_update net (set_expanded true) ;;;
      modified_config
  end.

(** ** create_object and create_connection *)

(** [client.write_text(json.dumps(info))]. *)
Definition write_text (m : Message) : M unit :=
  modify (fun g => set_written (written g ++ [m]) g).

Definition create_object (obj : PyVal) (type : string)
    (parent : option string) : M unit :=
  do g <- get;
  let uid := page_names_uid None obj in
  match uids g !! uid with
  | Some _ => ret tt
  | None =>
      do pos <-
        match pos (config_get (page g) obj) with
        | Some p => ret p
        | None =>
            let n := random_draws g in
            let p := (random_uniform n, random_uniform (S n)) in
            modify (set_random_draws (S (S n))) ;;;
            config_update obj (set_pos p) ;;;
            ret p
        end;
      do g <- get;
      do size <-
        match cfg_size (config_get (page g) obj) with
        | Some s => ret s
        | None =>
            let s := (1 # 10, 1 # 10)%Q in
            config_update obj (set_cfg_size s) ;;;
            ret s
        end;
      do g <- get;
      do label <- lift_exn (NameFinder_label (page_names (page g)) obj);
      modify (fun g => set_uids (<[uid := obj]> (uids g)) g) ;;;
      do g <- get;
      let expanded := if String.eqb type "net"
                      then Some (expanded (config_get (page g) obj))
                      else None in
      write_text (MsgObject uid label pos type size parent expanded
                            (get_extra_info obj))
  end.

(** [post = post.connection.post], then [post.obj] for an [ObjView]. *)
Definition rule_to_post (v : PyVal) : option PyVal :=
  match v with
  | LearningRule _ c =>
      post ← attr_post c;
      Some (match post with ObjView _ o => o | _ => post end)
  | _ => Some v
  end.

Definition create_connection (conn : PyVal) (parent : option string) :
    M unit :=
  do g <- get;
  let uid := page_names_uid None conn in
  match uids g !! uid with
  | Some _ => ret tt
  | None =>
      do pre <- lift_attr (attr_pre_obj conn);
      let pre := neurons_to_ensemble pre in
      do post <- lift_attr (attr_post_obj conn);
      do post <- lift_attr (rule_to_post post);
      let post := neurons_to_ensemble post in
      let pre := page_names_uid None pre in
      let post := page_names_uid None post in
      modify (fun g => set_uids (<[uid := conn]> (uids g)) g) ;;;
      do pres <- get_parents pre None;
      do posts <- get_parents post None;
      write_text (MsgConnection uid (removelast pres) (removelast posts)
                                parent)
  end.

End Methods.

(** * More of the module

    The rest of [NameFinder] ([add], [update], [_parse_network]) and the
    [NetGraph] methods [act_collapse], [remove_uids], [act_pan],
    [act_zoom] and [expand_network]. *)

(** An element of a list that is an attribute of a network: an object
    that can be a key of a dictionary, or one that cannot (a list, a
    dictionary, a set), for which a lookup raises TypeError. *)
Inductive Elem :=
| Hashable (v : PyVal)
| Unhashable.

(** The value of an attribute of a network that [_parse_network] looks
    at: a list, or any other value. *)
Inductive Attr :=
| AttrList (l : list Elem)
| AttrValue (v : PyVal).

(** One entry of the dictionary that [make_layout] returns. *)
Record LayoutBox := mkLayoutBox {
  box_x : Q;
  box_y : Q;
  box_h : Q;
  box_w : Q
}.

Class Introspection := {
  (** [[(a, getattr(net, a)) for a in dir(net)]]. *)
  dir_attrs : PyVal → list (string * Attr);
  (** [self.layout.make_layout(network)], for the layout built for the
      given model: the items of the dictionary it returns. *)
  make_layout : PyVal → PyVal → list (PyVal * LayoutBox)
}.

Section NameFinderMethods.
Context `{Introspection}.

(** ** NameFinder.add *)

(** ['%s%d' % (self.autoprefix, self.autocount)]. *)
Definition auto_name (prefix : string) (count : nat) : string :=
  prefix +:+ pretty count.

(** [list(self.names.values())]. *)
Definition used_names (nf : NameFinder) : list string :=
  (map_to_list (names nf)).*2.

(** The loop [while name in used_names: self.autocount += 1]: the count
    it stops at.  Names of different counts differ, so it takes at most as
    many turns as there are used names. *)
Fixpoint first_unused (fuel : nat) (prefix : string) (used : list string)
    (count : nat) : option nat :=
  if decide (auto_name prefix count ∈ used) then
    match fuel with
    | O => None
    | S fuel' => first_unused fuel' prefix used (S count)
    end
  else Some count.

Definition set_name (obj : PyVal) (name : string) (nf : NameFinder) :
    NameFinder :=
  mkNameFinder (<[py_key obj := name]> (names nf)) (autoprefix nf)
               (autocount nf).

(** [add]: the name returned and the name finder afterwards; [None] if
    the loop did not end. *)
Definition NameFinder_add (nf : NameFinder) (obj : PyVal) :
    option (string * NameFinder) :=
  let used := used_names nf in
  count ← first_unused (length used) (autoprefix nf) used (autocount nf);
  let name := auto_name (autoprefix nf) count in
  Some (name, mkNameFinder (<[py_key obj := name]> (names nf))
                           (autoprefix nf) count).

(** ** NameFinder._parse_network and NameFinder.update *)

Definition TYPELISTS : list string :=
  ["ensembles"; "nodes"; "connections"; "networks"].

Definition NETIGNORE : list string :=
  ["all_ensembles"; "all_nodes"; "all_connections"; "all_networks";
   "all_objects"; "all_probes"] ++ TYPELISTS.

(** [s.startswith('_')]. *)
Definition is_private (s : string) : bool := String.prefix "_" s.

(** [isinstance(attr, self.CLASSES)]. *)
Definition in_CLASSES (v : PyVal) : bool :=
  isinstance v ClsNode || isinstance v ClsEnsemble ||
  isinstance v ClsNetwork || isinstance v ClsConnection.

(** ['%s.%s[%d]' % (net_name, attr, i)] and ['%s.%s' % (net_name, attr)]. *)
Definition indexed_name (net_name attr : string) (i : nat) : string :=
  net_name +:+ "." +:+ attr +:+ "[" +:+ pretty i +:+ "]".

Definition attr_name (net_name attr : string) : string :=
  net_name +:+ "." +:+ attr.

(** [if obj not in self.names: self.names[obj] = name]. *)
Definition name_if_absent (obj : PyVal) (name : string) (nf : NameFinder) :
    NameFinder :=
  match names nf !! py_key obj with
  | Some _ => nf
  | None => set_name obj name nf
  end.

(** [for i, obj in enumerate(l)], from index [i] on, over one of the
    four lists of a network, which hold nengo objects. *)
Fixpoint name_list (net_name attr : string) (i : nat) (l : list PyVal)
    (nf : NameFinder) : NameFinder :=
  match l with
  | [] => nf
  | obj :: l' =>
      name_list net_name attr (S i) l'
        (name_if_absent obj (indexed_name net_name attr i) nf)
  end.

(** The same loop over a list found by [dir]: the test
    [obj not in self.names] raises TypeError at an element that cannot
    be hashed; the names given before it stay. *)
Fixpoint name_elems (net_name attr : string) (i : nat) (l : list Elem)
    (nf : NameFinder) : Outcome NameFinder unit :=
  match l with
  | [] => Ok tt nf
  | Unhashable :: _ => Raise TypeError nf
  | Hashable obj :: l' =>
      name_elems net_name attr (S i) l'
        (name_if_absent obj (indexed_name net_name attr i) nf)
  end.

(** One turn of the loop over [dir(net)]. *)
Definition name_attr (net_name : string) (nf : NameFinder)
    (a : string * Attr) : Outcome NameFinder unit :=
  if is_private a.1 || bool_decide (a.1 ∈ NETIGNORE) then Ok tt nf
  else
    match a.2 with
    | AttrList l => name_elems net_name a.1 0 l nf
    | AttrValue v =>
        Ok tt (if in_CLASSES v
               then name_if_absent v (attr_name net_name a.1) nf
               else nf)
    end.

(** The loop over [dir(net)]. *)
Fixpoint name_attrs (net_name : string) (attrs : list (string * Attr))
    (nf : NameFinder) : Outcome NameFinder unit :=
  match attrs with
  | [] => Ok tt nf
  | a :: attrs' =>
      match name_attr net_name nf a with
      | Ok _ nf' => name_attrs net_name attrs' nf'
      | r => r
      end
  end.

(** The four lists of a network in the order of [TYPELISTS]; [None] for
    a value that has no such attributes. *)
Definition typelists (net : PyVal) : option (list (string * list PyVal)) :=
  match net with
  | Network _ _ ensembles nodes networks connections =>
      Some [("ensembles", ensembles); ("nodes", nodes);
            ("connections", connections); ("networks", networks)]
  | _ => None
  end.

Fixpoint _parse_network (net : PyVal) (nf : NameFinder) :
    Outcome NameFinder unit :=
  let net_name := default "None" (names nf !! py_key net) in
  match name_attrs net_name (dir_attrs net) nf with
  | Ok _ nf =>
      match net with
      | Network _ _ ensembles nodes networks connections =>
          let nf := name_list net_name "ensembles" 0 ensembles nf in
          let nf := name_list net_name "nodes" 0 nodes nf in
          let nf := name_list net_name "connections" 0 connections nf in
          let nf := name_list net_name "networks" 0 networks nf in
          (fix parse_all (l : list PyVal) (nf : NameFinder) :
               Outcome NameFinder unit :=
             match l with
             | [] => Ok tt nf
             | n :: l' =>
                 match _parse_network n nf with
                 | Ok _ nf' => parse_all l' nf'
                 | r => r
                 end
             end) networks nf
      | _ => Raise AttributeError nf
      end
  | r => r
  end.

(** [for net in nets: self._parse_network(net)]. *)
Fixpoint parse_networks (nets : list PyVal) (nf : NameFinder) :
    Outcome NameFinder unit :=
  match nets with
  | [] => Ok tt nf
  | n :: l' =>
      match _parse_network n nf with
      | Ok _ nf' => parse_networks l' nf'
      | r => r
      end
  end.

(** [update]: the non-private bindings are named by their key, then the
    networks among them are parsed.  The dictionary is walked in the order
    of [map_to_list]; the message logged for more than one network is left
    out.  A value that cannot be hashed is skipped by the
    [except TypeError]; the values of [Locals] can all be hashed. *)
Definition NameFinder_update (bindings : Locals) (nf : NameFinder) :
    Outcome NameFinder unit :=
  let items := filter (λ kv, is_private kv.1 = false) (map_to_list bindings) in
  let nf := foldl (λ nf kv, set_name kv.2 kv.1 nf) nf items in
  let nets := filter (λ v, isinstance v ClsNetwork = true) items.*2 in
  parse_networks nets nf.

End NameFinderMethods.

Section MoreMethods.
Context `{Externals} `{Introspection}.

(** [for x in l: body x]. *)
Fixpoint for_each {A} (l : list A) (body : A → M unit) : M unit :=
  match l with
  | [] => ret tt
  | x :: l' => body x ;;; for_each l' body
  end.

(** ** remove_uids and act_collapse *)

(** [uid = self.page.names.uid(item); if uid in self.uids: del ...]. *)
Definition forget (item : PyVal) : M unit :=
  modify (fun g => set_uids (delete (page_names_uid None item) (uids g)) g).

Fixpoint remove_uids (net : PyVal) : M unit :=
  match net with
  | Network _ _ ensembles nodes networks connections =>
      for_each (ensembles ++ networks ++ nodes ++ connections) forget ;;;
      (fix remove_all (l : list PyVal) : M unit :=
         match l with
         | [] => ret tt
         | n :: l' => remove_uids n ;;; remove_all l'
         end) networks
  | _ => raise AttributeError
  end.

Definition act_collapse (uid : string) : M unit :=
  do g <- get;
  match uids g !! uid with
  | None => raise KeyError
  | Some net =>
      config_update net (set_expanded false) ;;;
      remove_uids net ;;;
      modified_config
  end.

(** ** act_pan and act_zoom *)

Definition act_pan (x y : Q) : M unit :=
  do g <- get;
  config_update (model (page g)) (set_pos (x, y)) ;;;
  modified_config.

Definition act_zoom (scale x y : Q) : M unit :=
  do g <- get;
  config_update (model (page g)) (set_cfg_size (scale, scale)) ;;;
  config_update (model (page g)) (set_pos (x, y)) ;;;
  modified_config.

(** ** expand_network *)

Definition set_has_layout (b : bool) (c : ConfigEntry) : ConfigEntry :=
  mkConfigEntry (pos c) (cfg_size c) (expanded c) b.

(** One turn of [for obj, layout in pos.items()]. *)
Definition place (item : PyVal * LayoutBox) : M unit :=
  config_update item.1 (set_pos (box_y item.2, box_x item.2)) ;;;
  config_update item.1
    (set_cfg_size ((box_h item.2 / 2)%Q, (box_w item.2 / 2)%Q)).

Definition expand_network (network : PyVal) : M unit :=
  do g <- get;
  (if has_layout (config_get (page g) network) then ret tt
   else
     match layout g with
     | None => raise AttributeError
     | Some layout_model =>
         for_each (make_layout layout_model network) place ;;;
         config_update network (set_has_layout true)
     end) ;;;
  do g <- get;
  let parent := if decide (py_key network = py_key (model (page g)))
                then None
                else Some (page_names_uid None network) in
  match network with
  | Network _ _ ensembles nodes networks connections =>
      for_each ensembles (fun ens => create_object ens "ens" parent) ;;;
      for_each nodes (fun node => create_object node "node" parent) ;;;
      for_each networks (fun net => create_object net "net" parent) ;;;
      for_each connections (fun conn => create_connection conn parent) ;;;
      config_update network (set_expanded true)
  | _ => raise AttributeError
  end.

(** ** PageNetwork.load *)

(** [load]: the file is read, and [execute] runs its text; when the read
    raises IOError the empty text is run and [filename] stays as it was;
    any other exception of the read is not caught. *)
Definition set_filename (v : option string) (p : Page) : Page :=
  mkPage v (code p) (locals p) (last_good_locals p) (error p) (model p)
    (page_names p) (name_finder p) (default_labels p) (config p)
    (uid_prefix_counter p) (components p) (page_undo_stack p)
    (page_redo_stack p) (changed p) (editor_code p) (config_save_needed p).

Definition load (file : string) : M string :=
  match read_file (Some file) with
  | Some text =>
      modify (fun g => set_page (set_filename (Some file) (page g)) g) ;;;
      execute text
  | None =>
      match read_raises (Some file) with
      | IOError => execute EmptyString
      | e => raise e
      end
  end.

End MoreMethods.

(** * Vocabulary of the properties *)

Section Vocabulary.
Context `{Externals}.

(** The state after the handler of ["netgraph.action"]. *)
Definition after_action (name : string) (kwargs : list (string * string))
    (g : NetGraph) : NetGraph :=
  let act := mkAction (action_class_of name) kwargs in
  let g1 := set_calls (calls g ++ [CallInit act]) g in
  let g2 := set_lists (<[undo_stack g := list_at g (undo_stack g) ++ [[act]]]>
                         (lists g)) g1 in
  set_lists (<[redo_stack g := []]> (lists g2)) g2.

(** The run of the script raised, or it left no Network called "model". *)
Definition script_fails (text : string) (g : NetGraph) : Prop :=
  let '(locals', _, outcome) := py_exec text (initial_locals g) in
  (∃ traceback line, outcome = ExecException traceback line) ∨
  isinstance (default PyNone (locals' !! "model")) ClsNetwork = false.

(** The page once [execute] has run. *)
Definition page_after_execute (text : string) (g : NetGraph) : Page :=
  let '(locals', _, outcome) := py_exec text (initial_locals g) in
  let obj := default PyNone (locals' !! "model") in
  let p := set_code (Some text) (set_locals locals' (page g)) in
  match outcome with
  | ExecException traceback line =>
      set_model (if isinstance obj ClsNetwork then obj else PyNone)
        (set_error (Some (traceback, line)) p)
  | _ =>
      if isinstance obj ClsNetwork
      then set_last_good_locals (Some locals')
             (set_model obj (set_error None p))
      else set_model PyNone
             (set_error (Some (missing_model, count_lines text)) p)
  end.

(** The state in which [_reload] runs the script: the editor has been
    given the text when it was read from the file. *)
Definition before_execute (code_arg : option string) (text : string)
    (g : NetGraph) : NetGraph :=
  match code_arg with
  | Some _ => g
  | None => set_page (set_editor_code (Some text) (page g)) g
  end.

(** [g'] is [g] but for the parents and the queue of networks to
    search. *)
Definition search_frame (g g' : NetGraph) : Prop :=
  g' = set_networks_to_search (networks_to_search g')
         (set_parents (parents g') g).

(** The uids of the normalized endpoints that [_reload_update_item]
    compares: those of the old connection under the names of the page,
    those of the new connection under the names of the new name finder. *)
Definition endpoints_differ (nf : NameFinder)
    (old_pre old_post new_pre new_post : PyVal) : Prop :=
  page_names_uid (Some (names nf)) new_pre ≠ page_names_uid None old_pre ∨
  page_names_uid (Some (names nf)) new_post ≠ page_names_uid None old_post.

(** The normalization of an endpoint in the words of the claim on
    reconnect events, to be compared with [normalized_pre] and
    [normalized_post]: a Neurons handle gives its owning ensemble, and a
    LearningRule handle the post object of its governing connection,
    itself normalized again. *)
Fixpoint claimed_normal_form (v : PyVal) : PyVal :=
  match v with
  | Neurons _ e => e
  | LearningRule _ (Connection _ _ _ post_obj _) =>
      claimed_normal_form post_obj
  | _ => v
  end.

(** The events that a call of [_reload_update_item] which returns has
    sent for [uid]: none, or one rename. *)
Definition update_events (uid : string) (old_item : PyVal)
    (evs : list Event) : Prop :=
  evs = [] ∨
  (is_node_ens_net old_item = true ∧ ∃ name, evs = [EvRename uid name]).

(** [evs] are the events that a call of [_reload_update_item] for the
    item, which returned, has appended to the queue. *)
Definition update_call (nf : NameFinder) (uid : string)
    (old_item new_item : PyVal) (evs : list Event) : Prop :=
  ∃ g changed g',
    _reload_update_item uid old_item new_item nf g = Ok changed g' ∧
    to_be_sent g' = to_be_sent g ++ evs.

(** The conditions under which the reload keeps a uid: evaluating it gives
    an object that the new name finder names by that uid, of the same one
    of the four classes, with the same helper information. *)
Definition stable (nf : NameFinder) (new_locals : Locals) (uid : string)
    (old_item new_item : PyVal) : Prop :=
  py_eval uid new_locals = Some new_item ∧
  NameFinder_getitem nf new_item = Some uid ∧
  same_class new_item old_item = true ∧
  get_extra_info new_item = get_extra_info old_item.

(** Events of the loop that are about a uid of the list. *)
Definition events_of (us : list string) (evs : list Event) : Prop :=
  Forall (λ e, ∃ u, event_uid e = Some u ∧ u ∈ us) evs.

(** The events that a run from [g] to [g'] has appended to the queue, and
    those of them that are about a uid. *)
Definition new_events (g g' : NetGraph) : list Event :=
  drop (length (to_be_sent g)) (to_be_sent g').

Definition events_about (uid : string) (evs : list Event) : list Event :=
  filter (λ e, event_uid e = Some uid) evs.

End Vocabulary.

(** * Vocabulary of the further properties *)

Section MoreVocabulary.
Context `{Externals} `{Introspection}.

(** ['.' in s]. *)
Fixpoint has_dot (s : string) : bool :=
  match s with
  | EmptyString => false
  | String c s' => Ascii.eqb c "."%char || has_dot s'
  end.

(** The state in which a run ends, if it ends. *)
Definition final {S A} (o : Outcome S A) : option S :=
  match o with
  | Ok _ s | Raise _ s => Some s
  | Diverge => None
  end.

(** The members of a network: the objects of its four lists. *)
Definition children (net : PyVal) : list PyVal :=
  match net with
  | Network _ _ ensembles nodes networks connections =>
      ensembles ++ nodes ++ connections ++ networks
  | _ => []
  end.

Definition subnetworks (net : PyVal) : list PyVal :=
  match net with
  | Network _ _ _ _ networks _ => networks
  | _ => []
  end.

(** [v] is a member of [net] or of a network below it. *)
Inductive inside : PyVal → PyVal → Prop :=
| inside_child net v : v ∈ children net → inside v net
| inside_deeper net sub v :
    sub ∈ subnetworks net → inside v sub → inside v net.

(** Every entry of a list of sub-networks, at every depth, is a
    Network. *)
Inductive networks_only : PyVal → Prop :=
| networks_only_intro oid label ensembles nodes networks connections :
    Forall networks_only networks →
    networks_only (Network oid label ensembles nodes networks connections).

(** [nf'] has the names of [nf], maybe more, and the same counter. *)
Definition extends (nf nf' : NameFinder) : Prop :=
  names nf ⊆ names nf' ∧
  autoprefix nf' = autoprefix nf ∧ autocount nf' = autocount nf.

Definition named (nf : NameFinder) (v : PyVal) : Prop :=
  is_Some (names nf !! py_key v).

(** The name finder after the loop over the four lists of a network. *)
Definition named_lists (net : PyVal) (net_name : string) (nf : NameFinder) :
    NameFinder :=
  match net with
  | Network _ _ ensembles nodes networks connections =>
      let nf := name_list net_name "ensembles" 0 ensembles nf in
      let nf := name_list net_name "nodes" 0 nodes nf in
      let nf := name_list net_name "connections" 0 connections nf in
      name_list net_name "networks" 0 networks nf
  | _ => nf
  end.

(** The lists that the loop over [dir(net)] walks hold no element that
    cannot be hashed. *)
Definition hashable_lists (attrs : list (string * Attr)) : Prop :=
  ∀ a l, (a, AttrList l) ∈ attrs →
         is_private a = false → a ∉ NETIGNORE → Unhashable ∉ l.

(** What the parse needs to return: at every depth, the entries of the
    lists of sub-networks are Networks, and the public lists among their
    attributes hold elements that can be hashed. *)
Inductive parses : PyVal → Prop :=
| parses_intro oid label ensembles nodes networks connections :
    hashable_lists
      (dir_attrs (Network oid label ensembles nodes networks connections)) →
    Forall parses networks →
    parses (Network oid label ensembles nodes networks connections).

(** What the parse of a network does to the names. *)
Definition parsed (net : PyVal) (nf : NameFinder)
    (o : Outcome NameFinder unit) : Prop :=
  match o with
  | Ok _ nf' =>
      extends nf nf' ∧ parses net ∧ ∀ v, inside v net → named nf' v
  | Raise e nf' =>
      extends nf nf' ∧ ¬ parses net ∧
      (e = AttributeError ∧ ¬ networks_only net ∨ e = TypeError)
  | Diverge => False
  end.

(** [v] is a node, an ensemble or a network of [net] or of a network
    below it: the objects that the search for parents visits. *)
Inductive shown : PyVal → PyVal → Prop :=
| shown_member oid label ensembles nodes networks connections v :
    v ∈ nodes ++ ensembles ++ networks →
    shown v (Network oid label ensembles nodes networks connections)
| shown_deeper net sub v :
    sub ∈ subnetworks net → shown v sub → shown v net.

(** [l] lists the parent of [k], the parent of that one, and so on up to
    a uid that has no parent. *)
Fixpoint path_to_root (ps : gmap string string) (k : string)
    (l : list string) : Prop :=
  match l with
  | [] => ps !! k = None
  | p :: l' => ps !! k = Some p ∧ path_to_root ps p l'
  end.

(** From [g] to [g'] only the snapshot has changed, and it has lost
    entries at most. *)
Definition shrunk (g g' : NetGraph) : Prop :=
  g' = set_uids (uids g') g ∧ uids g' ⊆ uids g.

(** From [g] to [g'] the snapshot has lost the uids of the objects of
    [vs], and nothing else has changed. *)
Definition removed (vs : PyVal → Prop) (g g' : NetGraph) : Prop :=
  shrunk g g' ∧
  (∀ v, vs v → uids g' !! page_names_uid None v = None) ∧
  (∀ uid, (∀ v, vs v → page_names_uid None v ≠ uid) →
          uids g' !! uid = uids g !! uid).

(** What object creation leaves alone: the queues of events and of
    networks to expand, the layout, and the page apart from its
    configuration. *)
Definition display_frame (g g' : NetGraph) : Prop :=
  page g' = set_config (config (page g')) (page g) ∧
  to_be_sent g' = to_be_sent g ∧
  to_be_expanded g' = to_be_expanded g ∧
  layout g' = layout g.

(** From [g] to [g'] the configuration only has changed. *)
Definition config_only (g g' : NetGraph) : Prop :=
  g' = set_page (set_config (config (page g')) (page g)) g.

(** The flags [expanded] and [has_layout] of every entry of the
    configuration are as before. *)
Definition flags_kept (g g' : NetGraph) : Prop :=
  ∀ v, expanded (config_get (page g') v) = expanded (config_get (page g) v) ∧
       has_layout (config_get (page g') v) =
         has_layout (config_get (page g) v).

(** From [g] to [g'] the snapshot has gained entries only, each one an
    object of [vs] under its uid, and one message has been written for
    each of them. *)
Definition grown (vs : PyVal → Prop) (g g' : NetGraph) : Prop :=
  uids g ⊆ uids g' ∧
  (∀ k v, uids g' !! k = Some v →
          uids g !! k = Some v ∨ (vs v ∧ k = page_names_uid None v)) ∧
  (∃ msgs, written g' = written g ++ msgs ∧
           size (uids g') = (size (uids g) + length msgs)%nat) ∧
  display_frame g g'.

End MoreVocabulary.

(** * A sample session

    A model with two ensembles [a] and [b] and a connection, reloaded from
    a script in which [b] has two dimensions instead of one and the
    connection goes from [a] to [b] instead of from [a] to [a]. *)

Module Sample.

Definition a_old : PyVal := Ensemble 1 None 1 50.
Definition b_old : PyVal := Ensemble 2 None 1 50.
Definition c_old : PyVal := Connection 3 None a_old a_old a_old.
Definition model_old : PyVal :=
  Network 4 None [a_old; b_old] [] [] [c_old].

Definition a_new : PyVal := Ensemble 11 None 1 50.
Definition b_new : PyVal := Ensemble 12 None 2 50.
Definition c_new : PyVal := Connection 13 None a_new b_new b_new.
Definition model_new : PyVal :=
  Network 14 None [a_new; b_new] [] [] [c_new].

(** A passthrough node, and a connection into the learning rule of
    [c_new]. *)
Definition node : PyVal := Node 20 None None 1.
Definition c_rule : PyVal :=
  Connection 21 None a_new (LearningRule 22 c_new) (LearningRule 22 c_new).

Definition conn_uid : string := "model.connections[0]".

(** A connection [top] into the learning rule of a connection [mid] that
    itself ends in the learning rule of a connection [deep]: in the old
    script [deep] ends in [a], in the new one in [b]. *)
Definition deep_old : PyVal := Connection 30 None a_old a_old a_old.
Definition mid_old : PyVal :=
  Connection 31 None a_old (LearningRule 32 deep_old)
    (LearningRule 32 deep_old).
Definition top_old : PyVal :=
  Connection 33 None a_old (LearningRule 34 mid_old) (LearningRule 34 mid_old).

Definition deep_new : PyVal := Connection 40 None a_new b_new b_new.
Definition mid_new : PyVal :=
  Connection 41 None a_new (LearningRule 42 deep_new)
    (LearningRule 42 deep_new).
Definition top_new : PyVal :=
  Connection 43 None a_new (LearningRule 44 mid_new) (LearningRule 44 mid_new).

Definition rule_uid : string := "deep.learning_rule".

Definition old_names : NameTable :=
  list_to_map [(py_key a_old, "a"); (py_key b_old, "b");
               (py_key c_old, conn_uid); (py_key model_old, "model");
               (py_key top_old, "top");
               (py_key (LearningRule 32 deep_old), rule_uid)].

Definition new_names : NameTable :=
  list_to_map [(py_key a_new, "a"); (py_key b_new, "b");
               (py_key c_new, conn_uid); (py_key model_new, "model")].

Definition old_locals : Locals :=
  list_to_map [("model", model_old); ("a", a_old); ("b", b_old)].

Definition new_locals : Locals :=
  list_to_map [("model", model_new); ("a", a_new); ("b", b_new)].

(** The script ["boom"] raises on its first line; any other script binds
    the new model. *)
Definition run_script (text : string) (init : Locals) :
    Locals * string * ExecOutcome :=
  if String.eqb text "boom"
  then (init, EmptyString, ExecException "Traceback" 1)
  else (new_locals ∪ init, EmptyString, ExecDone).

(** Names bound in the dictionary, and the first connection of the
    model. *)
Definition eval_path (uid : string) (l : Locals) : option PyVal :=
  if String.eqb uid conn_uid then
    match l !! "model" with
    | Some (Network _ _ _ _ _ (c :: _)) => Some c
    | _ => None
    end
  else l !! uid.

Definition externals : Externals := {|
  py_exec := run_script;
  py_eval := eval_path;
  read_file := fun f =>
    if decide (f = Some "missing.py") then None
    else if decide (f = Some "binary.py") then None
    else Some "model = nengo.Network()";
  read_raises := fun f =>
    if decide (f = Some "binary.py") then OtherError "UnicodeDecodeError"
    else IOError;
  Value_default_output :=
    fun v => match v with Node _ _ _ _ | Network _ _ _ _ _ _ => v | _ => PyNone end;
  SpaPlot_applicable_targets := fun _ => [];
  page_names_uid :=
    fun t v => default "?" (default old_names t !! py_key v);
  load_config := config;
  config_default := mkConfigEntry None None false false;
  random_uniform := fun _ => (1 # 2)%Q;
  sync_components := fun _ _ _ _ g => Ok tt g
|}.

Definition page0 : Page := {|
  filename := Some "model.py";
  code := Some "model = nengo.Network()";
  locals := old_locals;
  last_good_locals := Some old_locals;
  error := None;
  model := model_old;
  page_names := mkNameFinder old_names "_viz_" 0;
  name_finder := None;
  default_labels := old_names;
  config := ∅;
  uid_prefix_counter := ∅;
  components := [];
  page_undo_stack := 0;
  page_redo_stack := 1;
  changed := false;
  editor_code := None;
  config_save_needed := false
|}.

(** The session before the reload: the snapshot holds [a], [b] and the
    connection; the handler and the page share the two stacks. *)
Definition g0 : NetGraph := {|
  layout := None;
  to_be_expanded := [];
  networks_to_search := [];
  undo_stack := 0;
  redo_stack := 1;
  uids := list_to_map [("a", a_old); ("b", b_old); (conn_uid, c_old)];
  parents := ∅;
  to_be_sent := [];
  page := page0;
  lists := ∅;
  calls := [];
  written := [];
  random_draws := 0
|}.

(** The state in which the loop of the reload starts: the script has run
    and the search for parents is reset. *)
Definition g_loop : NetGraph :=
  set_parents ∅
    (set_networks_to_search [model_new]
       (set_page (set_model model_new (set_locals new_locals page0)) g0)).

Definition new_finder : NameFinder := mkNameFinder new_names "_viz_" 0.

(** The same, for a script whose connection still goes from [a] to
    [a]. *)
Definition c_kept : PyVal := Connection 13 None a_new a_new a_new.
Definition model_kept : PyVal :=
  Network 14 None [a_new; b_new] [] [] [c_kept].

Definition kept_locals : Locals :=
  list_to_map [("model", model_kept); ("a", a_new); ("b", b_new)].

Definition g_kept : NetGraph :=
  set_parents ∅
    (set_networks_to_search [model_kept]
       (set_page (set_model model_kept (set_locals kept_locals page0)) g0)).

(** The same, for a snapshot that holds a uid which the new script does
    not bind. *)
Definition g_gone : NetGraph := set_uids {["gone" := b_old]} g_loop.

(** The same, for a snapshot that holds the connection [top], which both
    scripts bind to the name [top]. *)
Definition rules_names : NameTable :=
  <[py_key top_new := "top"]>
    (<[py_key (LearningRule 42 deep_new) := rule_uid]> new_names).

Definition rules_finder : NameFinder := mkNameFinder rules_names "_viz_" 0.

Definition g_rules : NetGraph :=
  set_uids {["top" := top_old]}
    (set_page (set_locals (<["top" := top_new]> new_locals) (page g_loop))
       g_loop).

Definition act1 : Action := mkAction Pos [("uid", "a")].
Definition act2 : Action := mkAction Size [("uid", "a")].

(** A session whose undo stack holds one group of two actions. *)
Definition g_two : NetGraph := set_lists {[0%nat := [[act1; act2]]]} g0.

(** A session in which the lists of the handler are the ones that
    [NetGraph.__init__] creates, both empty, and the lists of the page are
    two other lists; the redo stack of the page holds one group, left by
    an undo. *)
Definition g_split : NetGraph := {|
  layout := None;
  to_be_expanded := [];
  networks_to_search := [];
  undo_stack := 2;
  redo_stack := 3;
  uids := uids g0;
  parents := ∅;
  to_be_sent := [];
  page := page0;
  lists := {[1%nat := [[act1]]]};
  calls := [];
  written := [];
  random_draws := 0
|}.

End Sample.

(** * A sample display

    The old model of the sample session, before anything of it is
    shown: the snapshot is empty, the layout is built and the search for
    parents starts at the model. *)

Module SampleDisplay.

(** [dir(net)] of a network: the list of its ensembles under two names,
    and an attribute [input] for its first ensemble. *)
Definition attrs (net : PyVal) : list (string * Attr) :=
  match net with
  | Network _ _ ensembles _ _ _ =>
      [("_label", AttrValue PyNone);
       ("all_ensembles", AttrList (Hashable <$> ensembles));
       ("ensembles", AttrList (Hashable <$> ensembles));
       ("input", AttrValue (default PyNone (head ensembles)))]
  | _ => []
  end.

(** A layout that gives every member the unit box. *)
Definition unit_boxes (layout_model network : PyVal) :
    list (PyVal * LayoutBox) :=
  match network with
  | Network _ _ ensembles nodes networks _ =>
      (λ v, (v, mkLayoutBox 0 0 1 1)) <$> ensembles ++ nodes ++ networks
  | _ => []
  end.

Definition introspection : Introspection := {|
  dir_attrs := attrs;
  make_layout := unit_boxes
|}.

Definition g_display : NetGraph :=
  set_networks_to_search [Sample.model_old]
    (set_layout (Some Sample.model_old) (set_uids ∅ Sample.g0)).

(** A name finder in which the first generated name is taken. *)
Definition one_name : NameFinder :=
  mkNameFinder {[py_key Sample.a_old := "_viz_0"]} "_viz_" 0.

End SampleDisplay.

(** * Properties *)

Section Properties.
Context `{Externals}.

(** ** Field updates compose *)

Lemma set_calls_id g : set_calls (calls g) g = g.
Proof. by destruct g. Qed.

Lemma set_lists_id g : set_lists (lists g) g = g.
Proof. by destruct g. Qed.

(** ** get_extra_info *)

Lemma passthrough_output_spec o :
  passthrough_output o = true ↔
  o = None ∨ ∃ out, o = Some out ∧ output_kind out = OverriddenOutput true.
Proof.
  unfold passthrough_output. split.
  - destruct o as [out|]; [|by left]. intros Hk. right. exists out.
    split; [done|]. by destruct (output_kind out) as [|[]].
  - intros [->|(out & -> & ->)]; done.
Qed.

Lemma html_output_spec o :
  html_output o = true ↔
  ∃ out, o = Some out ∧ callable out = true ∧ has_nengo_html out = true.
Proof.
  unfold html_output. split.
  - destruct o as [out|]; [|done]. intros [??]%andb_true_iff. by exists out.
  - intros (out & -> & -> & ->). done.
Qed.

(** C9, as the code has it: the flag [default_output] is set in the last
    branch of the chain only, so a Node or an Ensemble never carries it; an
    object of another kind carries it exactly when [Value.default_output]
    is not None.  A Node carries its dimensions, [passthrough] exactly when
    its output is None or an [OverriddenOutput] without base output, [html]
    exactly when its output is callable and has the rendering hook; an
    Ensemble carries its dimensions and its number of neurons; every object
    carries the list of applicable targets. *)
Theorem get_extra_info_contents (obj : PyVal) :
  let info := get_extra_info obj in
  info !! "sp_targets" = Some (IList (SpaPlot_applicable_targets obj)) ∧
  match obj with
  | Node _ _ output size_out =>
      info !! "dimensions" = Some (IInt size_out) ∧
      (info !! "passthrough" =
         if passthrough_output output then Some (IBool true) else None) ∧
      (is_Some (info !! "passthrough") ↔
         output = None ∨
         ∃ out, output = Some out ∧ output_kind out = OverriddenOutput true) ∧
      (info !! "html" =
         if html_output output then Some (IBool true) else None) ∧
      (is_Some (info !! "html") ↔
         ∃ out, output = Some out ∧ callable out = true ∧
                has_nengo_html out = true) ∧
      info !! "n_neurons" = None ∧
      info !! "default_output" = None
  | Ensemble _ _ size_out n_neurons =>
      info !! "dimensions" = Some (IInt size_out) ∧
      info !! "n_neurons" = Some (IInt n_neurons) ∧
      info !! "passthrough" = None ∧
      info !! "html" = None ∧
      info !! "default_output" = None
  | _ =>
      (info !! "default_output" =
         if is_none (Value_default_output obj) then None
         else Some (IBool true)) ∧
      (is_Some (info !! "default_output") ↔ Value_default_output obj ≠ PyNone) ∧
      info !! "dimensions" = None ∧
      info !! "n_neurons" = None ∧
      info !! "passthrough" = None ∧
      info !! "html" = None
  end.
Proof.
  assert (Hother : ∀ o,
    let i : Info := if is_none (Value_default_output o) then ∅
                    else <["default_output" := IBool true]> ∅ in
    (<["sp_targets" := IList (SpaPlot_applicable_targets o)]> i
       !! "default_output" =
       if is_none (Value_default_output o) then None else Some (IBool true)) ∧
    (is_Some (<["sp_targets" := IList (SpaPlot_applicable_targets o)]> i
                !! "default_output") ↔ Value_default_output o ≠ PyNone) ∧
    <["sp_targets" := IList (SpaPlot_applicable_targets o)]> i
      !! "dimensions" = None ∧
    <["sp_targets" := IList (SpaPlot_applicable_targets o)]> i
      !! "n_neurons" = None ∧
    <["sp_targets" := IList (SpaPlot_applicable_targets o)]> i
      !! "passthrough" = None ∧
    <["sp_targets" := IList (SpaPlot_applicable_targets o)]> i
      !! "html" = None).
  { intros o. simpl. destruct (Value_default_output o) eqn:Hd; simpl;
      repeat split; try done; try (intros [? [=]]); try (intros _; by eexists);
      try (by intros ?%is_Some_None). }
  simpl. split; [unfold get_extra_info; by rewrite lookup_insert_eq|].
  destruct obj; try apply Hother.
  - unfold get_extra_info.
    rewrite <- passthrough_output_spec, <- html_output_spec.
    destruct (passthrough_output output), (html_output output);
      repeat split; try done; try (intros [? [=]]); try (intros _; by eexists).
  - unfold get_extra_info. repeat split; done.
Qed.

(** ** The command log *)

(** Reads of the store of lists after writes to it. *)
Ltac store_simpl :=
  unfold list_at; simpl;
  repeat (rewrite lookup_total_insert_eq ||
          rewrite lookup_total_insert_ne by (done || by apply not_eq_sym)).

Lemma undo_calls_fold (grp acc : Group) g :
  fold_each grp (fun re act => call (CallUndo act) ;;; ret (act :: re)) acc g
  = Ok (rev grp ++ acc) (set_calls (calls g ++ map CallUndo grp) g).
Proof.
  revert acc g. induction grp as [|a grp IH]; intros acc g; simpl.
  - unfold ret. by rewrite app_nil_r, set_calls_id.
  - unfold bind at 1. unfold bind at 1. unfold call, modify, ret.
    rewrite IH. destruct g; simpl. unfold set_calls; simpl.
    by rewrite <- !app_assoc.
Qed.

Lemma apply_calls_fold (grp acc : Group) g :
  fold_each grp (fun un act => call (CallApply act) ;;; ret (act :: un)) acc g
  = Ok (rev grp ++ acc) (set_calls (calls g ++ map CallApply grp) g).
Proof.
  revert acc g. induction grp as [|a grp IH]; intros acc g; simpl.
  - unfold ret. by rewrite app_nil_r, set_calls_id.
  - unfold bind at 1. unfold bind at 1. unfold call, modify, ret.
    rewrite IH. destruct g; simpl. unfold set_calls; simpl.
    by rewrite <- !app_assoc.
Qed.

Lemma nonempty_case {A B} (l : list A) (x : A) (a b : B) :
  match l ++ [x] with [] => a | _ :: _ => b end = b.
Proof. by destruct l. Qed.

Lemma list_pop_last r us grp g :
  list_at g r = us ++ [grp] →
  list_pop r g = Ok grp (set_lists (<[r := us]> (lists g)) g).
Proof.
  intros Hl. unfold list_pop. rewrite Hl, rev_unit. by rewrite rev_involutive.
Qed.

(** What [undo] does on a non-empty stack, whatever the references are. *)
Lemma undo_nonempty g us grp :
  list_at g (page_undo_stack (page g)) = us ++ [grp] →
  undo g =
    let g1 := set_lists (<[page_undo_stack (page g) := us]> (lists g)) g in
    let g2 := set_calls (calls g ++ map CallUndo grp) g1 in
    Ok tt (set_lists (<[page_redo_stack (page g) :=
                          list_at g2 (page_redo_stack (page g)) ++ [rev grp]]>
                        (lists g2)) g2).
Proof.
  intros Hl. unfold undo, bind at 1, get. rewrite Hl.
  rewrite nonempty_case.
  unfold bind at 1. rewrite (list_pop_last _ us grp) by done.
  unfold bind at 1. rewrite undo_calls_fold. rewrite app_nil_r.
  by destruct g.
Qed.

Lemma redo_nonempty g rs grp :
  list_at g (page_redo_stack (page g)) = rs ++ [grp] →
  redo g =
    let g1 := set_lists (<[page_redo_stack (page g) := rs]> (lists g)) g in
    let g2 := set_calls (calls g ++ map CallApply grp) g1 in
    Ok tt (set_lists (<[page_undo_stack (page g) :=
                          list_at g2 (page_undo_stack (page g)) ++ [rev grp]]>
                        (lists g2)) g2).
Proof.
  intros Hl. unfold redo, bind at 1, get. rewrite Hl.
  rewrite nonempty_case.
  unfold bind at 1. rewrite (list_pop_last _ rs grp) by done.
  unfold bind at 1. rewrite apply_calls_fold. rewrite app_nil_r.
  by destruct g.
Qed.

Lemma undo_empty g :
  list_at g (page_undo_stack (page g)) = [] → undo g = Ok tt g.
Proof. intros Hl. unfold undo, bind, get. by rewrite Hl. Qed.

Lemma redo_empty g :
  list_at g (page_redo_stack (page g)) = [] → redo g = Ok tt g.
Proof. intros Hl. unfold redo, bind, get. by rewrite Hl. Qed.

Lemma action_spec name kwargs g :
  action name kwargs g = Ok tt (after_action name kwargs g).
Proof. by destruct g. Qed.

(** C3, as the code has it: [undo] pops the top group [a1, ..., an], calls
    [undo()] on its actions in the order a1, ..., an in which the list
    holds them, and pushes the reversed list [an, ..., a1] on the redo
    stack; [redo] pops the top group of the redo stack, calls [apply()] on
    its actions in the order in which that list holds them, and pushes the
    reversed list on the undo stack. *)
Theorem undo_redo_group_order (g : NetGraph) (rest : list Group)
    (grp : Group) :
  page_undo_stack (page g) ≠ page_redo_stack (page g) →
  (list_at g (page_undo_stack (page g)) = rest ++ [grp] →
   ∃ g', undo g = Ok tt g' ∧
         calls g' = calls g ++ map CallUndo grp ∧
         list_at g' (page_undo_stack (page g)) = rest ∧
         list_at g' (page_redo_stack (page g)) =
           list_at g (page_redo_stack (page g)) ++ [rev grp]) ∧
  (list_at g (page_redo_stack (page g)) = rest ++ [grp] →
   ∃ g', redo g = Ok tt g' ∧
         calls g' = calls g ++ map CallApply grp ∧
         list_at g' (page_redo_stack (page g)) = rest ∧
         list_at g' (page_undo_stack (page g)) =
           list_at g (page_undo_stack (page g)) ++ [rev grp]).
Proof.
  intros Hne. split; intros Hl.
  - rewrite (undo_nonempty g rest grp) by done. eexists. split; [done|].
    destruct g; simpl in *. by store_simpl.
  - rewrite (redo_nonempty g rest grp) by done. eexists. split; [done|].
    destruct g; simpl in *. by store_simpl.
Qed.

(** C4, as the code has it: when the handler and [undo] work on the same
    two lists, pushing a one-action group and undoing it leaves the undo
    stack as it was before the push; the redo stack is not restored, it
    then holds exactly the group that was pushed. *)
Theorem action_then_undo (g : NetGraph) (name : string)
    (kwargs : list (string * string)) :
  page_undo_stack (page g) = undo_stack g →
  page_redo_stack (page g) = redo_stack g →
  undo_stack g ≠ redo_stack g →
  let act := mkAction (action_class_of name) kwargs in
  ∃ g', (action name kwargs ;;; undo) g = Ok tt g' ∧
        list_at g' (undo_stack g) = list_at g (undo_stack g) ∧
        list_at g' (redo_stack g) = [[act]] ∧
        calls g' = calls g ++ [CallInit act; CallUndo act].
Proof.
  intros Hu Hr Hne act. unfold bind. rewrite action_spec.
  rewrite (undo_nonempty _ (list_at g (undo_stack g)) [act]).
  2:{ destruct g; simpl in *. subst. by store_simpl. }
  eexists. split; [done|].
  destruct g; simpl in *. subst. store_simpl.
  by rewrite <- app_assoc.
Qed.

(** When the handler and [redo] work on the same two lists, the handler
    of ["netgraph.action"] pushes one group of one action on the undo
    stack and leaves the redo stack empty, and a [redo] that follows
    returns without changing anything. *)
Lemma action_invalidates_redo (g : NetGraph) (name : string)
    (kwargs : list (string * string)) :
  page_redo_stack (page g) = redo_stack g →
  undo_stack g ≠ redo_stack g →
  let act := mkAction (action_class_of name) kwargs in
  ∃ g', action name kwargs g = Ok tt g' ∧
        list_at g' (undo_stack g) = list_at g (undo_stack g) ++ [[act]] ∧
        list_at g' (redo_stack g) = [] ∧
        redo g' = Ok tt g'.
Proof.
  intros Hr Hne act. rewrite action_spec. eexists. split; [done|].
  assert (Hempty : list_at (after_action name kwargs g) (redo_stack g) = []).
  { destruct g; simpl in *. by store_simpl. }
  split; [|split; [done|]].
  - destruct g; simpl in *. by store_simpl.
  - apply redo_empty. destruct g; simpl in *. by subst.
Qed.

(** C6, as the code has it: [undo] on an empty undo stack and [redo] on an
    empty redo stack return without changing anything; [act_expand] with a
    uid that the snapshot does not hold changes nothing and raises
    KeyError. *)
Theorem empty_stack_and_unknown_uid (g : NetGraph) (uid : string) :
  (list_at g (page_undo_stack (page g)) = [] → undo g = Ok tt g) ∧
  (list_at g (page_redo_stack (page g)) = [] → redo g = Ok tt g) ∧
  (uids g !! uid = None → act_expand uid g = Raise KeyError g).
Proof.
  split; [apply undo_empty|]. split; [apply redo_empty|].
  intros Hu. unfold act_expand, bind, get. by rewrite Hu.
Qed.

(** ** execute and the early returns of _reload *)

Lemma execute_spec text g :
  ∃ out, execute text g = Ok out (set_page (page_after_execute text g) g).
Proof.
  unfold execute, page_after_execute.
  destruct g as [? ? ? ? ? ? ? ? p ? ? ? ?]. destruct p.
  unfold bind, get, modify, _set_error, ret, initial_locals. simpl.
  match goal with |- context [py_exec text ?l] =>
    destruct (py_exec text l) as [[locals' out] outcome] end.
  destruct outcome; simpl;
    destruct (isinstance (default PyNone (locals' !! "model")) ClsNetwork);
    simpl; eexists; reflexivity.
Qed.

Lemma page_after_execute_error text g :
  script_fails text g ↔ is_Some (error (page_after_execute text g)).
Proof.
  unfold script_fails, page_after_execute.
  destruct (py_exec text (initial_locals g)) as [[locals' out] outcome].
  destruct (page g).
  destruct outcome;
    destruct (isinstance (default PyNone (locals' !! "model")) ClsNetwork);
    simpl; split;
    first [ by intros [(? & ? & [=])|[=]]
          | by intros ?%is_Some_None
          | (intros _; by eexists)
          | (intros _; by right)
          | (intros _; left; by do 2 eexists) ].
Qed.

Lemma page_after_execute_last_good text g :
  last_good_locals (page_after_execute text g) =
    match error (page_after_execute text g) with
    | Some _ => last_good_locals (page g)
    | None => Some (locals (page_after_execute text g))
    end.
Proof.
  unfold page_after_execute.
  destruct (py_exec text (initial_locals g)) as [[locals' out] outcome].
  destruct (page g).
  by destruct outcome;
    destruct (isinstance (default PyNone (locals' !! "model")) ClsNetwork).
Qed.

Lemma page_after_execute_components text g :
  components (page_after_execute text g) = components (page g).
Proof.
  unfold page_after_execute.
  destruct (py_exec text (initial_locals g)) as [[locals' out] outcome].
  destruct (page g).
  by destruct outcome;
    destruct (isinstance (default PyNone (locals' !! "model")) ClsNetwork).
Qed.

Lemma reconcile_error text ol odl g :
  is_Some (error (page g)) → reconcile text ol odl g = Ok tt g.
Proof. intros [e He]. unfold reconcile, bind, get. by rewrite He. Qed.

(** C7, as the code has it: a reload without a [code] argument that reads
    from the watched file the text that [page.code] holds returns at once
    and changes nothing; a reload with the text given as the [code]
    argument runs [execute] on it without that comparison. *)
Theorem reload_unchanged_text (g : NetGraph) (text : string) :
  (read_file (filename (page g)) = Some text →
   code (page g) = Some text →
   _reload None g = Ok tt g) ∧
  _reload (Some text) g =
    (execute text ;;;
     reconcile text (last_good_locals (page g)) (default_labels (page g))) g.
Proof.
  split; [|done]. intros Hf Hc.
  unfold _reload, bind at 1, get, bind at 1. rewrite Hf.
  by rewrite decide_True.
Qed.

Lemma reload_runs_script g code_arg text :
  (code_arg = Some text ∨
   code_arg = None ∧ read_file (filename (page g)) = Some text ∧
   code (page g) ≠ Some text) →
  _reload code_arg g =
    (execute text ;;;
     reconcile text (last_good_locals (page g)) (default_labels (page g)))
      (before_execute code_arg text g).
Proof.
  intros [->|(-> & Hf & Hc)]; [done|].
  unfold _reload, bind at 1, get, bind at 1. rewrite Hf.
  by rewrite decide_False.
Qed.

(** C8: when the run of the script raises, or leaves no Network called
    "model", the reload reports the error and returns before the
    reconciliation: the snapshot, the parents, the components, the
    last-good locals and the queue of events are as before.  [execute]
    replaces the last-good locals exactly when it reports no error. *)
Theorem reload_failure_keeps_snapshot (g : NetGraph) (code_arg : option string)
    (text : string) :
  (code_arg = Some text ∨
   code_arg = None ∧ read_file (filename (page g)) = Some text ∧
   code (page g) ≠ Some text) →
  (script_fails text g →
   ∃ g', _reload code_arg g = Ok tt g' ∧
         is_Some (error (page g')) ∧
         uids g' = uids g ∧ parents g' = parents g ∧
         components (page g') = components (page g) ∧
         last_good_locals (page g') = last_good_locals (page g) ∧
         to_be_sent g' = to_be_sent g ∧
         to_be_expanded g' = to_be_expanded g ∧
         networks_to_search g' = networks_to_search g) ∧
  (∃ out g1, execute text g = Ok out g1 ∧
     (script_fails text g ↔ is_Some (error (page g1))) ∧
     last_good_locals (page g1) =
       match error (page g1) with
       | Some _ => last_good_locals (page g)
       | None => Some (locals (page g1))
       end).
Proof.
  intros Harg. split.
  - intros Hfail. rewrite (reload_runs_script g code_arg text Harg).
    set (g0 := before_execute code_arg text g).
    assert (Hfile : initial_locals g0 = initial_locals g).
    { unfold g0, before_execute. destruct code_arg; [done|].
      by destruct g as [? ? ? ? ? ? ? ? [] ? ? ? ?]. }
    assert (Hfail0 : script_fails text g0).
    { unfold script_fails in *. by rewrite Hfile. }
    destruct (execute_spec text g0) as [out He].
    apply page_after_execute_error in Hfail0.
    pose proof (page_after_execute_last_good text g0) as Hlast.
    pose proof (page_after_execute_components text g0) as Hcomp.
    destruct Hfail0 as [e Herr]. rewrite Herr in Hlast.
    unfold bind at 1. rewrite He.
    rewrite reconcile_error by (destruct g0; simpl; by eexists).
    eexists. split; [done|].
    assert (Hg0 : uids g0 = uids g ∧ parents g0 = parents g ∧
              components (page g0) = components (page g) ∧
              last_good_locals (page g0) = last_good_locals (page g) ∧
              to_be_sent g0 = to_be_sent g ∧
              to_be_expanded g0 = to_be_expanded g ∧
              networks_to_search g0 = networks_to_search g).
    { unfold g0, before_execute. destruct code_arg; [done|].
      by destruct g as [? ? ? ? ? ? ? ? [] ? ? ? ?]. }
    destruct Hg0 as (<- & <- & <- & <- & <- & <- & <-).
    destruct g0; simpl in *. rewrite Herr, Hlast, Hcomp. by repeat split.
  - destruct (execute_spec text g) as [out He].
    exists out, (set_page (page_after_execute text g) g). split; [done|].
    destruct g; simpl. split.
    + apply page_after_execute_error.
    + apply page_after_execute_last_good.
Qed.

(** ** Reasoning about method bodies *)

Lemma bind_Ok {A B} (m : M A) (k : A → M B) g b g' :
  bind m k g = Ok b g' ↔ ∃ a g1, m g = Ok a g1 ∧ k a g1 = Ok b g'.
Proof.
  unfold bind. split.
  - destruct (m g) as [a g1| |]; [|done..]. intros Hk. by exists a, g1.
  - intros (a & g1 & -> & Hk). done.
Qed.

Lemma lift_attr_Ok {A} (r : option A) g a g' :
  lift_attr r g = Ok a g' ↔ r = Some a ∧ g' = g.
Proof.
  destruct r; simpl; unfold ret, raise; split;
    first [ by intros [= -> ->] | by intros [[= ->] ->] | by intros [[=] _]
          | done ].
Qed.

Lemma lift_exn_Ok {A} (r : Exn + A) g a g' :
  lift_exn r g = Ok a g' ↔ r = inr a ∧ g' = g.
Proof.
  destruct r; simpl; unfold ret, raise; split;
    first [ by intros [= -> ->] | by intros [[= ->] ->] | by intros [[=] _]
          | done ].
Qed.

(** ** get_parents writes the parents and the queue of networks only *)

Lemma search_frame_refl g : search_frame g g.
Proof. by destruct g. Qed.

Lemma search_frame_trans g1 g2 g3 :
  search_frame g1 g2 → search_frame g2 g3 → search_frame g1 g3.
Proof.
  unfold search_frame, set_networks_to_search, set_parents.
  destruct g1, g2, g3; simpl. intros [= -> -> -> -> -> -> -> -> -> -> ->].
  by intros [= -> -> -> -> -> -> -> -> -> -> ->].
Qed.

Lemma search_frame_fields g g' :
  search_frame g g' →
  uids g' = uids g ∧ to_be_sent g' = to_be_sent g ∧ page g' = page g ∧
  to_be_expanded g' = to_be_expanded g ∧ written g' = written g.
Proof. intros ->. by destruct g. Qed.

Lemma search_networks_frame fuel uid dl g :
  match search_networks fuel uid dl g with
  | Ok _ g' | Raise _ g' => search_frame g g'
  | Diverge => True
  end.
Proof.
  revert g. induction fuel as [|fuel IH]; intros g; simpl;
    destruct (parents g !! uid); try apply search_frame_refl;
    destruct (networks_to_search g) as [|net rest] eqn:Hq;
    try apply search_frame_refl; [done|].
  destruct net; try (by destruct g; simpl in *; subst).
  match goal with |- context [search_networks fuel uid dl ?g1] =>
    specialize (IH g1); destruct (search_networks fuel uid dl g1);
    [| |done]; (eapply search_frame_trans; [|exact IH]) end;
    by destruct g.
Qed.

Lemma get_parents_frame uid dl g :
  match get_parents uid dl g with
  | Ok _ g' | Raise _ g' => search_frame g g'
  | Diverge => True
  end.
Proof.
  unfold get_parents, bind, get.
  pose proof (search_networks_frame (queue_size (networks_to_search g))
                uid dl g) as Hs.
  destruct (search_networks _ uid dl g) as [[] g1|e g1|]; [|done..].
  by destruct (ancestors _ _ uid).
Qed.

Lemma get_parents_Ok_frame uid dl g l g' :
  get_parents uid dl g = Ok l g' → search_frame g g'.
Proof. intros Hg. pose proof (get_parents_frame uid dl g). by rewrite Hg in *. Qed.

(** The first loop of [get_parents] always ends: the fuel it is given is
    never used up. *)
Lemma queue_size_app q1 q2 :
  queue_size (q1 ++ q2) = (queue_size q1 + queue_size q2)%nat.
Proof. induction q1; simpl; lia. Qed.

Lemma net_size_network i l ens nodes nets conns :
  net_size (Network i l ens nodes nets conns) = S (queue_size nets).
Proof. reflexivity. Qed.

Lemma queue_size_cons_network i l ens nodes nets conns rest :
  queue_size (Network i l ens nodes nets conns :: rest) =
  S (queue_size nets + queue_size rest).
Proof. reflexivity. Qed.

Lemma net_size_pos v : (1 ≤ net_size v)%nat.
Proof. destruct v; simpl; lia. Qed.

Lemma search_networks_ends fuel uid dl g :
  (queue_size (networks_to_search g) ≤ fuel)%nat →
  search_networks fuel uid dl g ≠ Diverge.
Proof.
  revert g. induction fuel as [|fuel IH]; intros g Hf; simpl;
    destruct (parents g !! uid); try done;
    destruct (networks_to_search g) as [|net rest] eqn:Hq; try done.
  - pose proof (net_size_pos net). simpl in Hf. lia.
  - destruct net; try done. apply IH. simpl.
    rewrite queue_size_app. rewrite queue_size_cons_network in Hf. lia.
Qed.

(** ** _reload_update_item *)

Lemma app_one_neq {A} (l : list A) (x : A) : l ≠ l ++ [x].
Proof.
  intros Heq. apply (f_equal length) in Heq. rewrite length_app in Heq.
  simpl in Heq. lia.
Qed.

(** A call for a connection, by the uids of the normalized endpoints:
    when one of them differs, the read of [known_name] raises before
    [get_parents] is called and before anything is sent. *)
Lemma update_connection g uid old_item new_item nf
    old_pre old_post new_pre new_post :
  isinstance old_item ClsConnection = true →
  normalized_pre old_item = Some old_pre →
  normalized_post old_item = Some old_post →
  normalized_pre new_item = Some new_pre →
  normalized_post new_item = Some new_post →
  _reload_update_item uid old_item new_item nf g =
    if decide (endpoints_differ nf old_pre old_post new_pre new_post)
    then Raise AttributeError g
    else Ok false g.
Proof.
  intros Hc Hop Hopost Hnp Hnpost.
  destruct old_item as [| | | | |oi ol opre opost_obj opost_attr| | | |];
    try done.
  destruct new_item as [| | | | |ni nl npre npost_obj npost_attr| | | |];
    try done.
  unfold normalized_pre, normalized_post in *. simpl in *.
  unfold _reload_update_item. simpl. unfold bind at 1 2 3 4. simpl.
  destruct (rule_to_post_obj opost_obj) as [opost|] eqn:Ho; [|done].
  destruct (rule_to_post_obj npost_obj) as [npost|] eqn:Hn; [|done].
  simpl in *. simplify_eq. unfold bind at 1 2. simpl.
  unfold endpoints_differ. by repeat case_decide.
Qed.

(** ** The reconciliation loop *)

Lemma get_Ok g a g' : get g = Ok a g' ↔ a = g ∧ g' = g.
Proof. unfold get. split; [by intros [= -> ->]|by intros [-> ->]]. Qed.

Lemma update_item_effect uid old_item new_item nf g changed g' :
  _reload_update_item uid old_item new_item nf g = Ok changed g' →
  uids g' = uids g ∧ page g' = page g ∧ written g' = written g ∧
  ∃ evs, to_be_sent g' = to_be_sent g ++ evs ∧
         update_events uid old_item evs.
Proof.
  unfold _reload_update_item, update_events. intros Hr.
  destruct (is_node_ens_net old_item) eqn:Hk.
  - apply bind_Ok in Hr as (g0 & ? & [-> ->]%get_Ok & Hr).
    apply bind_Ok in Hr as (old_label & ? & [_ ->]%lift_exn_Ok & Hr).
    apply bind_Ok in Hr as (new_label & ? & [_ ->]%lift_exn_Ok & Hr).
    apply bind_Ok in Hr as (ch & g1 & Hch & Hr).
    assert (∃ evs, (evs = [] ∨ ∃ name, evs = [EvRename uid name]) ∧
              g1 = set_to_be_sent (to_be_sent g ++ evs) g)
      as (evs & Hevs & ->).
    { case_decide.
      - unfold bind, send, modify, ret in Hch. simplify_eq.
        eexists [_]. split; [right; by eexists|done].
      - unfold ret in Hch. injection Hch as Hc1 Hc2. subst ch g1. exists [].
        split; [by left|]. rewrite app_nil_r. by destruct g. }
    assert (uids g' = uids g ∧ page g' = page g ∧ written g' = written g ∧
            to_be_sent g' = to_be_sent g ++ evs) as (? & ? & ? & ?).
    { destruct (isinstance old_item ClsNetwork);
        [destruct (expanded _)|];
        unfold bind, modify, ret in Hr; simplify_eq; by destruct g. }
    repeat split; try done. exists evs. split; [done|].
    destruct Hevs as [->|?]; [by left|by right].
  - destruct (isinstance old_item ClsConnection) eqn:Hc.
    + apply bind_Ok in Hr as (? & ? & [_ ->]%lift_attr_Ok & Hr).
      apply bind_Ok in Hr as (? & ? & [_ ->]%lift_attr_Ok & Hr).
      apply bind_Ok in Hr as (? & ? & [_ ->]%lift_attr_Ok & Hr).
      apply bind_Ok in Hr as (? & ? & [_ ->]%lift_attr_Ok & Hr).
      apply bind_Ok in Hr as (? & ? & [_ ->]%lift_attr_Ok & Hr).
      apply bind_Ok in Hr as (? & ? & [_ ->]%lift_attr_Ok & Hr).
      case_decide.
      * by apply bind_Ok in Hr as (labels & ? & [[=] _]%lift_exn_Ok & Hr).
      * unfold ret in Hr. simplify_eq. repeat split; try done.
        exists []. rewrite app_nil_r. split; [done|by left].
    + unfold ret in Hr. simplify_eq. repeat split; try done.
      exists []. rewrite app_nil_r. split; [done|by left].
Qed.

Lemma same_class_not_none new_item old_item :
  same_class new_item old_item = true → is_none new_item = false.
Proof. by destruct new_item. Qed.

Lemma stable_resolve nf l uid old_item new_item :
  stable nf l uid old_item new_item →
  resolve_item nf uid l = Some new_item ∧
  keep_object new_item old_item = true.
Proof.
  intros (He & Hn & Hc & Hi). unfold resolve_item, keep_object.
  rewrite He. simpl. rewrite Hn. simpl. rewrite decide_False by (by intros ?).
  split; [done|]. rewrite (same_class_not_none _ _ Hc), Hc. simpl.
  by rewrite decide_False by (by intros ?).
Qed.

Lemma resolve_keep_stable nf l uid old_item r :
  resolve_item nf uid l = Some r →
  keep_object r old_item = true →
  stable nf l uid old_item r.
Proof.
  unfold resolve_item, keep_object, stable. intros Hr Hk.
  destruct (NameFinder_getitem nf (default PyNone (py_eval uid l)))
    as [new_uid|] eqn:Hn; [|done]. simpl in Hr.
  destruct (is_none r) eqn:Hnone; [done|].
  destruct (same_class r old_item) eqn:Hc; [|done]. simpl in Hk.
  case_decide as Hi; [done|].
  case_decide as Hu; simplify_eq.
  destruct (py_eval uid l) as [v|] eqn:He; [|done]. simpl in *.
  by repeat split.
Qed.

(** What one turn of the loop does. *)
Lemma reload_item_effect nf vars u o g vars' g' :
  reload_item nf vars (u, o) g = Ok vars' g' →
  ∃ r, resolve_item nf u (locals (page g)) = Some r ∧
       page g' = page g ∧
       if keep_object r o then
         uids g' = <[u := r]> (uids g) ∧
         removed_uids vars' = removed_uids vars ∧
         (∃ extra, rebuilt_objects vars' = rebuilt_objects vars ++ extra) ∧
         ∃ evs, to_be_sent g' = to_be_sent g ++ evs ∧
                update_events u o evs ∧ update_call nf u o r evs
       else
         uids g' = delete u (uids g) ∧
         to_be_sent g' = to_be_sent g ++ [EvRemove u] ∧
         vars' = mkReloadLocals (<[py_key o := u]> (removed_uids vars))
                                (rebuilt_objects vars ++ [u]).
Proof.
  unfold reload_item. intros Hr.
  apply bind_Ok in Hr as (g0 & ? & [-> ->]%get_Ok & Hr).
  destruct (resolve_item nf u (locals (page g))) as [r|]; [|done].
  exists r. split; [done|].
  destruct (keep_object r o); simpl in Hr.
  - apply bind_Ok in Hr as (changed & g1 & Hup & Hr).
    pose proof Hup as Hcall.
    apply update_item_effect in Hup as (Hu & Hp & _ & evs & Hs & Hev).
    assert (update_call nf u o r evs) as Hcalled by (by exists g, changed, g1).
    clear Hcall. unfold bind, modify, ret in Hr. injection Hr as <- <-.
    destruct g1; simpl in *. subst. repeat split; try done.
    + by destruct changed.
    + destruct changed; [by eexists|]. exists []. by rewrite app_nil_r.
    + by exists evs.
  - apply bind_Ok in Hr as ([] & g1 & Hsend & Hr).
    unfold send, modify in Hsend. injection Hsend as <-.
    apply bind_Ok in Hr as ([] & g2 & Hdel & Hr).
    unfold ret in Hr. injection Hr as <- <-.
    unfold del_uid in Hdel. simpl in Hdel.
    destruct (uids g !! u); [|done]. injection Hdel as <-.
    by destruct g.
Qed.

Lemma update_events_of u o evs : update_events u o evs → events_of [u] evs.
Proof.
  unfold events_of.
  intros [->|(_ & n & ->)]; repeat constructor;
    exists u; split; try done; apply list_elem_of_here.
Qed.

Lemma events_of_mono us us' evs :
  (∀ u, u ∈ us → u ∈ us') → events_of us evs → events_of us' evs.
Proof.
  intros Hsub. unfold events_of. intros Hf.
  eapply Forall_impl; [exact Hf|]. intros e (u & ? & ?). exists u. auto.
Qed.

(** What the turns for a list of items do to the uids that are not in
    that list. *)
Lemma reload_fold_effect nf items vars g vars' g' :
  fold_each items (reload_item nf) vars g = Ok vars' g' →
  page g' = page g ∧
  (∀ k, k ∉ items.*1 → uids g' !! k = uids g !! k) ∧
  (∃ evs, to_be_sent g' = to_be_sent g ++ evs ∧ events_of items.*1 evs) ∧
  ∃ extra, rebuilt_objects vars' = rebuilt_objects vars ++ extra.
Proof.
  revert vars g. induction items as [|[u o] items IH]; intros vars g Hf.
  - simpl in Hf. unfold ret in Hf. injection Hf as <- <-.
    repeat split; try done.
    + exists []. rewrite app_nil_r. split; [done|constructor].
    + exists []. by rewrite app_nil_r.
  - simpl in Hf. apply bind_Ok in Hf as (vars1 & g1 & Hitem & Hf).
    apply IH in Hf as (Hp & Hu & (evs2 & Hs2 & He2) & (ex2 & Hx2)).
    apply reload_item_effect in Hitem as (r & _ & Hp1 & Hcase).
    assert (uids g1 = <[u := r]> (uids g) ∨ uids g1 = delete u (uids g))
      as Huids.
    { destruct (keep_object r o); destruct Hcase as (? & _); auto. }
    assert (∃ evs1, to_be_sent g1 = to_be_sent g ++ evs1 ∧
                    events_of [u] evs1) as (evs1 & Hs1 & He1).
    { destruct (keep_object r o).
      - destruct Hcase as (_ & _ & _ & evs & ? & ?%update_events_of & _).
        by exists evs.
      - destruct Hcase as (_ & ? & _). eexists. split; [done|].
        repeat constructor. exists u. split; [done|apply list_elem_of_here]. }
    assert (∃ ex1, rebuilt_objects vars1 = rebuilt_objects vars ++ ex1)
      as (ex1 & Hx1).
    { destruct (keep_object r o); [by destruct Hcase as (_ & _ & ? & _)|].
      destruct Hcase as (_ & _ & ->). by eexists. }
    repeat split.
    + congruence.
    + intros k Hk. rewrite fmap_cons, not_elem_of_cons in Hk.
      destruct Hk as [Hne Hk]. simpl in Hne. rewrite Hu by done.
      destruct Huids as [->| ->];
        [by rewrite lookup_insert_ne|by rewrite lookup_delete_ne].
    + exists (evs1 ++ evs2). rewrite Hs2, Hs1, app_assoc. split; [done|].
      apply Forall_app. split.
      * eapply events_of_mono; [|exact He1]. intros ? ->%list_elem_of_singleton.
        rewrite fmap_cons. apply list_elem_of_here.
      * eapply events_of_mono; [|exact He2]. intros ? ?.
        rewrite fmap_cons. by apply list_elem_of_further.
    + exists (ex1 ++ ex2). by rewrite Hx2, Hx1, app_assoc.
Qed.

Lemma fold_each_app {A B} (l1 l2 : list A) (body : B → A → M B) acc g :
  fold_each (l1 ++ l2) body acc g =
  (do acc' <- fold_each l1 body acc; fold_each l2 body acc') g.
Proof.
  revert acc g. induction l1 as [|x l1 IH]; intros acc g; simpl; [done|].
  unfold bind. destruct (body acc x g); [|done..]. by rewrite IH.
Qed.

Lemma events_about_others us uid evs :
  events_of us evs → uid ∉ us → events_about uid evs = [].
Proof.
  unfold events_of, events_about. intros Hf Hn.
  induction Hf as [|e evs (u & He & Hu) _ IH]; [done|].
  rewrite filter_cons_False; [done|]. rewrite He. intros [= ->]. done.
Qed.

Lemma events_of_not_elem us uid e evs :
  events_of us evs → uid ∉ us → event_uid e = Some uid → e ∉ evs.
Proof.
  unfold events_of. rewrite Forall_forall. intros Hf Hn He Hin.
  destruct (Hf e Hin) as (u & Hu & ?). congruence.
Qed.

Lemma events_about_update u o evs :
  update_events u o evs → events_about u evs = evs.
Proof.
  unfold events_about.
  intros [->|(_ & n & ->)]; [done|]; by rewrite filter_cons_True.
Qed.

(** The turn of one item among the turns of a list without repeated
    uids. *)
Lemma reload_loop_item nf items vars g vars' g' uid old_item :
  NoDup items.*1 →
  (uid, old_item) ∈ items →
  fold_each items (reload_item nf) vars g = Ok vars' g' →
  ∃ r evs,
    resolve_item nf uid (locals (page g)) = Some r ∧
    events_about uid (new_events g g') = evs ∧
    (∀ e, event_uid e = Some uid → e ∈ new_events g g' → e ∈ evs) ∧
    if keep_object r old_item then
      uids g' !! uid = Some r ∧ update_events uid old_item evs ∧
      update_call nf uid old_item r evs
    else
      uids g' !! uid = None ∧ evs = [EvRemove uid] ∧
      uid ∈ rebuilt_objects vars'.
Proof.
  intros Hnd Hin Hf.
  apply list_elem_of_split in Hin as (l1 & l2 & ->).
  rewrite fmap_app, fmap_cons in Hnd. simpl in Hnd.
  apply NoDup_app in Hnd as (_ & Hn1 & [Hn2 _]%NoDup_cons).
  assert (uid ∉ l1.*1) as Hn1'.
  { intros Hu. apply (Hn1 _ Hu). apply list_elem_of_here. }
  clear Hn1. rewrite fold_each_app in Hf.
  apply bind_Ok in Hf as (vars1 & g1 & Hf1 & Hf). simpl in Hf.
  apply bind_Ok in Hf as (vars2 & g2 & Hitem & Hf2).
  apply reload_fold_effect in Hf1 as (Hp1 & _ & (evs1 & Hs1 & He1) & _).
  apply reload_fold_effect in Hf2 as (_ & Hu2 & (evs2 & Hs2 & He2) & ex2 & Hx2).
  apply reload_item_effect in Hitem as (r & Hres & _ & Hcase).
  rewrite Hp1 in Hres.
  assert (∃ evsI, to_be_sent g2 = to_be_sent g1 ++ evsI ∧
            events_about uid evsI = evsI ∧
            (∀ e, e ∈ evsI → event_uid e = Some uid) ∧
            if keep_object r old_item then
              uids g2 !! uid = Some r ∧ update_events uid old_item evsI ∧
              update_call nf uid old_item r evsI
            else uids g2 !! uid = None ∧ evsI = [EvRemove uid] ∧
                 uid ∈ rebuilt_objects vars2)
    as (evsI & HsI & Hab & Hall & Hcase').
  { destruct (keep_object r old_item).
    - destruct Hcase as (Hu & _ & _ & evs & Hs & Hup & Hcall). exists evs.
      split; [done|]. split; [by eapply events_about_update|].
      split; [|by rewrite Hu, lookup_insert_eq].
      intros e He. apply update_events_of in Hup.
      unfold events_of in Hup. rewrite Forall_forall in Hup.
      destruct (Hup e He) as (u & ? & ->%list_elem_of_singleton). done.
    - destruct Hcase as (Hu & Hs & ->). exists [EvRemove uid].
      split; [done|]. split; [unfold events_about; by rewrite filter_cons_True|].
      split; [by intros e ->%list_elem_of_singleton|].
      rewrite Hu, lookup_delete_eq. repeat split; try done. simpl.
      apply elem_of_app. right. apply list_elem_of_here. }
  assert (new_events g g' = evs1 ++ evsI ++ evs2) as Hnew.
  { unfold new_events. rewrite Hs2, HsI, Hs1, <- !app_assoc.
    by rewrite drop_app_length. }
  exists r, evsI. split; [done|]. split; [|split].
  - rewrite Hnew. unfold events_about. rewrite !filter_app.
    fold (events_about uid evs1) (events_about uid evsI)
         (events_about uid evs2).
    rewrite (events_about_others _ _ _ He1 Hn1'),
            (events_about_others _ _ _ He2 Hn2), Hab.
    by rewrite app_nil_r.
  - intros e Hev. rewrite Hnew, !elem_of_app. intros [Hin|[Hin|Hin]]; [|done|].
    + by apply (events_of_not_elem _ _ _ _ He1 Hn1') in Hin.
    + by apply (events_of_not_elem _ _ _ _ He2 Hn2) in Hin.
  - rewrite (Hu2 uid Hn2). destruct (keep_object r old_item); [done|].
    destruct Hcase' as (? & ? & Hreb). repeat split; try done.
    rewrite Hx2. apply elem_of_app. by left.
Qed.

(** C2, as the code has it: for a connection that the reload keeps, with
    endpoints normalized as the code does (a Neurons handle replaced by
    its ensemble; on the post side a LearningRule handle first replaced by
    the post object of its connection, in one step).  When the uids of
    the normalized endpoints are the same as before, the call of
    [_reload_update_item] returns, sends nothing and changes nothing,
    whatever handles they came from; a call that returns has sent a
    reconnect event only if one of the uids differs.  For the loop of the
    reload, when it returns: the events sent for the uid of a kept
    connection are none when the uids are the same, and one reconnect
    event only if one of them differs. *)
Theorem reconnect_only_if_endpoints_differ (g : NetGraph) (uid : string)
    (old_item new_item : PyVal) (nf : NameFinder)
    (old_pre old_post new_pre new_post : PyVal) :
  isinstance old_item ClsConnection = true →
  normalized_pre old_item = Some old_pre →
  normalized_post old_item = Some old_post →
  normalized_pre new_item = Some new_pre →
  normalized_post new_item = Some new_post →
  let differ := endpoints_differ nf old_pre old_post new_pre new_post in
  (¬ differ → _reload_update_item uid old_item new_item nf g = Ok false g) ∧
  (∀ changed g' pres posts,
     _reload_update_item uid old_item new_item nf g = Ok changed g' →
     to_be_sent g' = to_be_sent g ++ [EvReconnect uid pres posts] →
     differ) ∧
  (∀ vars' g',
     uids g !! uid = Some old_item →
     stable nf (locals (page g)) uid old_item new_item →
     reload_loop nf (map_to_list (uids g)) g = Ok vars' g' →
     (¬ differ → events_about uid (new_events g g') = []) ∧
     ((∃ pres posts,
         events_about uid (new_events g g') = [EvReconnect uid pres posts]) →
      differ)).
Proof.
  intros Hc Hop Hopost Hnp Hnpost differ.
  assert (∀ g0, ¬ differ →
            _reload_update_item uid old_item new_item nf g0 = Ok false g0)
    as Hsame.
  { intros g0 Hn.
    rewrite (update_connection g0 uid old_item new_item nf
               old_pre old_post new_pre new_post) by done.
    fold differ. by rewrite decide_False. }
  split; [by apply Hsame|]. split.
  - intros changed g' pres posts Hr Hsent.
    destruct (decide differ) as [|Hn]; [done|].
    rewrite Hsame in Hr by done. injection Hr as _ <-.
    by apply app_one_neq in Hsent.
  - intros vars' g' Hold Hst Hloop.
    eapply (reload_loop_item nf _ _ g vars' g' uid old_item) in Hloop
      as (r & evs & Hres & Hab & _ & Hcase);
      [|apply NoDup_fst_map_to_list|by apply elem_of_map_to_list].
    apply stable_resolve in Hst as [Hr Hk].
    rewrite Hres in Hr. injection Hr as ->. rewrite Hk in Hcase.
    destruct Hcase as (_ & _ & gi & changed & gi' & Hup & Hsent).
    assert (¬ differ → evs = []) as Hnone.
    { intros Hn. rewrite Hsame in Hup by done. injection Hup as _ <-.
      rewrite <- (app_nil_r (to_be_sent gi)) in Hsent at 1.
      by apply app_inv_head in Hsent. }
    rewrite Hab. split; [done|].
    intros (pres & posts & Hev).
    destruct (decide differ) as [|Hn]; [done|].
    rewrite (Hnone Hn) in Hev. discriminate Hev.
Qed.

(** The loop of the reload for one uid of the previous snapshot, when the
    loop returns: if evaluating the uid gives an object that the new name
    finder names by that uid, of the same one of the four classes and
    with the same helper information, then the uid is bound to the new
    object, no remove event is sent for it, and the events sent for it
    are at most one rename; otherwise the only event sent for it is its
    remove event, the uid is deleted from the snapshot and it is listed
    in [rebuilt_objects]. *)
Lemma reload_identity_stability (nf : NameFinder) (g : NetGraph)
    (uid : string) (old_item : PyVal) (vars' : ReloadLocals) (g' : NetGraph) :
  uids g !! uid = Some old_item →
  reload_loop nf (map_to_list (uids g)) g = Ok vars' g' →
  (∀ new_item, stable nf (locals (page g)) uid old_item new_item →
     uids g' !! uid = Some new_item ∧
     (EvRemove uid ∉ new_events g g') ∧
     update_events uid old_item (events_about uid (new_events g g'))) ∧
  (¬ (∃ new_item, stable nf (locals (page g)) uid old_item new_item) →
     events_about uid (new_events g g') = [EvRemove uid] ∧
     uids g' !! uid = None ∧
     uid ∈ rebuilt_objects vars').
Proof.
  intros Hold Hloop.
  eapply (reload_loop_item nf _ _ g vars' g' uid old_item) in Hloop
    as (r & evs & Hres & Hab & Hall & Hcase);
    [|apply NoDup_fst_map_to_list|by apply elem_of_map_to_list].
  split.
  - intros new_item Hst. apply stable_resolve in Hst as [Hr Hk].
    rewrite Hres in Hr. injection Hr as ->. rewrite Hk in Hcase.
    destruct Hcase as (Hu & Hup & _). rewrite Hab. repeat split; try done.
    intros Hin. apply Hall in Hin; [|done].
    destruct Hup as [->|(_ & n & ->)];
      by repeat (apply elem_of_cons in Hin as [?|Hin]; [done|]);
         apply elem_of_nil in Hin.
  - intros Hns. destruct (keep_object r old_item) eqn:Hk.
    + destruct Hns. exists r. by apply resolve_keep_stable.
    + rewrite Hab. by destruct Hcase as (? & ? & ?).
Qed.

(** ** create_object and create_connection *)

Lemma create_object_known obj type parent g :
  is_Some (uids g !! page_names_uid None obj) →
  create_object obj type parent g = Ok tt g.
Proof.
  intros [v Hv]. unfold create_object, bind, get. by rewrite Hv.
Qed.

Lemma create_connection_known conn parent g :
  is_Some (uids g !! page_names_uid None conn) →
  create_connection conn parent g = Ok tt g.
Proof.
  intros [v Hv]. unfold create_connection, bind, get. by rewrite Hv.
Qed.

Lemma config_update_uids obj f g a g' :
  config_update obj f g = Ok a g' → uids g' = uids g.
Proof. unfold config_update, modify. intros [= <- <-]. by destruct g. Qed.

Lemma create_object_binds obj type parent g g' :
  create_object obj type parent g = Ok tt g' →
  is_Some (uids g' !! page_names_uid None obj).
Proof.
  unfold create_object. intros Hc.
  apply bind_Ok in Hc as (? & ? & [-> ->]%get_Ok & Hc).
  destruct (uids g !! page_names_uid None obj) eqn:Hu.
  { unfold ret in Hc. injection Hc as <-. by rewrite Hu. }
  apply bind_Ok in Hc as (p & g1 & _ & Hc).
  apply bind_Ok in Hc as (? & ? & [-> ->]%get_Ok & Hc).
  apply bind_Ok in Hc as (s & g2 & _ & Hc).
  apply bind_Ok in Hc as (? & ? & [-> ->]%get_Ok & Hc).
  apply bind_Ok in Hc as (l & ? & [_ ->]%lift_exn_Ok & Hc).
  unfold bind, modify, get, write_text in Hc. injection Hc as <-.
  simpl. by rewrite lookup_insert_eq.
Qed.

Lemma create_connection_binds conn parent g g' :
  create_connection conn parent g = Ok tt g' →
  is_Some (uids g' !! page_names_uid None conn).
Proof.
  unfold create_connection. intros Hc.
  apply bind_Ok in Hc as (? & ? & [-> ->]%get_Ok & Hc).
  destruct (uids g !! page_names_uid None conn) eqn:Hu.
  { unfold ret in Hc. injection Hc as <-. by rewrite Hu. }
  apply bind_Ok in Hc as (? & ? & [_ ->]%lift_attr_Ok & Hc).
  apply bind_Ok in Hc as (? & ? & [_ ->]%lift_attr_Ok & Hc).
  apply bind_Ok in Hc as (? & ? & [_ ->]%lift_attr_Ok & Hc).
  apply bind_Ok in Hc as ([] & g1 & Hm & Hc).
  unfold modify in Hm. injection Hm as <-.
  apply bind_Ok in Hc as (pres & g2 & Hg2 & Hc).
  apply bind_Ok in Hc as (posts & g3 & Hg3 & Hc).
  apply get_parents_Ok_frame, search_frame_fields in Hg2 as (Hu2 & _).
  apply get_parents_Ok_frame, search_frame_fields in Hg3 as (Hu3 & _).
  unfold write_text, modify in Hc. injection Hc as <-. simpl.
  rewrite Hu3, Hu2. simpl. by rewrite lookup_insert_eq.
Qed.

(** C10: for an object, or a connection, whose uid is a key of the
    snapshot, [create_object], respectively [create_connection], returns
    at once and changes nothing (no message written, the snapshot, the
    configuration and the parents as before); so a second call after a
    call that returned changes nothing. *)
Theorem create_known_uid_is_noop (g : NetGraph) (obj : PyVal)
    (type : string) (parent : option string) :
  (is_Some (uids g !! page_names_uid None obj) →
   create_object obj type parent g = Ok tt g ∧
   create_connection obj parent g = Ok tt g) ∧
  (∀ g', create_object obj type parent g = Ok tt g' →
         create_object obj type parent g' = Ok tt g') ∧
  (∀ g', create_connection obj parent g = Ok tt g' →
         create_connection obj parent g' = Ok tt g').
Proof.
  repeat split.
  - by apply create_object_known.
  - by apply create_connection_known.
  - intros g' Hc. eapply create_object_known, create_object_binds, Hc.
  - intros g' Hc. eapply create_connection_known, create_connection_binds, Hc.
Qed.

(** ** The second loop of get_parents

    The walk up the parents ends within as many turns as the dictionary
    has keys, or not at all: the fuel that [get_parents] gives it is
    enough whenever some fuel is. *)

Lemma ancestors_more_fuel n (ps : gmap string string) k l m :
  ancestors n ps k = Some l → (length l ≤ m)%nat → ancestors m ps k = Some l.
Proof.
  revert k l m. induction n as [|n IH]; intros k l m; simpl.
  - destruct (ps !! k) eqn:Hk; [done|]. intros [= <-] _.
    destruct m; simpl; by rewrite Hk.
  - destruct (ps !! k) as [p|] eqn:Hk.
    + destruct (ancestors n ps p) as [l'|] eqn:Hp; [|done].
      simpl. intros [= <-] Hm. destruct m as [|m]; [simpl in Hm; lia|].
      simpl. rewrite Hk. rewrite (IH p l' m); [done..|simpl in Hm; lia].
    + intros [= <-] _. destruct m; simpl; by rewrite Hk.
Qed.

Lemma ancestors_deterministic n m (ps : gmap string string) k l l' :
  ancestors n ps k = Some l → ancestors m ps k = Some l' → l = l'.
Proof.
  intros Hn Hm.
  apply (ancestors_more_fuel _ _ _ _ (length l + length l')) in Hn; [|lia].
  apply (ancestors_more_fuel _ _ _ _ (length l + length l')) in Hm; [|lia].
  congruence.
Qed.

(** A walk that ends does not come back to the key it started from. *)
Lemma ancestors_delete_start N n (ps : gmap string string) k lk c lc :
  ancestors N ps k = Some lk →
  ancestors n ps c = Some lc →
  (length lc < length lk)%nat →
  ancestors n (delete k ps) c = Some lc.
Proof.
  intros Hk. revert c lc. induction n as [|n IH]; intros c lc; simpl.
  - destruct (ps !! c) eqn:Hc; [done|]. intros [= <-] _.
    assert (delete k ps !! c = None) as ->; [|done].
    apply lookup_delete_None. by right.
  - destruct (ps !! c) as [q|] eqn:Hc.
    + destruct (ancestors n ps q) as [lq|] eqn:Hq; [|done].
      simpl. intros [= <-] Hlen. simpl in Hlen.
      assert (c ≠ k) as Hne.
      { intros ->.
        assert (ancestors (S n) ps k = Some (q :: lq)) as Hk'.
        { simpl. by rewrite Hc, Hq. }
        pose proof (ancestors_deterministic _ _ _ _ _ _ Hk Hk') as ->.
        simpl in Hlen. lia. }
      rewrite lookup_delete_ne by done. rewrite Hc.
      rewrite (IH q lq); [done..|lia].
    + intros [= <-] _.
      assert (delete k ps !! c = None) as ->; [|done].
      apply lookup_delete_None. by right.
Qed.

Lemma ancestors_length n (ps : gmap string string) k l :
  ancestors n ps k = Some l → (length l ≤ size ps)%nat.
Proof.
  revert ps k l. induction n as [|n IH]; intros ps k l Hw.
  - simpl in Hw. destruct (ps !! k); [done|]. injection Hw as <-. simpl. lia.
  - pose proof Hw as Hw'. simpl in Hw.
    destruct (ps !! k) as [p|] eqn:Hk; [|injection Hw as <-; simpl; lia].
    destruct (ancestors n ps p) as [l'|] eqn:Hp; [|done].
    simpl in Hw. injection Hw as <-.
    apply (ancestors_delete_start _ _ _ _ _ _ _ Hw') in Hp; [|simpl; lia].
    apply IH in Hp. rewrite map_size_delete, Hk in Hp. simpl.
    assert (size ps ≠ 0)%nat; [|lia].
    intros ->%map_size_empty_iff. by rewrite lookup_empty in Hk.
Qed.

Lemma ancestors_fuel_enough n (ps : gmap string string) k l :
  ancestors n ps k = Some l → ancestors (size ps) ps k = Some l.
Proof.
  intros Hw. eapply ancestors_more_fuel; [exact Hw|].
  by eapply ancestors_length.
Qed.

(** [get_parents] never runs out of the fuel of its first loop, and the
    fuel of its second loop runs out only for a walk that no fuel ends. *)
Lemma get_parents_diverges uid dl g :
  get_parents uid dl g = Diverge →
  ∃ g1, search_networks (queue_size (networks_to_search g)) uid dl g
          = Ok tt g1 ∧
        ∀ n, ancestors n (parents g1) uid = None.
Proof.
  unfold get_parents, bind, get. intros Hd.
  pose proof (search_networks_ends (queue_size (networks_to_search g))
                uid dl g (le_n _)) as Hends.
  destruct (search_networks _ uid dl g) as [[] g1|e g1|]; [|done..].
  exists g1. split; [done|]. intros n.
  destruct (ancestors (size (parents g1)) (parents g1) uid) eqn:Hs; [done|].
  destruct (ancestors n (parents g1) uid) eqn:Hn; [|done].
  apply ancestors_fuel_enough in Hn. congruence.
Qed.

End Properties.

(** * Further properties

    Properties of [NameFinder.add], [label], [_parse_network] and
    [update], of [get_parents], [remove_uids], [act_collapse],
    [create_object], [expand_network], [undo] and [redo], [execute],
    [load], the loop of [_reload], [_reload_update_item], [act_pan] and
    [act_zoom]. *)

Section MoreProperties.
Context `{Externals} `{Introspection}.

(** ** NameFinder.add *)

Lemma auto_name_inj prefix a b :
  auto_name prefix a = auto_name prefix b → a = b.
Proof.
  unfold auto_name. intros Heq. apply (inj (String.app prefix)) in Heq.
  by apply (inj pretty) in Heq.
Qed.

(** The search for an unused count ends when the fuel covers the used
    names that are still ahead. *)
Lemma first_unused_ends fuel prefix used count (S : gset string) :
  (∀ c, (count ≤ c)%nat → auto_name prefix c ∈ used →
        auto_name prefix c ∈ S) →
  (size S ≤ fuel)%nat →
  ∃ c, first_unused fuel prefix used count = Some c.
Proof.
  revert count S. induction fuel as [|fuel IH]; intros count S Hin Hsize;
    simpl; case_decide as Hused; try by eexists.
  - apply Hin in Hused; [|lia].
    assert (size S = 0)%nat as Hz by lia.
    apply size_empty_iff in Hz. set_solver.
  - apply (IH (Datatypes.S count) (S ∖ {[auto_name prefix count]})).
    + intros c Hc Hu. apply elem_of_difference. split; [apply Hin; [lia|done]|].
      intros ->%elem_of_singleton%auto_name_inj. lia.
    + apply Hin in Hused; [|lia].
      rewrite size_difference by set_solver. rewrite size_singleton.
      assert (size S ≠ 0)%nat; [|lia].
      intros Hz%size_empty_iff. set_solver.
Qed.

Lemma first_unused_spec fuel prefix used count c :
  first_unused fuel prefix used count = Some c →
  (count ≤ c)%nat ∧ (auto_name prefix c ∉ used) ∧
  ∀ c', (count ≤ c' < c)%nat → auto_name prefix c' ∈ used.
Proof.
  revert count. induction fuel as [|fuel IH]; intros count; simpl;
    case_decide as Hused; try done.
  - intros [= <-]. repeat split; [lia|done|intros; lia].
  - intros (Hle & Hfree & Hbelow)%IH. repeat split; [lia|done|].
    intros c' Hc'. destruct (decide (c' = count)) as [->|Hne]; [done|].
    apply Hbelow. lia.
  - intros [= <-]. repeat split; [lia|done|intros; lia].
Qed.

Lemma size_list_to_set_le (l : list string) :
  (size (list_to_set l : gset string) ≤ length l)%nat.
Proof.
  induction l as [|x l IH]; [done|].
  rewrite list_to_set_cons, size_union_alt, size_singleton. simpl.
  assert (size (list_to_set l ∖ {[x]} : gset string) ≤
          size (list_to_set l : gset string))%nat as Hs
    by (by apply subseteq_size, subseteq_difference_l).
  lia.
Qed.

Lemma NameFinder_add_returns nf obj :
  ∃ name nf', NameFinder_add nf obj = Some (name, nf').
Proof.
  unfold NameFinder_add.
  destruct (first_unused_ends (length (used_names nf)) (autoprefix nf)
              (used_names nf) (autocount nf) (list_to_set (used_names nf)))
    as [c Hc].
  - intros c _ Hu. by apply elem_of_list_to_set.
  - apply size_list_to_set_le.
  - rewrite Hc. simpl. by do 2 eexists.
Qed.

Lemma elem_of_used_names nf name :
  name ∈ used_names nf ↔ ∃ k, names nf !! k = Some name.
Proof.
  unfold used_names. rewrite list_elem_of_fmap. split.
  - intros ([k n] & -> & Hin%elem_of_map_to_list). by exists k.
  - intros [k Hk]. exists (k, name). split; [done|].
    by apply elem_of_map_to_list.
Qed.

(** X1.  [add] always returns.  The name it returns is the prefix
    followed by a count that is not below the counter, it is the name of
    no object before the call, and every count it skipped is in use; after
    the call the object has that name and no other object has it, and the
    names of the other objects are as before. *)
Theorem NameFinder_add_fresh (nf : NameFinder) (obj : PyVal) :
  ∃ name nf' count,
    NameFinder_add nf obj = Some (name, nf') ∧
    name = auto_name (autoprefix nf) count ∧
    (autocount nf ≤ count)%nat ∧ autocount nf' = count ∧
    (∀ c, (autocount nf ≤ c < count)%nat →
          auto_name (autoprefix nf) c ∈ used_names nf) ∧
    (name ∉ used_names nf) ∧
    NameFinder_getitem nf' obj = Some name ∧
    (∀ k, names nf' !! k = Some name → k = py_key obj) ∧
    (∀ k, k ≠ py_key obj → names nf' !! k = names nf !! k).
Proof.
  destruct (NameFinder_add_returns nf obj) as (name & nf' & Hadd).
  pose proof Hadd as Hadd'. unfold NameFinder_add in Hadd'.
  destruct (first_unused _ _ _ _) as [count|] eqn:Hc; [|done].
  simpl in Hadd'. injection Hadd' as <- <-.
  apply first_unused_spec in Hc as (Hle & Hfree & Hbelow).
  eexists _, _, count. split; [exact Hadd|]. split; [done|].
  split; [done|]. split; [done|]. split; [done|]. split; [done|].
  split; [|split].
  - unfold NameFinder_getitem. simpl. by rewrite lookup_insert_eq.
  - intros k Hk. simpl in Hk. destruct (decide (k = py_key obj)); [done|].
    rewrite lookup_insert_ne in Hk by done.
    destruct Hfree. apply elem_of_used_names. by exists k.
  - intros k Hk. simpl. by rewrite lookup_insert_ne.
Qed.

(** X2.  Two calls of [add] in a row return different names; when the
    two objects differ, each has its own name afterwards. *)
Theorem NameFinder_add_twice (nf nf1 nf2 : NameFinder) (o1 o2 : PyVal)
    (n1 n2 : string) :
  NameFinder_add nf o1 = Some (n1, nf1) →
  NameFinder_add nf1 o2 = Some (n2, nf2) →
  n1 ≠ n2 ∧
  NameFinder_getitem nf2 o2 = Some n2 ∧
  (py_key o1 ≠ py_key o2 → NameFinder_getitem nf2 o1 = Some n1) ∧
  (py_key o1 = py_key o2 → NameFinder_getitem nf2 o1 = Some n2).
Proof.
  intros H1 H2.
  assert (names nf1 !! py_key o1 = Some n1) as Hn1.
  { unfold NameFinder_add in H1.
    destruct (first_unused _ _ _ _); [|done]. simpl in H1.
    injection H1 as <- <-. simpl. by rewrite lookup_insert_eq. }
  unfold NameFinder_add in H2.
  destruct (first_unused _ _ _ _) as [c|] eqn:Hc; [|done]. simpl in H2.
  injection H2 as <- <-.
  apply first_unused_spec in Hc as (_ & Hfree & _).
  unfold NameFinder_getitem. simpl. split; [|split; [|split]].
  - intros ->. destruct Hfree. apply elem_of_used_names. by eexists.
  - by rewrite lookup_insert_eq.
  - intros Hne. by rewrite lookup_insert_ne.
  - intros ->. by rewrite lookup_insert_eq.
Qed.

(** ** NameFinder.label *)

Lemma after_last_dot_None s :
  after_last_dot s = None ↔ has_dot s = false.
Proof.
  induction s as [|c s IH]; simpl; [done|].
  destruct (after_last_dot s) as [t|].
  - split; [done|]. intros [_ Hs]%orb_false_iff. apply IH in Hs. done.
  - destruct (Ascii.eqb c "."); simpl; [done|]. split; [|done].
    intros _. by apply IH.
Qed.

Lemma after_last_dot_Some s t :
  after_last_dot s = Some t →
  has_dot t = false ∧ ∃ p, s = p +:+ "." +:+ t.
Proof.
  revert t. induction s as [|c s IH]; intros t; simpl; [done|].
  destruct (after_last_dot s) as [t'|] eqn:Hs.
  - intros [= <-]. destruct (IH t' eq_refl) as (Hd & p & ->).
    split; [done|]. by exists (String c p).
  - destruct (Ascii.eqb c ".") eqn:Hc; [|done]. intros [= <-].
    apply after_last_dot_None in Hs. split; [done|].
    apply Ascii.eqb_eq in Hc as ->. by exists EmptyString.
Qed.

(** X3.  What [label] returns or raises: AttributeError for an object
    without the attribute [label], KeyError for an object with label None
    and no name; a label that is set is returned as it is; otherwise the
    result is the name of the object when that has no dot, and the part of
    the name after its last dot when it has one. *)
Theorem NameFinder_label_last_segment (nf : NameFinder) (obj : PyVal) :
  match NameFinder_label nf obj with
  | inl AttributeError => get_label obj = None
  | inl KeyError =>
      get_label obj = Some None ∧ names nf !! py_key obj = None
  | inl _ => False
  | inr l =>
      get_label obj = Some (Some l) ∨
      (get_label obj = Some None ∧
       ∃ name, names nf !! py_key obj = Some name ∧
               has_dot l = false ∧
               ((has_dot name = false ∧ l = name) ∨
                ∃ p, name = p +:+ "." +:+ l))
  end.
Proof.
  unfold NameFinder_label.
  destruct (get_label obj) as [[l|]|]; [by left| |done].
  destruct (names nf !! py_key obj) as [name|]; [|done].
  destruct (after_last_dot name) as [t|] eqn:Hn.
  - apply after_last_dot_Some in Hn as (? & p & ->).
    right. split; [done|]. eexists. split; [done|]. split; [done|].
    right. by exists p.
  - apply after_last_dot_None in Hn.
    right. split; [done|]. exists name. split; [done|]. split; [done|].
    by left.
Qed.

(** ** Induction on the nesting of networks *)

Lemma net_size_elem sub nets :
  sub ∈ nets → (net_size sub ≤ queue_size nets)%nat.
Proof.
  induction 1 as [|x y l _ IH]; simpl; lia.
Qed.

Lemma network_ind (P : PyVal → Prop) :
  (∀ net, (∀ sub, sub ∈ subnetworks net → P sub) → P net) →
  ∀ net, P net.
Proof.
  intros Hstep net.
  assert (∀ n net, (net_size net ≤ n)%nat → P net) as Hall;
    [|by apply (Hall (net_size net))].
  clear net. induction n as [|n IH]; intros net Hn.
  - pose proof (net_size_pos net). lia.
  - apply Hstep. intros sub Hsub. apply IH.
    destruct net; simpl in Hsub; try by apply elem_of_nil in Hsub.
    rewrite net_size_network in Hn. apply net_size_elem in Hsub. lia.
Qed.

(** ** NameFinder._parse_network and NameFinder.update *)

Lemma extends_refl nf : extends nf nf.
Proof. by repeat split. Qed.

Lemma extends_trans nf1 nf2 nf3 :
  extends nf1 nf2 → extends nf2 nf3 → extends nf1 nf3.
Proof.
  intros (? & ? & ?) (? & ? & ?). repeat split;
    [by etrans|congruence..].
Qed.

Lemma extends_named nf nf' v : extends nf nf' → named nf v → named nf' v.
Proof.
  intros [Hsub _] [name Hv]. exists name.
  by eapply lookup_weaken.
Qed.

Lemma name_if_absent_extends obj name nf :
  extends nf (name_if_absent obj name nf) ∧
  named (name_if_absent obj name nf) obj.
Proof.
  unfold name_if_absent, named.
  destruct (names nf !! py_key obj) as [old|] eqn:Hk.
  - split; [apply extends_refl|]. rewrite Hk. by eexists.
  - split; [|simpl; rewrite lookup_insert_eq; by eexists].
    repeat split. simpl. by apply insert_subseteq.
Qed.

Lemma name_list_extends net_name attr i l nf :
  extends nf (name_list net_name attr i l nf) ∧
  ∀ v, v ∈ l → named (name_list net_name attr i l nf) v.
Proof.
  revert i nf. induction l as [|obj l IH]; intros i nf; simpl.
  - split; [apply extends_refl|]. by intros v ?%elem_of_nil.
  - destruct (name_if_absent_extends obj (indexed_name net_name attr i) nf)
      as [He Hn].
    destruct (IH (S i) (name_if_absent obj (indexed_name net_name attr i) nf))
      as [He' Hn'].
    split; [by eapply extends_trans|].
    intros v [->|Hv]%elem_of_cons; [|by apply Hn'].
    by eapply extends_named.
Qed.

Lemma name_elems_spec net_name attr i l nf :
  match name_elems net_name attr i l nf with
  | Ok _ nf' => extends nf nf' ∧ Unhashable ∉ l
  | Raise e nf' => extends nf nf' ∧ e = TypeError ∧ Unhashable ∈ l
  | Diverge => False
  end.
Proof.
  revert i nf. induction l as [|[obj|] l IH]; intros i nf; simpl.
  - split; [apply extends_refl|apply not_elem_of_nil].
  - destruct (name_if_absent_extends obj (indexed_name net_name attr i) nf)
      as [He _].
    specialize (IH (S i)
                  (name_if_absent obj (indexed_name net_name attr i) nf)).
    destruct (name_elems _ _ _ _ _) as [[] nf'|e nf'|]; [| |done].
    + destruct IH as [He' Hno]. split; [by eapply extends_trans|].
      by intros [[=]|?]%elem_of_cons.
    + destruct IH as (He' & -> & Hin). split; [by eapply extends_trans|].
      split; [done|]. by apply list_elem_of_further.
  - split; [apply extends_refl|]. split; [done|apply list_elem_of_here].
Qed.

Lemma name_attr_spec net_name nf (a : string * Attr) :
  match name_attr net_name nf a with
  | Ok _ nf' => extends nf nf' ∧ hashable_lists [a]
  | Raise e nf' => extends nf nf' ∧ e = TypeError ∧ ¬ hashable_lists [a]
  | Diverge => False
  end.
Proof.
  unfold name_attr, hashable_lists. destruct a as [name [l|v]]; simpl.
  - destruct (is_private name) eqn:Hp; simpl.
    { split; [apply extends_refl|].
      intros a l' [= -> ->]%list_elem_of_singleton. congruence. }
    case_bool_decide as Hi; simpl.
    { split; [apply extends_refl|].
      by intros a l' [= -> ->]%list_elem_of_singleton. }
    pose proof (name_elems_spec net_name name 0 l nf) as Hl.
    destruct (name_elems _ _ _ _ _) as [[] nf'|e nf'|]; [| |done].
    + destruct Hl as [He Hno]. split; [done|].
      by intros a l' [= -> ->]%list_elem_of_singleton.
    + destruct Hl as (He & -> & Hin). split; [done|]. split; [done|].
      intros Hall. by apply (Hall name l); [apply list_elem_of_here|..].
  - assert (∀ P : Elem → Prop, ∀ a l,
              (a, AttrList l) ∈ [(name, AttrValue v)] → P Unhashable) as Hno
      by (by intros P a l [=]%list_elem_of_singleton).
    destruct (_ || _); [|destruct (in_CLASSES v)];
      (split; [try apply extends_refl; apply name_if_absent_extends|]);
      intros a l Hin; by apply (Hno (λ _, _ → _ → Unhashable ∉ l) a l).
Qed.

Lemma hashable_lists_cons a attrs :
  hashable_lists (a :: attrs) ↔ hashable_lists [a] ∧ hashable_lists attrs.
Proof.
  unfold hashable_lists. split.
  - intros Hall. split; intros n l Hin; apply Hall.
    + apply list_elem_of_singleton in Hin as ->. apply list_elem_of_here.
    + by apply list_elem_of_further.
  - intros [Ha Hl] n l [Heq|Hin]%elem_of_cons.
    + subst a. apply Ha, list_elem_of_here.
    + by apply Hl.
Qed.

Lemma name_attrs_spec net_name attrs nf :
  match name_attrs net_name attrs nf with
  | Ok _ nf' => extends nf nf' ∧ hashable_lists attrs
  | Raise e nf' => extends nf nf' ∧ e = TypeError ∧ ¬ hashable_lists attrs
  | Diverge => False
  end.
Proof.
  revert nf. induction attrs as [|a attrs IH]; intros nf; simpl.
  - split; [apply extends_refl|]. by intros a l ?%elem_of_nil.
  - pose proof (name_attr_spec net_name nf a) as Ha.
    destruct (name_attr net_name nf a) as [[] nf1|e nf1|]; [| |done].
    + destruct Ha as [He Hh]. specialize (IH nf1).
      destruct (name_attrs net_name attrs nf1) as [[] nf2|e nf2|]; [| |done].
      * destruct IH as [He' Hh']. split; [by eapply extends_trans|].
        by apply hashable_lists_cons.
      * destruct IH as (He' & -> & Hno). split; [by eapply extends_trans|].
        split; [done|]. by intros [_ ?]%hashable_lists_cons.
    + destruct Ha as (He & -> & Hno). split; [done|]. split; [done|].
      by intros [? _]%hashable_lists_cons.
Qed.

Lemma _parse_network_eq net nf :
  _parse_network net nf =
  let net_name := default "None" (names nf !! py_key net) in
  match name_attrs net_name (dir_attrs net) nf with
  | Ok _ nf0 =>
      match net with
      | Network _ _ _ _ networks _ =>
          parse_networks networks (named_lists net net_name nf0)
      | _ => Raise AttributeError nf0
      end
  | r => r
  end.
Proof.
  destruct net; simpl; by destruct (name_attrs _ _ _).
Qed.

Lemma named_lists_extends net net_name nf :
  extends nf (named_lists net net_name nf) ∧
  ∀ v, v ∈ children net → named (named_lists net net_name nf) v.
Proof.
  unfold named_lists.
  destruct net; try (split; [apply extends_refl|by intros v ?%elem_of_nil]).
  destruct (name_list_extends net_name "ensembles" 0 ensembles nf)
    as [H1 N1].
  set (nf1 := name_list net_name "ensembles" 0 ensembles nf) in *.
  destruct (name_list_extends net_name "nodes" 0 nodes nf1) as [H2 N2].
  set (nf2 := name_list net_name "nodes" 0 nodes nf1) in *.
  destruct (name_list_extends net_name "connections" 0 connections nf2)
    as [H3 N3].
  set (nf3 := name_list net_name "connections" 0 connections nf2) in *.
  destruct (name_list_extends net_name "networks" 0 networks nf3)
    as [H4 N4].
  split.
  - eauto using extends_trans.
  - intros v Hv. simpl in Hv. rewrite !elem_of_app in Hv.
    destruct Hv as [Hv|[Hv|[Hv|Hv]]]; eauto 6 using extends_named, extends_trans.
Qed.

Lemma parse_networks_parsed nets nf :
  (∀ sub, sub ∈ nets → ∀ nf, parsed sub nf (_parse_network sub nf)) →
  match parse_networks nets nf with
  | Ok _ nf' =>
      extends nf nf' ∧ Forall parses nets ∧
      ∀ sub v, sub ∈ nets → inside v sub → named nf' v
  | Raise e nf' =>
      extends nf nf' ∧ ¬ Forall parses nets ∧
      (e = AttributeError ∧ ¬ Forall networks_only nets ∨ e = TypeError)
  | Diverge => False
  end.
Proof.
  revert nf. induction nets as [|n l IH]; intros nf Hall; simpl.
  - split; [apply extends_refl|]. split; [done|].
    by intros sub v ?%elem_of_nil.
  - pose proof (Hall n (list_elem_of_here _ _) nf) as Hn.
    destruct (_parse_network n nf) as [[] nf1|e nf1|]; simpl in Hn; [| |done].
    + destruct Hn as (He & Hnet & Hin).
      specialize (IH nf1 (λ sub Hs, Hall sub (list_elem_of_further _ _ _ Hs))).
      destruct (parse_networks l nf1) as [[] nf2|e nf2|]; [| |done].
      * destruct IH as (He' & Hnets & Hin').
        split; [by eapply extends_trans|]. split; [by constructor|].
        intros sub v [->|Hs]%elem_of_cons Hv; [|by eapply Hin'].
        eapply extends_named; [exact He'|by apply Hin].
      * destruct IH as (He' & Hno & He2). split; [by eapply extends_trans|].
        split; [by intros [_ ?]%Forall_cons|].
        destruct He2 as [[-> Hnn]| ->]; [left|by right].
        split; [done|]. by intros [_ ?]%Forall_cons.
    + destruct Hn as (He & Hno & He2). split; [done|].
      split; [by intros [? _]%Forall_cons|].
      destruct He2 as [[-> Hnn]| ->]; [left|by right].
      split; [done|]. by intros [? _]%Forall_cons.
Qed.

Lemma _parse_network_parsed net nf : parsed net nf (_parse_network net nf).
Proof.
  revert nf. induction net as [net IH] using network_ind. intros nf.
  rewrite _parse_network_eq. cbv zeta.
  set (net_name := default "None" (names nf !! py_key net)).
  pose proof (name_attrs_spec net_name (dir_attrs net) nf) as Hd.
  destruct (name_attrs net_name (dir_attrs net) nf) as [[] nf0|e nf0|];
    [| |done].
  - destruct Hd as [He0 Hh].
    destruct (named_lists_extends net net_name nf0) as [He Hn].
    destruct net;
      try (simpl; split; [done|]; split; [by inversion 1|]; left;
           split; [done|by inversion 1]).
    pose proof (parse_networks_parsed networks
                  (named_lists (Network oid label ensembles nodes networks
                                  connections) net_name nf0) IH) as Hp.
    destruct (parse_networks networks _) as [[] nf'|e nf'|]; simpl;
      [| |done].
    + destruct Hp as (He' & Hnets & Hin).
      split; [eauto using extends_trans|]. split; [by constructor|].
      intros v Hv. inversion Hv as [? ? Hc|? sub ? Hs Hi]; subst.
      * eapply extends_named; [exact He'|by apply Hn].
      * by eapply Hin.
    + destruct Hp as (He' & Hno & He2).
      split; [eauto using extends_trans|]. split; [by inversion 1|].
      destruct He2 as [[-> Hnn]| ->]; [left|by right].
      split; [done|]. by inversion 1.
  - destruct Hd as (He0 & -> & Hno). simpl. split; [done|].
    split; [by inversion 1; subst|by right].
Qed.

(** X4.  [_parse_network] always ends, and whether it returns or raises
    it renames nothing: every object that had a name before has the same
    name afterwards, and the prefix and the counter of generated names are
    as before. *)
Theorem _parse_network_keeps_names (net : PyVal) (nf : NameFinder) :
  ∃ nf', final (_parse_network net nf) = Some nf' ∧
         (∀ obj name, NameFinder_getitem nf obj = Some name →
                      NameFinder_getitem nf' obj = Some name) ∧
         autoprefix nf' = autoprefix nf ∧ autocount nf' = autocount nf.
Proof.
  pose proof (_parse_network_parsed net nf) as Hp.
  destruct (_parse_network net nf) as [[] nf'|e nf'|]; simpl in *; [| |done].
  - destruct Hp as ((Hsub & ? & ?) & _). exists nf'. repeat split; try done.
    intros obj name Hl. unfold NameFinder_getitem in *. by eapply lookup_weaken.
  - destruct Hp as ((Hsub & ? & ?) & _). exists nf'. repeat split; try done.
    intros obj name Hl. unfold NameFinder_getitem in *. by eapply lookup_weaken.
Qed.

(** X5.  [_parse_network] always ends.  It returns exactly when, at
    every depth, every entry of a list of sub-networks is a Network and
    the public lists that [dir] finds on it hold only elements that can
    be hashed; every member of the network and of the networks below it
    then has a name.  Otherwise it raises: AttributeError only when an
    entry of a list of sub-networks is not a Network, and else
    TypeError, at an element that cannot be hashed. *)
Theorem _parse_network_names_members (net : PyVal) (nf : NameFinder) :
  match _parse_network net nf with
  | Ok _ nf' =>
      parses net ∧
      ∀ v, inside v net → is_Some (NameFinder_getitem nf' v)
  | Raise e _ =>
      ¬ parses net ∧
      (e = AttributeError ∧ ¬ networks_only net ∨ e = TypeError)
  | Diverge => False
  end.
Proof.
  pose proof (_parse_network_parsed net nf) as Hp.
  destruct (_parse_network net nf) as [[] nf'|e nf'|]; simpl in *; [| |done].
  - by destruct Hp as (_ & Hnet & Hin).
  - by destruct Hp as (_ & Hno & He).
Qed.

Lemma parse_networks_extends nets nf :
  ∃ nf', final (parse_networks nets nf) = Some nf' ∧ extends nf nf'.
Proof.
  pose proof (parse_networks_parsed nets nf
                (λ sub _ nf, _parse_network_parsed sub nf)) as Hp.
  destruct (parse_networks nets nf) as [[] nf'|e nf'|]; [| |done];
    exists nf'; split; try done; by destruct Hp.
Qed.

Lemma foldl_set_name_autocount items nf :
  autocount (foldl (λ nf (kv : string * PyVal), set_name kv.2 kv.1 nf)
               nf items) = autocount nf.
Proof. revert nf. induction items as [|x l IH]; intros nf; simpl; [done|]. by rewrite IH. Qed.

Lemma foldl_set_name_unique (items : list (string * PyVal)) nf k v :
  (k, v) ∈ items →
  (∀ k' v', (k', v') ∈ items → py_key v' = py_key v → k' = k) →
  names (foldl (λ nf (kv : string * PyVal), set_name kv.2 kv.1 nf) nf items)
    !! py_key v = Some k.
Proof.
  induction items as [|[k' v'] l IH] using rev_ind; intros Hin Huniq.
  - by apply elem_of_nil in Hin.
  - rewrite foldl_snoc. simpl.
    destruct (decide (py_key v' = py_key v)) as [Heq|Hne].
    + rewrite Heq, lookup_insert_eq. f_equal.
      apply (Huniq k' v'); [|done]. apply elem_of_app. right.
      apply list_elem_of_here.
    + rewrite lookup_insert_ne by done. apply IH.
      * apply elem_of_app in Hin as [Hin|Hin%list_elem_of_singleton]; [done|].
        by injection Hin as -> ->.
      * intros k2 v2 Hin2. apply Huniq. apply elem_of_app. by left.
Qed.

(** X6.  [update] always ends, and after it, returned or raised, an
    object bound to a name that does not start with an underscore, and to
    no other such name, is named by that name: the name of a top-level
    binding wins over the names that the parse of the networks would
    derive. *)
Theorem NameFinder_update_top_level (bindings : Locals) (nf : NameFinder)
    (k : string) (v : PyVal) :
  bindings !! k = Some v →
  is_private k = false →
  (∀ k' v', bindings !! k' = Some v' → is_private k' = false →
            py_key v' = py_key v → k' = k) →
  ∃ nf', final (NameFinder_update bindings nf) = Some nf' ∧
         NameFinder_getitem nf' v = Some k ∧
         autocount nf' = autocount nf.
Proof.
  intros Hk Hpub Huniq. unfold NameFinder_update.
  set (items := filter (λ kv : string * PyVal, is_private kv.1 = false)
                  (map_to_list bindings)).
  set (nf1 := foldl (λ nf (kv : string * PyVal), set_name kv.2 kv.1 nf)
                nf items).
  destruct (parse_networks_extends
              (filter (λ v, isinstance v ClsNetwork = true) items.*2) nf1)
    as (nf' & Hfin & Hsub & _ & Hcount).
  exists nf'. split; [done|]. split.
  - unfold NameFinder_getitem. eapply lookup_weaken; [|exact Hsub].
    apply foldl_set_name_unique.
    + apply list_elem_of_filter. split; [done|].
      by apply elem_of_map_to_list.
    + intros k' v' [Hp Hin%elem_of_map_to_list]%list_elem_of_filter.
      by apply Huniq.
  - rewrite Hcount. apply foldl_set_name_autocount.
Qed.

Lemma ancestors_path n (ps : gmap string string) k l :
  ancestors n ps k = Some l → path_to_root ps k l.
Proof.
  revert k l. induction n as [|n IH]; intros k l; simpl.
  - destruct (ps !! k) eqn:Hk; [done|]. by intros [= <-].
  - destruct (ps !! k) as [p|] eqn:Hk; [|by intros [= <-]].
    destruct (ancestors n ps p) as [l'|] eqn:Hp; [|done].
    intros [= <-]. split; [done|]. by apply IH.
Qed.

Lemma search_networks_result fuel uid dl g :
  match search_networks fuel uid dl g with
  | Ok _ g' =>
      is_Some (parents g' !! uid) ∧ (is_Some (parents g !! uid) → g' = g)
  | Raise e g' =>
      parents g' !! uid = None ∧
      (e = IndexError ∧ networks_to_search g' = [] ∨ e = AttributeError)
  | Diverge => True
  end.
Proof.
  revert g. induction fuel as [|fuel IH]; intros g; simpl.
  - destruct (parents g !! uid) eqn:Hu; [by eauto|].
    destruct (networks_to_search g) eqn:Hq; [|done]. eauto.
  - destruct (parents g !! uid) eqn:Hu; [by eauto|].
    destruct (networks_to_search g) as [|net rest] eqn:Hq; [by eauto|].
    destruct net; try (split; [done|by right]).
    match goal with |- context [search_networks fuel uid dl ?g1] =>
      specialize (IH g1); destruct (search_networks fuel uid dl g1)
    end; [|done|done].
    destruct IH as [Hs _]. split; [done|]. by intros [? [=]].
Qed.

(** X7.  When [get_parents] returns, the list starts with the uid, has
    at least one more entry, and each entry is followed by its parent in
    the dictionary, up to a last one that has no parent; only the
    dictionary of parents and the queue of networks may have changed, and
    nothing has when the uid was in the dictionary at the call.  When it
    raises, the uid is still not in the dictionary, and for IndexError
    the queue is empty. *)
Theorem get_parents_path (uid : string) (dl : option NameTable)
    (g : NetGraph) :
  match get_parents uid dl g with
  | Ok l g' =>
      (∃ p rest, l = uid :: p :: rest ∧
                 path_to_root (parents g') uid (p :: rest)) ∧
      search_frame g g' ∧
      (is_Some (parents g !! uid) → g' = g)
  | Raise e g' =>
      parents g' !! uid = None ∧ search_frame g g' ∧
      (e = IndexError ∧ networks_to_search g' = [] ∨ e = AttributeError)
  | Diverge => True
  end.
Proof.
  pose proof (get_parents_frame uid dl g) as Hf.
  unfold get_parents, bind, get in *.
  pose proof (search_networks_result (queue_size (networks_to_search g))
                uid dl g) as Hs.
  destruct (search_networks _ uid dl g) as [[] g1|e g1|]; [| |done].
  - destruct Hs as [[p Hp] Hsame].
    destruct (ancestors (size (parents g1)) (parents g1) uid) as [l|] eqn:Ha;
      [|done].
    simpl in *. apply ancestors_path in Ha.
    split; [|by split]. destruct l as [|p' rest]; simpl in Ha; [congruence|].
    by exists p', rest.
  - destruct Hs as [Hu He]. by repeat split.
Qed.

(** ** remove_uids and act_collapse *)

Lemma set_uids_id g : set_uids (uids g) g = g.
Proof. by destruct g. Qed.

Lemma shrunk_refl g : shrunk g g.
Proof. split; [by rewrite set_uids_id|done]. Qed.

Lemma shrunk_trans g1 g2 g3 : shrunk g1 g2 → shrunk g2 g3 → shrunk g1 g3.
Proof.
  intros [E1 S1] [E2 S2]. split; [|by etrans].
  rewrite E2 at 1. rewrite E1 at 1. done.
Qed.

Lemma removed_nothing g (vs : PyVal → Prop) :
  (∀ v, ¬ vs v) → removed vs g g.
Proof.
  intros Hno. split; [apply shrunk_refl|]. split; [|done].
  intros v Hv. by destruct (Hno v).
Qed.

Lemma removed_trans (vs1 vs2 vs : PyVal → Prop) g1 g2 g3 :
  (∀ v, vs v ↔ vs1 v ∨ vs2 v) →
  removed vs1 g1 g2 → removed vs2 g2 g3 → removed vs g1 g3.
Proof.
  intros Hvs (Hs1 & Hr1 & Ho1) (Hs2 & Hr2 & Ho2).
  split; [by eapply shrunk_trans|]. split.
  - intros v [Hv|Hv]%Hvs; [|by apply Hr2].
    eapply lookup_weaken_None; [by apply Hr1|]. apply Hs2.
  - intros uid Hne. rewrite Ho2, Ho1; [done| |].
    + intros v Hv. apply Hne, Hvs. by left.
    + intros v Hv. apply Hne, Hvs. by right.
Qed.

Lemma forget_removed item g :
  ∃ g', forget item g = Ok tt g' ∧ removed (λ v, v = item) g g'.
Proof.
  eexists. split; [done|]. split; [split|split]; simpl.
  - done.
  - apply delete_subseteq.
  - intros v ->. apply lookup_delete_eq.
  - intros uid Hne. apply lookup_delete_ne. by apply Hne.
Qed.

Lemma for_each_forget_removed l g :
  ∃ g', for_each l forget g = Ok tt g' ∧ removed (λ v, v ∈ l) g g'.
Proof.
  revert g. induction l as [|x l IH]; intros g; simpl.
  - exists g. split; [done|]. apply removed_nothing.
    intros v. apply not_elem_of_nil.
  - destruct (forget_removed x g) as (g1 & E1 & R1).
    destruct (IH g1) as (g2 & E2 & R2).
    exists g2. unfold bind. rewrite E1. split; [done|].
    eapply removed_trans; [|exact R1|exact R2].
    intros v. apply elem_of_cons.
Qed.

Lemma remove_uids_eq net :
  remove_uids net =
  match net with
  | Network _ _ ensembles nodes networks connections =>
      for_each (ensembles ++ networks ++ nodes ++ connections) forget ;;;
      for_each networks remove_uids
  | _ => raise AttributeError
  end.
Proof.
  destruct net; try done. simpl. f_equal.
  induction networks as [|n l IH]; simpl; [done|]. by rewrite IH.
Qed.

Lemma remove_all_removed nets g :
  (∀ sub, sub ∈ nets → ∀ g,
     match remove_uids sub g with
     | Ok _ g' => networks_only sub ∧ removed (λ v, inside v sub) g g'
     | Raise e g' => e = AttributeError ∧ ¬ networks_only sub ∧ shrunk g g'
     | Diverge => False
     end) →
  match for_each nets remove_uids g with
  | Ok _ g' =>
      Forall networks_only nets ∧
      removed (λ v, ∃ sub, sub ∈ nets ∧ inside v sub) g g'
  | Raise e g' =>
      e = AttributeError ∧ ¬ Forall networks_only nets ∧ shrunk g g'
  | Diverge => False
  end.
Proof.
  revert g. induction nets as [|n l IH]; intros g Hall; simpl.
  - split; [done|]. apply removed_nothing.
    intros v (sub & Hs & _). by apply elem_of_nil in Hs.
  - pose proof (Hall n (list_elem_of_here _ _) g) as Hn. unfold bind.
    destruct (remove_uids n g) as [[] g1|e g1|]; [| |done].
    + destruct Hn as [Hnet R1].
      specialize (IH g1 (λ sub Hs, Hall sub (list_elem_of_further _ _ _ Hs))).
      destruct (for_each l remove_uids g1) as [[] g2|e g2|]; [| |done].
      * destruct IH as [Hnets R2]. split; [by constructor|].
        eapply removed_trans; [|exact R1|exact R2].
        intros v. split.
        -- intros (sub & [->|Hs]%elem_of_cons & Hv); [by left|].
           right. by exists sub.
        -- intros [Hv|(sub & Hs & Hv)].
           ++ exists n. split; [apply list_elem_of_here|done].
           ++ exists sub. split; [by apply list_elem_of_further|done].
      * destruct IH as (-> & Hno & Hs2). split; [done|]. split.
        -- by intros [_ ?]%Forall_cons.
        -- eapply shrunk_trans; [apply R1|done].
    + destruct Hn as (-> & Hno & Hs). split; [done|]. split; [|done].
      by intros [? _]%Forall_cons.
Qed.

Lemma remove_uids_removed (net : PyVal) (g : NetGraph) :
  match remove_uids net g with
  | Ok _ g' => networks_only net ∧ removed (λ v, inside v net) g g'
  | Raise e g' => e = AttributeError ∧ ¬ networks_only net ∧ shrunk g g'
  | Diverge => False
  end.
Proof.
  revert g. induction net as [net IH] using network_ind. intros g.
  rewrite remove_uids_eq.
  destruct net; try (simpl; split; [done|]; split;
                     [by inversion 1|apply shrunk_refl]).
  destruct (for_each_forget_removed
              (ensembles ++ networks ++ nodes ++ connections) g)
    as (g1 & E1 & R1).
  unfold bind. rewrite E1.
  pose proof (remove_all_removed networks g1 IH) as Hall.
  destruct (for_each networks remove_uids g1) as [[] g2|e g2|]; [| |done].
  - destruct Hall as [Hnets R2]. split; [by constructor|].
    eapply removed_trans; [|exact R1|exact R2].
    intros v. split.
    + inversion 1 as [? ? Hc|? sub ? Hs Hv]; subst; simpl in *.
      * left. rewrite !elem_of_app in Hc |- *. tauto.
      * right. by exists sub.
    + intros [Hv|(sub & Hs & Hv)].
      * apply inside_child. simpl. rewrite !elem_of_app in Hv |- *. tauto.
      * by eapply inside_deeper.
  - destruct Hall as (-> & Hno & Hs). split; [done|]. split.
    + by inversion 1.
    + eapply shrunk_trans; [apply R1|done].
Qed.

(** X8.  [remove_uids] always ends.  It returns exactly when every entry
    of a list of sub-networks, at every depth, is a Network; the snapshot
    then holds no uid of a member of the network or of a network below
    it, every other uid is bound as before, and nothing but the snapshot
    has changed.  Otherwise it raises AttributeError, and the snapshot
    has lost entries at most. *)
Theorem remove_uids_effect (net : PyVal) (g : NetGraph) :
  match remove_uids net g with
  | Ok _ g' => networks_only net ∧ removed (λ v, inside v net) g g'
  | Raise e g' => e = AttributeError ∧ ¬ networks_only net ∧ shrunk g g'
  | Diverge => False
  end.
Proof. apply remove_uids_removed. Qed.

(** X9.  [act_collapse] of a uid that the snapshot does not hold raises
    KeyError and changes nothing.  For a uid bound to a network it ends;
    it returns exactly when every entry of a list of sub-networks, at
    every depth, is a Network: the entry of the network in the
    configuration has then [expanded = False], the configuration is
    flagged as to be saved, and the snapshot has lost the uids of the
    members of the network and of the networks below it, and only
    those. *)
Theorem act_collapse_effect (uid : string) (g : NetGraph) :
  match uids g !! uid with
  | None => act_collapse uid g = Raise KeyError g
  | Some net =>
      let entry := set_expanded false (config_get (page g) net) in
      let collapsed :=
        set_page (set_config_save_needed true
                    (set_config (<[py_key net := entry]> (config (page g)))
                       (page g))) g in
      match act_collapse uid g with
      | Ok _ g' =>
          networks_only net ∧ removed (λ v, inside v net) collapsed g'
      | Raise e g' => e = AttributeError ∧ ¬ networks_only net
      | Diverge => False
      end
  end.
Proof.
  unfold act_collapse, bind, get.
  destruct (uids g !! uid) as [net|] eqn:Hu; [|done].
  simpl.
  match goal with |- context [remove_uids net ?g1] =>
    pose proof (remove_uids_removed net g1) as Hr;
    destruct (remove_uids net g1) as [[] g2|e g2|]
  end; [| |done].
  - destruct Hr as (Hnet & [Hsame Hsub] & Hgone & Hother).
    split; [done|]. simpl in *.
    split; [split|split]; simpl; try done.
    remember (uids g2) as u eqn:Hequ. clear Hequ. by subst g2.
  - by destruct Hr as (-> & Hno & _).
Qed.

(** ** create_object, create_connection and expand_network *)

Lemma display_frame_refl g : display_frame g g.
Proof. repeat split. by destruct g as [? ? ? ? ? ? ? ? []]. Qed.

Lemma display_frame_trans g1 g2 g3 :
  display_frame g1 g2 → display_frame g2 g3 → display_frame g1 g3.
Proof.
  intros (P1 & S1 & X1 & L1) (P2 & S2 & X2 & L2).
  repeat split; try congruence. rewrite P2, P1. done.
Qed.

Lemma flags_kept_refl g : flags_kept g g.
Proof. by intros v. Qed.

Lemma flags_kept_trans g1 g2 g3 :
  flags_kept g1 g2 → flags_kept g2 g3 → flags_kept g1 g3.
Proof. intros F1 F2 v. destruct (F1 v), (F2 v). split; congruence. Qed.

Lemma flags_kept_page g g' : page g' = page g → flags_kept g g'.
Proof. intros Hp v. by rewrite Hp. Qed.

Lemma grown_refl vs g : grown vs g g.
Proof.
  split; [done|]. split; [by left|]. split; [|apply display_frame_refl].
  exists []. by rewrite app_nil_r, Nat.add_0_r.
Qed.

Lemma grown_trans (vs1 vs2 vs : PyVal → Prop) g1 g2 g3 :
  (∀ v, vs1 v → vs v) → (∀ v, vs2 v → vs v) →
  grown vs1 g1 g2 → grown vs2 g2 g3 → grown vs g1 g3.
Proof.
  intros H1 H2 (S1 & N1 & (m1 & W1 & C1) & F1) (S2 & N2 & (m2 & W2 & C2) & F2).
  split; [by etrans|]. split; [|split; [|by eapply display_frame_trans]].
  - intros k v [Hk|[Hv ->]]%N2; [|by right; split; [apply H2|]].
    apply N1 in Hk as [Hk|[Hv ->]]; [by left|]. right. split; [by apply H1|done].
  - exists (m1 ++ m2). split; [by rewrite W2, W1, <- app_assoc|].
    rewrite C2, C1, length_app. lia.
Qed.

Lemma config_get_insert p k e v :
  config_get (set_config (<[k := e]> (config p)) p) v =
  if decide (k = py_key v) then e else config_get p v.
Proof.
  unfold config_get. simpl. case_decide as Hk.
  - by rewrite Hk, lookup_insert_eq.
  - by rewrite lookup_insert_ne.
Qed.

Lemma config_get_set c p v :
  config_get (set_config c p) v = default config_default (c !! py_key v).
Proof. done. Qed.

Ltac config_simpl :=
  cbn [page set_page set_uids set_written set_random_draws uids written
       random_draws to_be_sent to_be_expanded layout];
  rewrite ?config_get_set, ?lookup_insert_eq;
  cbn [default expanded has_layout pos cfg_size set_pos set_cfg_size
       set_expanded].

Ltac config_flags obj :=
  match goal with
  | |- _ (config_get _ ?v) = _ (config_get _ ?v) =>
      let Hk := fresh "Hk" in
      config_simpl;
      destruct (decide (py_key obj = py_key v)) as [Hk|Hk];
      [rewrite <- ?Hk; config_simpl; unfold config_get; by rewrite <- ?Hk
      |by rewrite ?lookup_insert_ne by done]
  end.

(** The part of [create_object] before the label is looked up. *)
Lemma create_object_run obj type parent g :
  uids g !! page_names_uid None obj = None →
  ∃ g1 p s,
    create_object obj type parent g =
      match NameFinder_label (page_names (page g)) obj with
      | inl e => Raise e g1
      | inr label =>
          Ok tt (set_written
                   (written g ++
                      [MsgObject (page_names_uid None obj) label p type s
                         parent
                         (if String.eqb type "net"
                          then Some (expanded (config_get (page g) obj))
                          else None)
                         (get_extra_info obj)])
                   (set_uids (<[page_names_uid None obj := obj]> (uids g))
                      g1))
      end ∧
    uids g1 = uids g ∧ written g1 = written g ∧ display_frame g g1 ∧
    flags_kept g g1 ∧
    pos (config_get (page g1) obj) = Some p ∧
    cfg_size (config_get (page g1) obj) = Some s ∧
    match pos (config_get (page g) obj) with
    | Some p0 => p = p0 ∧ random_draws g1 = random_draws g
    | None =>
        p = (random_uniform (random_draws g),
             random_uniform (S (random_draws g))) ∧
        random_draws g1 = S (S (random_draws g))
    end ∧
    s = default (1 # 10, 1 # 10)%Q (cfg_size (config_get (page g) obj)).
Proof.
  intros Hu.
  unfold create_object, bind, get, config_update, lift_exn, write_text,
    raise, ret, modify.
  rewrite Hu.
  destruct (pos (config_get (page g) obj)) as [p|] eqn:Hp;
    destruct (cfg_size (config_get (page g) obj)) as [s|] eqn:Hs;
    simpl; rewrite ?config_get_set, ?lookup_insert_eq; simpl; rewrite ?Hs;
    simpl.
  - exists g, p, s.
    split; [by destruct (NameFinder_label _ obj)|].
    rewrite ?Hp, ?Hs. repeat split; try done; [apply display_frame_refl|..]; by apply flags_kept_refl.
  - eexists _, p, _.
    split; [destruct (NameFinder_label _ obj); simpl;
            rewrite ?config_get_set, ?lookup_insert_eq; reflexivity|].
    config_simpl. rewrite ?Hp, ?Hs. repeat split; try done; config_flags obj.
  - eexists _, _, s.
    split; [destruct (NameFinder_label _ obj); simpl;
            rewrite ?config_get_set, ?lookup_insert_eq; reflexivity|].
    config_simpl. rewrite ?Hp, ?Hs. repeat split; try done; config_flags obj.
  - eexists _, _, _.
    split; [destruct (NameFinder_label _ obj); simpl;
            rewrite ?config_get_set, ?lookup_insert_eq; reflexivity|].
    config_simpl. rewrite ?Hp, ?Hs. repeat split; try done; config_flags obj.
Qed.

(** X10.  [create_object] for an object whose uid the snapshot does not
    hold: when the object has a label, the uid is bound to the object and
    one message is written; its position and size are those that the
    configuration holds for the object afterwards, which are the
    configured ones where there were any, and otherwise two fresh random
    draws and (0.1, 0.1); [expanded] is part of the message for type
    ['net'] only.  When the lookup of the label raises, [create_object]
    raises the same exception, binds nothing and writes nothing. *)
Theorem create_object_new (obj : PyVal) (type : string)
    (parent : option string) (g : NetGraph) :
  uids g !! page_names_uid None obj = None →
  (∀ label, NameFinder_label (page_names (page g)) obj = inr label →
     ∃ g' p s,
       create_object obj type parent g = Ok tt g' ∧
       uids g' = <[page_names_uid None obj := obj]> (uids g) ∧
       written g' =
         written g ++
         [MsgObject (page_names_uid None obj) label p type s parent
            (if String.eqb type "net"
             then Some (expanded (config_get (page g') obj)) else None)
            (get_extra_info obj)] ∧
       pos (config_get (page g') obj) = Some p ∧
       cfg_size (config_get (page g') obj) = Some s ∧
       p = default (random_uniform (random_draws g),
                    random_uniform (S (random_draws g)))
             (pos (config_get (page g) obj)) ∧
       s = default (1 # 10, 1 # 10)%Q
             (cfg_size (config_get (page g) obj)) ∧
       display_frame g g' ∧ flags_kept g g') ∧
  (∀ e, NameFinder_label (page_names (page g)) obj = inl e →
     ∃ g', create_object obj type parent g = Raise e g' ∧
           uids g' = uids g ∧ written g' = written g).
Proof.
  intros Hu.
  destruct (create_object_run obj type parent g Hu)
    as (g1 & p & s & Hrun & Huids & Hw & Hf & Hfl & Hp & Hs & Hp0 & Hs0).
  rewrite Hrun. split.
  - intros label ->. eexists _, p, s. split; [done|]. simpl.
    destruct (Hfl obj) as [-> _].
    repeat split; try done; try apply Hf; try apply Hfl.
    destruct (pos (config_get (page g) obj)); by destruct Hp0.
  - intros e ->. by exists g1.
Qed.

Lemma create_object_grown obj type parent g g' :
  create_object obj type parent g = Ok tt g' →
  grown (λ v, v = obj) g g' ∧ flags_kept g g' ∧
  is_Some (uids g' !! page_names_uid None obj).
Proof.
  intros Hrun.
  destruct (uids g !! page_names_uid None obj) as [old|] eqn:Hu.
  - rewrite create_object_known in Hrun by by eexists.
    injection Hrun as <-. split; [apply grown_refl|].
    split; [apply flags_kept_refl|by eexists].
  - destruct (create_object_run obj type parent g Hu)
      as (g1 & p & s & Hrun' & Huids & Hw & Hf & Hfl & _).
    rewrite Hrun in Hrun'.
    destruct (NameFinder_label (page_names (page g)) obj) as [e|label];
      [done|].
    injection Hrun' as ->. simpl.
    split; [|split; [done|by rewrite lookup_insert_eq]].
    split; simpl; [by apply insert_subseteq|]. split; [|split; [|done]].
    + intros k v.
      destruct (decide (k = page_names_uid None obj)) as [->|Hk].
      * rewrite lookup_insert_eq. intros [= <-]. by right.
      * rewrite lookup_insert_ne by done. by left.
    + eexists. split; [done|]. rewrite map_size_insert_None by done.
      simpl. lia.
Qed.

Lemma search_frame_layout g g' : search_frame g g' → layout g' = layout g.
Proof. unfold search_frame. by intros ->. Qed.

Lemma create_connection_grown conn parent g g' :
  create_connection conn parent g = Ok tt g' →
  grown (λ v, v = conn) g g' ∧ flags_kept g g' ∧
  is_Some (uids g' !! page_names_uid None conn).
Proof.
  intros Hc.
  destruct (uids g !! page_names_uid None conn) as [old|] eqn:Hu.
  { rewrite create_connection_known in Hc by by eexists.
    injection Hc as <-. split; [apply grown_refl|].
    split; [apply flags_kept_refl|by eexists]. }
  unfold create_connection in Hc.
  apply bind_Ok in Hc as (? & ? & [-> ->]%get_Ok & Hc). rewrite Hu in Hc.
  apply bind_Ok in Hc as (? & ? & [_ ->]%lift_attr_Ok & Hc).
  apply bind_Ok in Hc as (? & ? & [_ ->]%lift_attr_Ok & Hc).
  apply bind_Ok in Hc as (? & ? & [_ ->]%lift_attr_Ok & Hc).
  apply bind_Ok in Hc as ([] & g1 & Hm & Hc).
  unfold modify in Hm. injection Hm as <-.
  apply bind_Ok in Hc as (pres & g2 & Hg2 & Hc).
  apply bind_Ok in Hc as (posts & g3 & Hg3 & Hc).
  apply get_parents_Ok_frame in Hg2, Hg3.
  pose proof (search_frame_layout _ _ Hg2) as Hl2.
  pose proof (search_frame_layout _ _ Hg3) as Hl3.
  apply search_frame_fields in Hg2 as (Hu2 & Hs2 & Hp2 & Hx2 & Hw2).
  apply search_frame_fields in Hg3 as (Hu3 & Hs3 & Hp3 & Hx3 & Hw3).
  unfold write_text, modify in Hc. injection Hc as <-. simpl in *.
  assert (page g3 = page g) as Hp by congruence.
  split; [|split; [by apply flags_kept_page|
    simpl; rewrite ?Hu3, ?Hu2, lookup_insert_eq; by eexists]].
  unfold grown, display_frame. simpl.
  rewrite Hu3, Hu2, Hp, Hs3, Hs2, Hx3, Hx2, Hl3, Hl2.
  split; [by apply insert_subseteq|]. split; [|split].
  - intros k v.
    destruct (decide (k = page_names_uid None conn)) as [->|Hk].
    + rewrite lookup_insert_eq. intros [= <-]. by right.
    + rewrite lookup_insert_ne by done. by left.
  - rewrite Hw3, Hw2. eexists. split; [done|]. rewrite map_size_insert_None by done.
    simpl. lia.
  - repeat split. by destruct (page g).
Qed.

Lemma grown_is_Some vs g g' k :
  grown vs g g' → is_Some (uids g !! k) → is_Some (uids g' !! k).
Proof. intros [Hsub _] [v Hv]. exists v. by eapply lookup_weaken. Qed.

Lemma for_each_grown (l : list PyVal) (body : PyVal → M unit) g g' :
  (∀ x g g', body x g = Ok tt g' →
     grown (λ v, v = x) g g' ∧ flags_kept g g' ∧
     is_Some (uids g' !! page_names_uid None x)) →
  for_each l body g = Ok tt g' →
  grown (λ v, v ∈ l) g g' ∧ flags_kept g g' ∧
  ∀ x, x ∈ l → is_Some (uids g' !! page_names_uid None x).
Proof.
  intros Hbody. revert g. induction l as [|x l IH]; intros g; simpl.
  - intros [= <-]. split; [apply grown_refl|].
    split; [apply flags_kept_refl|]. by intros x ?%elem_of_nil.
  - intros ([] & g1 & H1 & H2)%bind_Ok.
    apply Hbody in H1 as (G1 & F1 & S1).
    apply IH in H2 as (G2 & F2 & S2).
    split; [|split; [by eapply flags_kept_trans|]].
    + eapply grown_trans; [| |exact G1|exact G2].
      * intros v ->. apply list_elem_of_here.
      * intros v Hv. by apply list_elem_of_further.
    + intros y [->|Hy]%elem_of_cons; [|by apply S2].
      by eapply grown_is_Some.
Qed.

Lemma for_each_noop {A} (l : list A) (body : A → M unit) g :
  (∀ x, x ∈ l → body x g = Ok tt g) → for_each l body g = Ok tt g.
Proof.
  induction l as [|x l IH]; intros Hall; simpl; [done|].
  unfold bind. rewrite (Hall x) by apply list_elem_of_here.
  apply IH. intros y Hy. by apply Hall, list_elem_of_further.
Qed.

Lemma config_only_refl g : config_only g g.
Proof. unfold config_only. by destruct g as [? ? ? ? ? ? ? ? []]. Qed.

Lemma config_only_trans g1 g2 g3 :
  config_only g1 g2 → config_only g2 g3 → config_only g1 g3.
Proof.
  unfold config_only. intros E1 E2. rewrite E2 at 1. rewrite E1 at 1 2.
  done.
Qed.

Lemma config_update_only obj f g :
  ∃ g', config_update obj f g = Ok tt g' ∧ config_only g g' ∧
        config_get (page g') obj = f (config_get (page g) obj).
Proof.
  eexists. split; [done|]. split; [done|]. simpl.
  by rewrite config_get_set, lookup_insert_eq.
Qed.

Lemma for_each_place_only items g :
  ∃ g', for_each items place g = Ok tt g' ∧ config_only g g'.
Proof.
  revert g. induction items as [|x l IH]; intros g; simpl.
  - exists g. split; [done|apply config_only_refl].
  - unfold place at 1, bind.
    destruct (config_update_only x.1 (set_pos (box_y x.2, box_x x.2)) g)
      as (g1 & -> & O1 & _).
    destruct (config_update_only x.1
                (set_cfg_size ((box_h x.2 / 2)%Q, (box_w x.2 / 2)%Q)) g1)
      as (g2 & -> & O2 & _).
    destruct (IH g2) as (g3 & -> & O3). exists g3. split; [done|].
    eauto using config_only_trans.
Qed.

Lemma config_only_grown vs g g' : config_only g g' → grown vs g g'.
Proof.
  unfold config_only. intros E. unfold grown, display_frame.
  rewrite E. simpl. split; [done|]. split; [by left|]. split; [|done].
  exists []. by rewrite app_nil_r, Nat.add_0_r.
Qed.

Lemma grown_step (vs vs2 : PyVal → Prop) g1 g2 g3 :
  (∀ v, vs2 v → vs v) →
  grown vs g1 g2 → grown vs2 g2 g3 → grown vs g1 g3.
Proof. intros Hvs. by apply grown_trans. Qed.

(** The first part of [expand_network]: the layout of a network that has
    none. *)
Lemma layout_step network g g1 :
  (if has_layout (config_get (page g) network) then ret tt
   else
     match layout g with
     | None => raise AttributeError
     | Some layout_model =>
         for_each (make_layout layout_model network) place ;;;
         config_update network (set_has_layout true)
     end) g = Ok tt g1 →
  config_only g g1 ∧ has_layout (config_get (page g1) network) = true.
Proof.
  destruct (has_layout (config_get (page g) network)) eqn:Hl.
  - intros [= <-]. split; [apply config_only_refl|done].
  - destruct (layout g) as [layout_model|]; [|done].
    intros ([] & g2 & H1 & H2)%bind_Ok.
    destruct (for_each_place_only (make_layout layout_model network) g)
      as (g2' & E1 & O1).
    rewrite E1 in H1. injection H1 as ->.
    destruct (config_update_only network (set_has_layout true) g2)
      as (g1' & E2 & O2 & Hc).
    rewrite E2 in H2. injection H2 as ->.
    split; [by eapply config_only_trans|]. by rewrite Hc.
Qed.

Lemma expand_network_run network g g' :
  expand_network network g = Ok tt g' →
  grown (λ v, v ∈ children network) g g' ∧
  (∀ v, v ∈ children network →
        is_Some (uids g' !! page_names_uid None v)) ∧
  (∃ e, config (page g') !! py_key network = Some e ∧
        expanded e = true ∧ has_layout e = true) ∧
  is_Some (get_label network) ∧ isinstance network ClsNetwork = true.
Proof.
  unfold expand_network. intros Hr.
  apply bind_Ok in Hr as (? & ? & [-> ->]%get_Ok & Hr).
  apply bind_Ok in Hr as ([] & g1 & [O1 L1]%layout_step & Hr).
  apply bind_Ok in Hr as (? & ? & [-> ->]%get_Ok & Hr).
  destruct network as [| | | | | | | |oid label ens nodes nets conns|];
    try done.
  set (network := Network oid label ens nodes nets conns) in *.
  apply bind_Ok in Hr as ([] & g2 & H2 & Hr).
  apply bind_Ok in Hr as ([] & g3 & H3 & Hr).
  apply bind_Ok in Hr as ([] & g4 & H4 & Hr).
  apply bind_Ok in Hr as ([] & g5 & H5 & Hr).
  apply for_each_grown in H2 as (G2 & F2 & S2);
    [|intros; by eapply create_object_grown].
  apply for_each_grown in H3 as (G3 & F3 & S3);
    [|intros; by eapply create_object_grown].
  apply for_each_grown in H4 as (G4 & F4 & S4);
    [|intros; by eapply create_object_grown].
  apply for_each_grown in H5 as (G5 & F5 & S5);
    [|intros; by eapply create_connection_grown].
  unfold config_update, modify in Hr. injection Hr as <-.
  assert (grown (λ v, v ∈ children network) g g5) as G.
  { eapply grown_step; [| |exact G5].
    { intros v Hv. simpl. rewrite !elem_of_app. tauto. }
    eapply grown_step; [| |exact G4].
    { intros v Hv. simpl. rewrite !elem_of_app. tauto. }
    eapply grown_step; [| |exact G3].
    { intros v Hv. simpl. rewrite !elem_of_app. tauto. }
    eapply grown_step; [| |exact G2].
    { intros v Hv. simpl. rewrite !elem_of_app. tauto. }
    by apply config_only_grown. }
  split; [|split; [|split; [|done]]].
  - eapply (grown_step _ (λ v, v ∈ children network)); [done|exact G|].
    by apply config_only_grown.
  - simpl. intros v Hv. rewrite !elem_of_app in Hv.
    destruct Hv as [Hv|[Hv|[Hv|Hv]]].
    + eapply grown_is_Some; [exact G5|]. eapply grown_is_Some; [exact G4|].
      eapply grown_is_Some; [exact G3|]. by apply S2.
    + eapply grown_is_Some; [exact G5|]. eapply grown_is_Some; [exact G4|].
      by apply S3.
    + by apply S5.
    + eapply grown_is_Some; [exact G5|]. by apply S4.
  - eexists. split; [simpl; apply lookup_insert_eq|]. split; [done|].
    simpl. destruct (F5 network) as [_ ->]. destruct (F4 network) as [_ ->].
    destruct (F3 network) as [_ ->]. by destruct (F2 network) as [_ ->].
Qed.

(** X11.  When [expand_network] returns, every member of the four lists
    of the network has its uid in the snapshot; the snapshot has kept all
    its entries, every new entry is a member under its uid, and exactly
    one message has been written for each new entry; the entry of the
    network in the configuration has [expanded] and [has_layout] set; the
    queues of events and of networks to expand, the layout and the page
    apart from its configuration are as before. *)
Theorem expand_network_effect (network : PyVal) (g g' : NetGraph) :
  expand_network network g = Ok tt g' →
  grown (λ v, v ∈ children network) g g' ∧
  (∀ v, v ∈ children network →
        is_Some (uids g' !! page_names_uid None v)) ∧
  expanded (config_get (page g') network) = true ∧
  has_layout (config_get (page g') network) = true.
Proof.
  intros (G & S & (e & He & Hx & Hl) & _)%expand_network_run.
  unfold config_get. rewrite He. done.
Qed.

(** X12.  A second [expand_network] of the same network, after one that
    returned, returns and changes nothing: no message is written and the
    snapshot and the configuration are as the first call left them. *)
Theorem expand_network_twice (network : PyVal) (g g' : NetGraph) :
  expand_network network g = Ok tt g' →
  expand_network network g' = Ok tt g'.
Proof.
  intros (G & S & (e & He & Hx & Hl) & _ & Hnet)%expand_network_run.
  unfold expand_network, bind, get.
  assert (config_get (page g') network = e) as Hc
    by (unfold config_get; by rewrite He).
  rewrite Hc, Hl. simpl.
  destruct network as [| | | | | | | |oid label ens nodes nets conns|];
    try done.
  set (network := Network oid label ens nodes nets conns) in *.
  assert (∀ v, v ∈ ens ++ nodes ++ conns ++ nets →
               is_Some (uids g' !! page_names_uid None v)) as S' by exact S.
  rewrite !for_each_noop.
  - unfold config_update, modify. rewrite Hc. f_equal.
    assert (set_expanded true e = e) as -> by (by destruct e; simplify_eq/=).
    rewrite insert_id by done. by destruct g' as [? ? ? ? ? ? ? ? []].
  - intros v Hv. apply create_connection_known, S'.
    rewrite !elem_of_app. tauto.
  - intros v Hv. apply create_object_known, S'.
    rewrite !elem_of_app. tauto.
  - intros v Hv. apply create_object_known, S'.
    rewrite !elem_of_app. tauto.
  - intros v Hv. apply create_object_known, S'.
    rewrite !elem_of_app. tauto.
Qed.

(** ** undo and redo *)

Ltac lists_simpl :=
  unfold list_at in *; simpl;
  repeat (rewrite lookup_total_insert_eq ||
          rewrite lookup_total_insert_ne by (done || by apply not_eq_sym)).

(** X13.  With the two stacks distinct lists, [undo] followed by [redo]
    puts the last command group back: both stacks hold what they held,
    and the actions of the group have been undone in the order of the
    group and then applied in the reverse order.  [redo] followed by
    [undo] does the same from the redo stack. *)
Theorem undo_then_redo (g : NetGraph) (rest : list Group) (grp : Group) :
  page_undo_stack (page g) ≠ page_redo_stack (page g) →
  (list_at g (page_undo_stack (page g)) = rest ++ [grp] →
   ∃ g', (undo ;;; redo) g = Ok tt g' ∧
         list_at g' (page_undo_stack (page g)) = rest ++ [grp] ∧
         list_at g' (page_redo_stack (page g)) =
           list_at g (page_redo_stack (page g)) ∧
         calls g' =
           calls g ++ map CallUndo grp ++ map CallApply (rev grp) ∧
         page g' = page g) ∧
  (list_at g (page_redo_stack (page g)) = rest ++ [grp] →
   ∃ g', (redo ;;; undo) g = Ok tt g' ∧
         list_at g' (page_redo_stack (page g)) = rest ++ [grp] ∧
         list_at g' (page_undo_stack (page g)) =
           list_at g (page_undo_stack (page g)) ∧
         calls g' =
           calls g ++ map CallApply grp ++ map CallUndo (rev grp) ∧
         page g' = page g).
Proof.
  intros Hne. split; intros Hl; unfold bind.
  - rewrite (undo_nonempty g rest grp Hl). cbv beta iota zeta.
    match goal with |- context [redo ?g1] =>
      rewrite (redo_nonempty g1 (list_at g (page_redo_stack (page g)))
                 (rev grp)) by (by lists_simpl)
    end.
    cbv zeta. eexists. split; [done|]. lists_simpl.
    by rewrite rev_involutive, <- app_assoc.
  - rewrite (redo_nonempty g rest grp Hl). cbv beta iota zeta.
    match goal with |- context [undo ?g1] =>
      rewrite (undo_nonempty g1 (list_at g (page_undo_stack (page g)))
                 (rev grp)) by (by lists_simpl)
    end.
    cbv zeta. eexists. split; [done|]. lists_simpl.
    by rewrite rev_involutive, <- app_assoc.
Qed.

(** ** execute *)

(** X14.  For a page that has been attached, so that [_set_error] is
    the function that [attach] installs, and a run of the script that ends
    without an exception or with one that [execute] catches: when
    [execute] returns, the page holds the text and the dictionary that the
    script left; its model is the value bound to ["model"] when that is a
    Network and None otherwise, and a page without a model has an error.
    A script stopped because it started a simulator or the GUI is not in
    error: the output ends with the warning for the line.  The report of
    an exception of the script is kept when the model is missing as well;
    the report of the missing model is given only when the script raised
    nothing.  Nothing but the locals, the text, the error, the model and
    the last good locals of the page changes. *)
Theorem execute_reports (text : string) (g : NetGraph) (stdout : string)
    (g' : NetGraph) :
  execute text g = Ok stdout g' →
  let '(locals', out, outcome) := py_exec text (initial_locals g) in
  let obj := default PyNone (locals' !! "model") in
  code (page g') = Some text ∧ locals (page g') = locals' ∧
  model (page g') = (if isinstance obj ClsNetwork then obj else PyNone) ∧
  (model (page g') = PyNone → is_Some (error (page g'))) ∧
  match outcome with
  | ExecDone =>
      stdout = out ∧
      error (page g') =
        if isinstance obj ClsNetwork then None
        else Some (missing_model, count_lines text)
  | StartedSimulatorException line =>
      stdout = out +:+ simulator_warning line ∧
      error (page g') =
        if isinstance obj ClsNetwork then None
        else Some (missing_model, count_lines text)
  | StartedGUIException line =>
      stdout = out +:+ gui_warning line ∧
      error (page g') =
        if isinstance obj ClsNetwork then None
        else Some (missing_model, count_lines text)
  | ExecException traceback line =>
      stdout = out ∧ error (page g') = Some (traceback, line)
  end ∧
  g' = set_page (page g') g ∧
  page g' =
    set_last_good_locals (last_good_locals (page g'))
      (set_model (model (page g'))
         (set_error (error (page g'))
            (set_code (Some text) (set_locals locals' (page g))))).
Proof.
  unfold execute.
  destruct g as [? ? ? ? ? ? ? ? p ? ? ? ?]. destruct p.
  unfold bind, get, modify, _set_error, ret, initial_locals. simpl.
  match goal with |- context [py_exec text ?l] =>
    destruct (py_exec text l) as [[locals' out] outcome] end.
  destruct outcome; simpl;
    destruct (isinstance (default PyNone (locals' !! "model")) ClsNetwork)
      eqn:Hm;
    simpl; intros [= <- <-]; simpl; rewrite ?Hm;
    repeat split; try done; try (intros _; by eexists);
    intros Hn; rewrite Hn in Hm; done.
Qed.

(** ** The reconciliation loop *)

(** X15.  When the loop of [_reload] over the snapshot returns, the
    snapshot has no new uid; every uid it holds is bound to the object
    that the uid evaluates to in the new locals, which the new name
    finder names by that uid and which is of the class and with the
    helper information of the object the uid was bound to; every event
    that the loop has sent is about a uid of the snapshot at the start;
    the page is as before. *)
Theorem reload_loop_snapshot (nf : NameFinder) (g : NetGraph)
    (vars' : ReloadLocals) (g' : NetGraph) :
  reload_loop nf (map_to_list (uids g)) g = Ok vars' g' →
  page g' = page g ∧
  (∀ uid new_item, uids g' !! uid = Some new_item →
     ∃ old_item, uids g !! uid = Some old_item ∧
                 stable nf (locals (page g)) uid old_item new_item) ∧
  (∃ evs, to_be_sent g' = to_be_sent g ++ evs ∧
          ∀ e, e ∈ evs →
               ∃ uid, event_uid e = Some uid ∧ is_Some (uids g !! uid)).
Proof.
  unfold reload_loop. intros Hf.
  pose proof (reload_fold_effect _ _ _ _ _ _ Hf)
    as (Hp & Hother & (evs & Hs & He) & _).
  split; [done|]. split.
  - intros uid new_item Hnew.
    destruct (uids g !! uid) as [old_item|] eqn:Hold.
    + exists old_item. split; [done|].
      destruct (reload_loop_item nf _ _ _ _ _ uid old_item
                  (NoDup_fst_map_to_list _)
                  (proj2 (elem_of_map_to_list _ _ _) Hold) Hf)
        as (r & evs' & Hres & _ & _ & Hcase).
      destruct (keep_object r old_item) eqn:Hk.
      * destruct Hcase as (Hu & _). rewrite Hu in Hnew.
        injection Hnew as <-. by apply resolve_keep_stable.
      * destruct Hcase as (Hu & _). congruence.
    + rewrite Hother in Hnew; [congruence|].
      intros ((u & o) & Hu & Hin%elem_of_map_to_list)%list_elem_of_fmap.
      simpl in *. congruence.
  - exists evs. split; [done|]. intros e Hin.
    unfold events_of in He. rewrite Forall_forall in He.
    destruct (He e Hin) as (u & Hev & ((u' & o) & Hu & Hin')%list_elem_of_fmap).
    exists u. split; [done|]. simpl in Hu. subst u'.
    apply elem_of_map_to_list in Hin'. by eexists.
Qed.

(** ** _reload_update_item on nodes, ensembles and networks *)

(** X16.  [_reload_update_item] for a node, an ensemble or a network
    whose old and new labels can be found: a rename event with the new
    label is sent exactly when the labels differ; the new item is queued
    for expansion exactly when the old item is a network that the
    configuration has as expanded, and such a network is reported as
    changed even when its label is the same; nothing else changes.  When
    the lookup of the old label raises, the call raises the same
    exception and changes nothing. *)
Theorem update_item_rename (uid : string) (old_item new_item : PyVal)
    (nf : NameFinder) (g : NetGraph) :
  is_node_ens_net old_item = true →
  (∀ old_label new_label,
     NameFinder_label (page_names (page g)) old_item = inr old_label →
     NameFinder_label nf new_item = inr new_label →
     let renamed := bool_decide (old_label ≠ new_label) in
     let reexpand := isinstance old_item ClsNetwork &&
                     expanded (config_get (page g) old_item) in
     _reload_update_item uid old_item new_item nf g =
       Ok (renamed || reexpand)
          (set_to_be_expanded
             (to_be_expanded g ++ (if reexpand then [new_item] else []))
             (set_to_be_sent
                (to_be_sent g ++
                   (if renamed then [EvRename uid new_label] else []))
                g))) ∧
  (∀ e, NameFinder_label (page_names (page g)) old_item = inl e →
        _reload_update_item uid old_item new_item nf g = Raise e g).
Proof.
  intros Hcls. unfold _reload_update_item. rewrite Hcls.
  unfold bind, get, lift_exn, raise, ret, send, modify.
  split; [|by intros e ->].
  intros old_label new_label -> ->.
  cbv zeta.
  destruct (decide (old_label ≠ new_label)) as [Hne|Heq];
    [rewrite (bool_decide_eq_true_2 _ Hne)
    |rewrite (bool_decide_eq_false_2 _ Heq)];
    destruct (isinstance old_item ClsNetwork); simpl;
    try destruct (expanded (config_get (page g) old_item)); simpl;
    rewrite ?app_nil_r; f_equal; by destruct g.
Qed.

(** ** act_pan and act_zoom *)

(** X17.  [act_zoom] always returns: the entry of the model in the
    configuration then has the position given and the size
    [(scale, scale)], its flags and the entries of the other objects are
    as before, and the configuration is flagged as to be saved.  A pan
    after a zoom leaves the state that the zoom to the new position would
    have left. *)
Theorem act_zoom_then_pan (scale x y x' y' : Q) (g : NetGraph) :
  (∃ g', act_zoom scale x y g = Ok tt g' ∧
         pos (config_get (page g') (model (page g))) = Some (x, y) ∧
         cfg_size (config_get (page g') (model (page g))) =
           Some (scale, scale) ∧
         config_save_needed (page g') = true ∧
         (∀ v, py_key v ≠ py_key (model (page g)) →
               config_get (page g') v = config_get (page g) v) ∧
         flags_kept g g') ∧
  (act_zoom scale x y ;;; act_pan x' y') g = act_zoom scale x' y' g.
Proof.
  unfold act_zoom, act_pan, bind, get, config_update, modified_config,
    modify.
  split.
  - eexists. split; [reflexivity|]. unfold flags_kept, config_get. simpl.
    rewrite !lookup_insert_eq. simpl.
    split; [done|]. split; [done|]. split; [done|]. split.
    + intros v Hv. by rewrite !lookup_insert_ne by done.
    + intros v.
      destruct (decide (py_key (model (page g)) = py_key v)) as [Hk|Hk].
      * by rewrite <- Hk, !lookup_insert_eq.
      * by rewrite !lookup_insert_ne by done.
  - unfold config_get. simpl. rewrite !lookup_insert_eq. simpl.
    by rewrite !insert_insert_eq.
Qed.

(** ** load *)

Lemma execute_code text g out g' :
  execute text g = Ok out g' →
  filename (page g') = filename (page g) ∧
  code (page g') = Some text ∧
  locals (page g') = (py_exec text (initial_locals g)).1.1.
Proof.
  unfold execute.
  destruct g as [? ? ? ? ? ? ? ? p ? ? ? ?]. destruct p.
  unfold bind, get, modify, _set_error, ret, initial_locals. simpl.
  destruct (py_exec text _) as [[locals' o] outcome].
  destruct outcome; simpl;
    destruct (isinstance (default PyNone (locals' !! "model")) ClsNetwork);
    simpl; by intros [= <- <-].
Qed.

(** X18.  [load] of a file that can be read: when it returns, the page
    has the file as its filename and the text of the file as its code, and
    the script has run in a dictionary that binds [__file__] to the file.
    When the read raises IOError, [load] is the run of the empty script:
    when it returns, the filename of the page is as before and the code
    is the empty text.  When the read raises an exception of another
    class, [load] raises it and changes nothing. *)
Theorem load_reads_file (file : string) (g : NetGraph) :
  (∀ text out g',
     read_file (Some file) = Some text →
     load file g = Ok out g' →
     filename (page g') = Some file ∧
     code (page g') = Some text ∧
     locals (page g') = (py_exec text {["__file__" := PyStr file]}).1.1) ∧
  (read_file (Some file) = None →
   read_raises (Some file) = IOError →
   load file g = execute EmptyString g ∧
   ∀ out g', load file g = Ok out g' →
             filename (page g') = filename (page g) ∧
             code (page g') = Some EmptyString) ∧
  (read_file (Some file) = None →
   read_raises (Some file) ≠ IOError →
   load file g = Raise (read_raises (Some file)) g).
Proof.
  unfold load. split; [|split].
  - intros text out g' -> Hrun. unfold bind, modify in Hrun.
    by apply execute_code in Hrun as (? & ? & ?).
  - intros -> ->. split; [done|]. intros out g' Hrun.
    by apply execute_code in Hrun as (? & ? & ?).
  - intros -> Hne. by destruct (read_raises (Some file)).
Qed.

(** ** The first loop of get_parents finds the objects of the queue *)

Lemma record_parents_is_Some dl net_uid members (ps : gmap string string) k :
  is_Some (ps !! k) ∨ (∃ n, n ∈ members ∧ page_names_uid dl n = k) →
  is_Some (record_parents dl net_uid members ps !! k).
Proof.
  unfold record_parents. revert ps.
  induction members as [|m l IH]; intros ps; simpl.
  - intros [?|(n & Hn & _)]; [done|]. by apply elem_of_nil in Hn.
  - intros Hk. apply IH.
    destruct (decide (page_names_uid dl m = k)) as [<-|Hne].
    + left. rewrite lookup_insert_eq. by eexists.
    + destruct Hk as [Hk|(n & [->|Hn]%elem_of_cons & Hu)].
      * left. by rewrite lookup_insert_ne.
      * done.
      * right. by exists n.
Qed.

Lemma search_networks_finds fuel uid dl g :
  (queue_size (networks_to_search g) ≤ fuel)%nat →
  Forall networks_only (networks_to_search g) →
  (is_Some (parents g !! uid) ∨
   ∃ net v, net ∈ networks_to_search g ∧ shown v net ∧
            page_names_uid dl v = uid) →
  ∃ g', search_networks fuel uid dl g = Ok tt g'.
Proof.
  revert g. induction fuel as [|fuel IH]; intros g Hfuel Hnets Hin.
  - simpl. destruct (parents g !! uid) as [p|] eqn:Hu; [by eexists|].
    destruct Hin as [[? [=]]|(net & v & Hnet & _)].
    destruct (networks_to_search g) as [|first rest];
      [by apply elem_of_nil in Hnet|].
    simpl in Hfuel. pose proof (net_size_pos first). lia.
  - simpl. destruct (parents g !! uid) as [p|] eqn:Hu; [by eexists|].
    destruct Hin as [[? [=]]|(net & v & Hnet & Hv & Huid)].
    destruct (networks_to_search g) as [|first rest] eqn:Hq;
      [by apply elem_of_nil in Hnet|].
    apply Forall_cons in Hnets as [Hfirst Hrest].
    destruct Hfirst as [oid label ens nodes nets conns Hsubs].
    rewrite queue_size_cons_network in Hfuel.
    apply IH; simpl.
    + rewrite queue_size_app. lia.
    + by apply Forall_app.
    + apply elem_of_cons in Hnet as [->|Hnet].
      * inversion Hv as [? ? ? ? ? ? ? Hm|? sub ? Hs Hsub]; subst.
        -- left. rewrite !elem_of_app in Hm.
           destruct Hm as [Hm|[Hm|Hm]].
           ++ apply record_parents_is_Some. left.
              apply record_parents_is_Some. left.
              apply record_parents_is_Some. right. by exists v.
           ++ apply record_parents_is_Some. left.
              apply record_parents_is_Some. right. by exists v.
           ++ apply record_parents_is_Some. right. by exists v.
        -- right. exists sub, v. split; [|done].
           apply elem_of_app. by right.
      * right. exists net, v. split; [|done]. apply elem_of_app. by left.
Qed.

(** X19.  When the queue of networks to search holds networks only, at
    every depth, [get_parents] does not raise for the uid of a node, an
    ensemble or a network of a network of the queue or of a network
    below it: the search finds it before the queue runs out. *)
Theorem get_parents_finds (v net : PyVal) (dl : option NameTable)
    (g : NetGraph) :
  Forall networks_only (networks_to_search g) →
  net ∈ networks_to_search g →
  shown v net →
  match get_parents (page_names_uid dl v) dl g with
  | Ok l g' => is_Some (parents g' !! page_names_uid dl v)
  | Raise _ _ => False
  | Diverge => True
  end.
Proof.
  intros Hnets Hnet Hv.
  destruct (search_networks_finds (queue_size (networks_to_search g))
              (page_names_uid dl v) dl g) as [g1 Hs]; [done|done| |].
  { right. by exists net, v. }
  pose proof (search_networks_result (queue_size (networks_to_search g))
                (page_names_uid dl v) dl g) as Hr.
  unfold get_parents, bind, get. rewrite Hs in Hr |- *.
  destruct Hr as [Hsome _].
  by destruct (ancestors _ _ _).
Qed.

End MoreProperties.

(** * The properties on the sample session *)

#[local] Existing Instance Sample.externals.

(** C9: the property as specified fails on a Node: the sample node has a default output,
    and its helper information has no [default_output] flag. *)
Lemma node_info_lacks_default_output :
  Value_default_output Sample.node ≠ PyNone ∧
  get_extra_info Sample.node !! "default_output" = None ∧
  get_extra_info Sample.node !! "passthrough" = Some (IBool true).
Proof. by repeat split. Qed.

(** C3: the property as specified fails on a group of two actions: [undo] calls them in
    the order of the list, not in reverse, and pushes the reversed list,
    not the list, on the redo stack. *)
Lemma undo_calls_in_list_order :
  ∃ g', undo Sample.g_two = Ok tt g' ∧
        calls g' = [CallUndo Sample.act1; CallUndo Sample.act2] ∧
        calls g' ≠ [CallUndo Sample.act2; CallUndo Sample.act1] ∧
        list_at g' 1%nat = [[Sample.act2; Sample.act1]] ∧
        list_at g' 1%nat ≠ [[Sample.act1; Sample.act2]].
Proof. eexists. split; [reflexivity|]. by repeat split. Qed.

Lemma undo_redo_group_order_witness :
  ∃ g', undo Sample.g_two = Ok tt g' ∧
        calls g' = calls Sample.g_two ++
                   map CallUndo [Sample.act1; Sample.act2] ∧
        list_at g' 0%nat = [] ∧
        list_at g' 1%nat =
          list_at Sample.g_two 1%nat ++ [rev [Sample.act1; Sample.act2]].
Proof.
  refine (proj1 (undo_redo_group_order Sample.g_two []
                   [Sample.act1; Sample.act2] _) _).
  - simpl. lia.
  - reflexivity.
Defined.

(** C4: the property as specified fails on the sample session, whose redo stack is empty:
    after the push and the undo it holds the group.  It fails as well on
    the session in which the lists of the handler and those of the page
    are different lists: [undo] finds the undo stack of the page empty,
    and the group stays on the undo stack of the handler. *)
Lemma action_undo_changes_redo_stack :
  (∃ g', (action "pos" [] ;;; undo) Sample.g0 = Ok tt g' ∧
         list_at Sample.g0 (redo_stack Sample.g0) = [] ∧
         list_at g' (redo_stack Sample.g0) = [[mkAction Pos []]]) ∧
  (∃ g', (action "pos" [] ;;; undo) Sample.g_split = Ok tt g' ∧
         list_at Sample.g_split (undo_stack Sample.g_split) = [] ∧
         list_at g' (undo_stack Sample.g_split) = [[mkAction Pos []]]).
Proof.
  split; (eexists; split; [reflexivity|]; by split).
Qed.

Lemma action_then_undo_witness :
  ∃ g', (action "pos" [] ;;; undo) Sample.g0 = Ok tt g' ∧
        list_at g' (undo_stack Sample.g0) =
          list_at Sample.g0 (undo_stack Sample.g0) ∧
        list_at g' (redo_stack Sample.g0) = [[mkAction Pos []]] ∧
        calls g' = calls Sample.g0 ++
                   [CallInit (mkAction Pos []); CallUndo (mkAction Pos [])].
Proof.
  refine (action_then_undo Sample.g0 "pos" [] _ _ _).
  - reflexivity.
  - reflexivity.
  - simpl. lia.
Defined.

(** C5: the handler clears its own redo stack, [redo] reads the one of
    the page.  On the session in which these are two lists and the redo
    stack of the page holds a group, the handler leaves that group where
    it is, and the [redo] that follows applies it and pushes it on the
    undo stack of the page: it is not a no-op. *)
Lemma redo_after_action_applies_group :
  redo_stack Sample.g_split ≠ page_redo_stack (page Sample.g_split) ∧
  ∃ g' g'',
    action "pos" [] Sample.g_split = Ok tt g' ∧
    list_at g' (undo_stack Sample.g_split) = [[mkAction Pos []]] ∧
    list_at g' (redo_stack Sample.g_split) = [] ∧
    list_at g' (page_redo_stack (page Sample.g_split)) = [[Sample.act1]] ∧
    redo g' = Ok tt g'' ∧
    calls g'' = calls g' ++ [CallApply Sample.act1] ∧
    list_at g'' (page_redo_stack (page Sample.g_split)) = [] ∧
    list_at g'' (page_undo_stack (page Sample.g_split)) = [[Sample.act1]] ∧
    g'' ≠ g'.
Proof.
  split; [done|]. eexists _, _. split; [reflexivity|].
  split; [reflexivity|]. split; [reflexivity|]. split; [reflexivity|].
  split; [reflexivity|]. split; [reflexivity|]. split; [reflexivity|].
  split; [reflexivity|].
  intros Heq. apply (f_equal calls) in Heq. discriminate Heq.
Qed.

(** C6: the property as specified fails for [act_expand]: with a uid that the snapshot
    does not hold it raises KeyError. *)
Lemma act_expand_unknown_uid_raises :
  uids Sample.g0 !! "nowhere" = None ∧
  act_expand "nowhere" Sample.g0 = Raise KeyError Sample.g0 ∧
  act_expand "nowhere" Sample.g0 ≠ Ok tt Sample.g0.
Proof. by repeat split. Qed.

Lemma empty_stack_and_unknown_uid_witness :
  undo Sample.g0 = Ok tt Sample.g0 ∧
  redo Sample.g0 = Ok tt Sample.g0 ∧
  act_expand "nowhere" Sample.g0 = Raise KeyError Sample.g0.
Proof.
  destruct (empty_stack_and_unknown_uid Sample.g0 "nowhere")
    as (Hu & Hr & He).
  split; [apply Hu; reflexivity|].
  split; [apply Hr; reflexivity|apply He; reflexivity].
Defined.

(** C7: the property as specified fails for a text given as the [code] argument: the text
    that the page holds is run again, and the locals then hold the
    objects of the new run; the reload then stops at the constructor of
    the name finder. *)
Lemma reload_with_same_code_argument_runs :
  ∃ g', code (page Sample.g0) = Some "model = nengo.Network()" ∧
        _reload (Some "model = nengo.Network()") Sample.g0 =
          Raise TypeError g' ∧
        locals (page Sample.g0) !! "model" = Some Sample.model_old ∧
        locals (page g') !! "model" = Some Sample.model_new ∧
        g' ≠ Sample.g0.
Proof.
  eexists. split; [reflexivity|]. split; [vm_compute; reflexivity|].
  split; [vm_compute; reflexivity|]. split; [vm_compute; reflexivity|].
  intros Heq. apply (f_equal (λ g, locals (page g) !! "model")) in Heq.
  vm_compute in Heq. discriminate Heq.
Qed.

Lemma reload_unchanged_text_witness :
  _reload None Sample.g0 = Ok tt Sample.g0.
Proof.
  refine (proj1 (reload_unchanged_text Sample.g0
                   "model = nengo.Network()") _ _); reflexivity.
Defined.

Lemma reload_failure_keeps_snapshot_witness :
  ∃ g', _reload (Some "boom") Sample.g0 = Ok tt g' ∧
        is_Some (error (page g')) ∧
        uids g' = uids Sample.g0 ∧ parents g' = parents Sample.g0 ∧
        components (page g') = components (page Sample.g0) ∧
        last_good_locals (page g') = last_good_locals (page Sample.g0) ∧
        to_be_sent g' = to_be_sent Sample.g0 ∧
        to_be_expanded g' = to_be_expanded Sample.g0 ∧
        networks_to_search g' = networks_to_search Sample.g0.
Proof.
  refine (proj1 (reload_failure_keeps_snapshot Sample.g0 (Some "boom")
                   "boom" _) _).
  - by left.
  - left. by exists "Traceback", 1%nat.
Defined.

Lemma create_known_uid_is_noop_witness :
  create_object Sample.a_old "ens" None Sample.g0 = Ok tt Sample.g0 ∧
  create_connection Sample.c_old None Sample.g0 = Ok tt Sample.g0 ∧
  ∃ g', create_object Sample.model_old "net" None Sample.g0 = Ok tt g' ∧
        g' ≠ Sample.g0 ∧
        create_object Sample.model_old "net" None g' = Ok tt g'.
Proof.
  destruct (create_known_uid_is_noop Sample.g0 Sample.a_old "ens" None)
    as (Hknown & _ & _).
  destruct (create_known_uid_is_noop Sample.g0 Sample.c_old "conn" None)
    as (Hconn & _ & _).
  destruct (create_known_uid_is_noop Sample.g0 Sample.model_old "net" None)
    as (_ & Htwice & _).
  split; [apply Hknown; by eexists|].
  split; [apply Hconn; by eexists|].
  eexists. split; [vm_compute; reflexivity|]. split.
  - intros Heq. apply (f_equal written) in Heq. discriminate Heq.
  - apply Htwice. vm_compute. reflexivity.
Defined.

(** C2: the property as specified fails on the connection [top] of the sample session,
    whose post object is the learning rule of a connection that itself
    ends in a learning rule.  Normalized to the end, as the claim has it,
    the post side went from [a] to [b]; the code takes one step, to the
    learning rule of [deep], whose uid is the same in both scripts: the
    call returns, sends nothing and changes nothing, and so does the loop
    of the reload for this uid. *)
Lemma reconnect_not_sent_behind_two_rules :
  attr_post_obj Sample.top_old = Some (LearningRule 34 Sample.mid_old) ∧
  attr_post_obj Sample.top_new = Some (LearningRule 44 Sample.mid_new) ∧
  claimed_normal_form (LearningRule 34 Sample.mid_old) = Sample.a_old ∧
  claimed_normal_form (LearningRule 44 Sample.mid_new) = Sample.b_new ∧
  page_names_uid (Some (names Sample.rules_finder)) Sample.b_new ≠
    page_names_uid None Sample.a_old ∧
  normalized_post Sample.top_old = Some (LearningRule 32 Sample.deep_old) ∧
  normalized_post Sample.top_new = Some (LearningRule 42 Sample.deep_new) ∧
  _reload_update_item "top" Sample.top_old Sample.top_new
    Sample.rules_finder Sample.g_rules = Ok false Sample.g_rules ∧
  ∃ vars' g',
    reload_loop Sample.rules_finder (map_to_list (uids Sample.g_rules))
      Sample.g_rules = Ok vars' g' ∧
    uids g' !! "top" = Some Sample.top_new ∧
    events_about "top" (new_events Sample.g_rules g') = [].
Proof.
  split; [reflexivity|]. split; [reflexivity|]. split; [reflexivity|].
  split; [reflexivity|]. split; [vm_compute; discriminate|].
  split; [reflexivity|]. split; [reflexivity|].
  split; [vm_compute; reflexivity|].
  eexists _, _. split; [vm_compute; reflexivity|].
  split; vm_compute; reflexivity.
Qed.

(** C2 on the sample session: a connection from the neurons of [a] to [a]
    compared with one from [a] to the learning rule of a connection into
    [a] has the same normalized endpoints, and nothing is sent; the
    reload of a script whose connection still goes from [a] to [a] sends
    nothing for it. *)
Lemma reconnect_only_if_endpoints_differ_witness :
  _reload_update_item Sample.conn_uid
    (Connection 3 None (Neurons 5 Sample.a_old) Sample.a_old Sample.a_old)
    (Connection 13 None Sample.a_new
       (LearningRule 15
          (Connection 16 None Sample.b_new Sample.a_new Sample.a_new))
       Sample.a_new)
    Sample.new_finder Sample.g_loop = Ok false Sample.g_loop ∧
  (∃ vars' g',
     reload_loop Sample.new_finder (map_to_list (uids Sample.g_kept))
       Sample.g_kept = Ok vars' g' ∧
     events_about Sample.conn_uid (new_events Sample.g_kept g') = []).
Proof.
  destruct (reconnect_only_if_endpoints_differ Sample.g_loop Sample.conn_uid
              (Connection 3 None (Neurons 5 Sample.a_old) Sample.a_old
                 Sample.a_old)
              (Connection 13 None Sample.a_new
                 (LearningRule 15
                    (Connection 16 None Sample.b_new Sample.a_new
                       Sample.a_new))
                 Sample.a_new)
              Sample.new_finder
              Sample.a_old Sample.a_old Sample.a_new Sample.a_new
              eq_refl eq_refl eq_refl eq_refl eq_refl)
    as (Hsame & _ & _).
  destruct (reconnect_only_if_endpoints_differ Sample.g_kept Sample.conn_uid
              Sample.c_old Sample.c_kept Sample.new_finder
              Sample.a_old Sample.a_old Sample.a_new Sample.a_new
              eq_refl eq_refl eq_refl eq_refl eq_refl)
    as (_ & _ & Hloop).
  assert (¬ endpoints_differ Sample.new_finder Sample.a_old Sample.a_old
              Sample.a_new Sample.a_new) as Hn.
  { vm_compute. intros [Hne|Hne]; by apply Hne. }
  split; [by apply Hsame|].
  eexists _, _. split; [vm_compute; reflexivity|].
  eapply Hloop; [| |vm_compute; reflexivity|exact Hn].
  - vm_compute. reflexivity.
  - repeat split; vm_compute; reflexivity.
Defined.

(** C1: the claim fails in the code on a uid of the snapshot that the new
    script does not bind.  Its evaluation fails, the lookup of a name for
    None raises KeyError, and the loop stops there: no remove event is
    sent and the uid stays in the snapshot.  The reload of the sample
    session itself stops before the loop, at the constructor of the name
    finder, with the snapshot and the queue of events as they were: [b],
    whose dimensions changed, is not removed.  And the loop run on the
    sample session stops at the connection, which the conditions keep and
    whose endpoints changed: the uid is left bound to the old object. *)
Lemma reload_unresolved_uid_raises :
  (py_eval "gone" (locals (page Sample.g_gone)) = None ∧
   uids Sample.g_gone !! "gone" = Some Sample.b_old ∧
   (¬ ∃ new_item, stable Sample.new_finder (locals (page Sample.g_gone))
                    "gone" Sample.b_old new_item) ∧
   reload_loop Sample.new_finder (map_to_list (uids Sample.g_gone))
     Sample.g_gone = Raise KeyError Sample.g_gone) ∧
  (∃ g', _reload (Some "model = nengo.Network()") Sample.g0 =
           Raise TypeError g' ∧
         error (page g') = None ∧
         uids g' = uids Sample.g0 ∧
         to_be_sent g' = to_be_sent Sample.g0) ∧
  (∃ g', reload_loop Sample.new_finder (map_to_list (uids Sample.g_loop))
           Sample.g_loop = Raise AttributeError g' ∧
         stable Sample.new_finder (locals (page Sample.g_loop))
           Sample.conn_uid Sample.c_old Sample.c_new ∧
         uids g' !! Sample.conn_uid = Some Sample.c_old ∧
         events_about Sample.conn_uid (new_events Sample.g_loop g') = []).
Proof.
  split; [|split].
  - split; [reflexivity|]. split; [reflexivity|]. split.
    + intros (new_item & He & _). vm_compute in He. discriminate He.
    + vm_compute. reflexivity.
  - eexists. split; [vm_compute; reflexivity|].
    split; [reflexivity|]. split; vm_compute; reflexivity.
  - eexists. split; [vm_compute; reflexivity|].
    split; [repeat split; vm_compute; reflexivity|].
    split; vm_compute; reflexivity.
Qed.

(** * The further properties on the samples *)

#[local] Existing Instance SampleDisplay.introspection.

(** X2 on a name finder that has the name [_viz_0]: the two names are
    [_viz_1] and [_viz_2]. *)
Lemma NameFinder_add_twice_witness :
  ∃ nf2, "_viz_1" ≠ "_viz_2" ∧
         NameFinder_getitem nf2 Sample.node = Some "_viz_2" ∧
         (py_key Sample.b_old ≠ py_key Sample.node →
          NameFinder_getitem nf2 Sample.b_old = Some "_viz_1") ∧
         (py_key Sample.b_old = py_key Sample.node →
          NameFinder_getitem nf2 Sample.b_old = Some "_viz_2").
Proof.
  eexists.
  eapply (NameFinder_add_twice SampleDisplay.one_name _ _
            Sample.b_old Sample.node); vm_compute; reflexivity.
Defined.

(** X6 on the locals of the old script: [a] is bound to the ensemble
    only. *)
Lemma NameFinder_update_top_level_witness :
  ∃ nf', final (NameFinder_update Sample.old_locals
                  (mkNameFinder ∅ "_viz_" 0)) = Some nf' ∧
         NameFinder_getitem nf' Sample.a_old = Some "a" ∧
         autocount nf' = 0%nat.
Proof.
  refine (NameFinder_update_top_level Sample.old_locals
            (mkNameFinder ∅ "_viz_" 0) "a" Sample.a_old _ _ _).
  - vm_compute. reflexivity.
  - reflexivity.
  - intros k' v' Hl _ Hk. unfold Sample.old_locals in Hl. simpl in Hl.
    rewrite !lookup_insert_Some, lookup_empty in Hl.
    destruct Hl as [[<- <-]|[_ [[<- <-]|[_ [[<- <-]|[_ Hl]]]]]];
      try done; vm_compute in Hk; discriminate Hk.
Defined.

(** X10 on the sample session: the model is not in the snapshot, and
    the page names it [model]. *)
Lemma create_object_new_witness :
  ∃ g' p s,
    create_object Sample.model_old "net" None Sample.g0 = Ok tt g' ∧
    uids g' =
      <[page_names_uid None Sample.model_old := Sample.model_old]>
        (uids Sample.g0) ∧
    written g' =
      written Sample.g0 ++
      [MsgObject (page_names_uid None Sample.model_old) "model" p "net" s
         None
         (if String.eqb "net" "net"
          then Some (expanded (config_get (page g') Sample.model_old))
          else None)
         (get_extra_info Sample.model_old)] ∧
    pos (config_get (page g') Sample.model_old) = Some p ∧
    cfg_size (config_get (page g') Sample.model_old) = Some s ∧
    p = default (random_uniform (random_draws Sample.g0),
                 random_uniform (S (random_draws Sample.g0)))
          (pos (config_get (page Sample.g0) Sample.model_old)) ∧
    s = default (1 # 10, 1 # 10)%Q
          (cfg_size (config_get (page Sample.g0) Sample.model_old)) ∧
    display_frame Sample.g0 g' ∧ flags_kept Sample.g0 g'.
Proof.
  refine (proj1 (create_object_new Sample.model_old "net" None Sample.g0 _)
            "model" _); vm_compute; reflexivity.
Defined.

(** X11 on the sample display. *)
Lemma expand_network_effect_witness :
  ∃ g', expand_network Sample.model_old SampleDisplay.g_display = Ok tt g' ∧
        grown (λ v, v ∈ children Sample.model_old)
          SampleDisplay.g_display g' ∧
        (∀ v, v ∈ children Sample.model_old →
              is_Some (uids g' !! page_names_uid None v)) ∧
        expanded (config_get (page g') Sample.model_old) = true ∧
        has_layout (config_get (page g') Sample.model_old) = true.
Proof.
  eexists. split; [vm_compute; reflexivity|].
  apply expand_network_effect. vm_compute. reflexivity.
Defined.

(** X12 on the sample display. *)
Lemma expand_network_twice_witness :
  ∃ g', expand_network Sample.model_old SampleDisplay.g_display = Ok tt g' ∧
        length (written g') = 3%nat ∧
        expand_network Sample.model_old g' = Ok tt g'.
Proof.
  eexists. split; [vm_compute; reflexivity|].
  split; [vm_compute; reflexivity|].
  apply (expand_network_twice Sample.model_old SampleDisplay.g_display).
  vm_compute. reflexivity.
Defined.

(** X13 on the session with one group of two actions. *)
Lemma undo_then_redo_witness :
  ∃ g', (undo ;;; redo) Sample.g_two = Ok tt g' ∧
        list_at g' 0%nat = [[Sample.act1; Sample.act2]] ∧
        list_at g' 1%nat = list_at Sample.g_two 1%nat ∧
        calls g' =
          calls Sample.g_two ++
          map CallUndo [Sample.act1; Sample.act2] ++
          map CallApply (rev [Sample.act1; Sample.act2]) ∧
        page g' = page Sample.g_two.
Proof.
  refine (proj1 (undo_then_redo Sample.g_two []
                   [Sample.act1; Sample.act2] _) _).
  - simpl. lia.
  - reflexivity.
Defined.

(** X14 on the sample session, for the script that raises on its first
    line. *)
Lemma execute_reports_witness :
  ∃ stdout g',
    execute "boom" Sample.g0 = Ok stdout g' ∧
    stdout = EmptyString ∧
    code (page g') = Some "boom" ∧
    model (page g') = PyNone ∧
    error (page g') = Some ("Traceback", 1%nat).
Proof.
  destruct (execute "boom" Sample.g0) as [stdout g'|e g'|] eqn:Hrun;
    [|vm_compute in Hrun; discriminate Hrun..].
  exists stdout, g'. split; [reflexivity|].
  pose proof (execute_reports "boom" Sample.g0 stdout g' Hrun)
    as (Hcode & _ & Hmodel & _ & [Hout Herr] & _).
  split; [exact Hout|]. split; [exact Hcode|]. split; [exact Hmodel|].
  exact Herr.
Defined.

(** X15 on the sample session, reloaded from a script whose connection
    still goes from [a] to [a]. *)
Lemma reload_loop_snapshot_witness :
  ∃ vars' g',
    reload_loop Sample.new_finder (map_to_list (uids Sample.g_kept))
      Sample.g_kept = Ok vars' g' ∧
    page g' = page Sample.g_kept ∧
    (∀ uid new_item, uids g' !! uid = Some new_item →
       ∃ old_item, uids Sample.g_kept !! uid = Some old_item ∧
                   stable Sample.new_finder (locals (page Sample.g_kept))
                     uid old_item new_item) ∧
    (∃ evs, to_be_sent g' = to_be_sent Sample.g_kept ++ evs ∧
            ∀ e, e ∈ evs →
                 ∃ uid, event_uid e = Some uid ∧
                        is_Some (uids Sample.g_kept !! uid)).
Proof.
  eexists _, _. split; [vm_compute; reflexivity|].
  eapply (reload_loop_snapshot Sample.new_finder Sample.g_kept).
  vm_compute. reflexivity.
Defined.

(** X16 on the sample session: the ensemble [a] compared with the new
    ensemble [b] is renamed. *)
Lemma update_item_rename_witness :
  _reload_update_item "a" Sample.a_old Sample.b_new Sample.new_finder
    Sample.g_loop =
  Ok true (set_to_be_sent [EvRename "a" "b"] Sample.g_loop).
Proof.
  assert (is_node_ens_net Sample.a_old = true) as Hcls by reflexivity.
  destruct (update_item_rename "a" Sample.a_old Sample.b_new
              Sample.new_finder Sample.g_loop Hcls) as [Hren _].
  rewrite (Hren "a" "b"); [reflexivity|vm_compute; reflexivity..].
Defined.

(** X18 on the sample session: a file that can be read, one that
    cannot be opened, and one that cannot be decoded. *)
Lemma load_reads_file_witness :
  (∃ out g', load "model.py" Sample.g0 = Ok out g' ∧
             filename (page g') = Some "model.py" ∧
             code (page g') = Some "model = nengo.Network()") ∧
  load "missing.py" Sample.g0 = execute EmptyString Sample.g0 ∧
  load "binary.py" Sample.g0 =
    Raise (OtherError "UnicodeDecodeError") Sample.g0.
Proof.
  destruct (load_reads_file "model.py" Sample.g0) as (Hread & _ & _).
  destruct (load_reads_file "missing.py" Sample.g0) as (_ & Hmissing & _).
  destruct (load_reads_file "binary.py" Sample.g0) as (_ & _ & Hbinary).
  split; [|split].
  - eexists _, _. split; [vm_compute; reflexivity|].
    edestruct Hread as (Hf & Hc & _);
      [reflexivity|vm_compute; reflexivity|].
    by split.
  - apply Hmissing; reflexivity.
  - apply Hbinary; [reflexivity|]. vm_compute. discriminate.
Defined.

(** X19 on the sample display: the ensemble [a] is found in the model. *)
Lemma get_parents_finds_witness :
  match get_parents (page_names_uid None Sample.a_old) None
          SampleDisplay.g_display with
  | Ok l g' => is_Some (parents g' !! page_names_uid None Sample.a_old)
  | Raise _ _ => False
  | Diverge => True
  end.
Proof.
  refine (get_parents_finds Sample.a_old Sample.model_old None
            SampleDisplay.g_display _ _ _).
  - repeat constructor.
  - apply list_elem_of_here.
  - apply shown_member. simpl. apply list_elem_of_here.
Defined.
